(** * A model of the location-sharing WebSocket server

    The development embeds the two logic files of the repository:
    [redis-service.js] (class [RedisService], the time-indexed store kept in
    Redis sorted sets and hashes) and the server file (class
    [LocationServer]: validation, rate limiting, presence maps, dispatch and
    broadcast).  JavaScript values keep their dynamic types, numbers are
    IEEE 754 binary64 values, the three [Map]s of the server keep their
    insertion order, and every handler is a function from the state before
    the message to the state after it and the frames it sends.  A handler
    that waits for the store is given in two parts, what it does before
    its [await] and what it sends when the store has answered, so that
    other events can be handled in between. *)

From Stdlib Require Import ZArith Ascii String List Bool Lia.
From Stdlib Require Import Floats.SpecFloat.
From stdpp Require Import base option list sorting strings pretty gmap.

Import ListNotations.
Local Open Scope Z_scope.

(** ** JavaScript values *)

Module Js.

(** The values a decoded message field can hold.  [JObject] stands for any
    object or array: the server only ever tests such a value for
    truthiness and for its [typeof]. *)
Inductive JsVal :=
| JUndefined
| JNull
| JBool (b : bool)
| JNum (x : spec_float)
| JStr (s : string)
| JObject.

#[global] Instance JsVal_inhabited : Inhabited JsVal := populate JUndefined.

(** [ToBoolean]: what [if (v)], [!v] and [v || w] look at. *)
Definition truthy (v : JsVal) : bool :=
  match v with
  | JUndefined | JNull => false
  | JBool b => b
  | JNum (S754_zero _) | JNum S754_nan => false
  | JNum _ => true
  | JStr EmptyString => false
  | JStr _ => true
  | JObject => true
  end.

(** [v || w] *)
Definition or_else (v w : JsVal) : JsVal := if truthy v then v else w.

(** A binary64 literal [m * 2^e]. *)
Definition double (m e : Z) : spec_float := binary_normalize 53 1024 m e false.
#[global] Arguments double : simpl never.

Definition NaN : spec_float := S754_nan.

(** [x < y] and [x > y] on numbers: false as soon as one side is NaN. *)
Definition num_lt (x y : spec_float) : bool := SFltb x y.
Definition num_gt (x y : spec_float) : bool := SFltb y x.

(** The values a property of a decoded message can hold.  A message
    reaches the server as JSON text: [JSON.parse] makes a finite number of
    a number literal, or an infinity when the literal overflows, and JSON
    has no literal for NaN; an absent property reads as [JUndefined]. *)
Definition decodable (v : JsVal) : bool :=
  match v with
  | JNum S754_nan => false
  | _ => true
  end.

(** [x <= y] on numbers. *)
Definition num_le (x y : spec_float) : bool := SFleb x y.

(** [s.length], counted in code units of the string. *)
Definition str_length (s : string) : Z := Z.of_nat (String.length s).

(** [s.replace(pat, '')]: the first occurrence of [pat] is cut out. *)
Fixpoint remove_first (pat s : string) : string :=
  if String.prefix pat s
  then String.substring (String.length pat)
                        (String.length s - String.length pat) s
  else match s with
       | EmptyString => EmptyString
       | String c s' => String c (remove_first pat s')
       end.

End Js.
Export Js.

(** ** Error codes of the wire protocol *)

Inductive ErrorCode :=
| INVALID_JSON
| INVALID_MESSAGE
| INVALID_NAME
| INVALID_LOCATION
| STALE_LOCATION
| RATE_LIMITED
| USER_LIMIT_EXCEEDED
| INVALID_DISCONNECT
| UNAUTHORIZED_DISCONNECT
| MISSING_USERNAME
| HISTORY_ERROR
| UNKNOWN_MESSAGE_TYPE
| LOCATION_UPDATE_ERROR
| USERS_LIST_ERROR
| HISTORY_REQUEST_ERROR.

(** ** Records exchanged with clients and with the store *)

(** The [data] object of a [location_update]; an absent property reads as
    [JUndefined]. *)
Record UpdateData := {
  name : JsVal;
  latitude : JsVal;
  longitude : JsVal;
  lastUpdate : JsVal
}.

(** A user object: [userData] built by [handleLocationUpdate], and what
    [getLatestUserLocation] assembles from the store.  [connected] is the
    property [sendUsersList] adds; it is absent ([None]) everywhere else. *)
Record User := {
  u_name : string;
  u_latitude : JsVal;
  u_longitude : JsVal;
  u_lastUpdate : JsVal;
  u_connected : option bool
}.

(** ** Built-ins of the host

    [Date], [JSON], string conversion and the argument encoder of the Redis
    client are not code of the repository; the model takes them as an
    interface. *)
Class Runtime := {
  (** [new Date(v).getTime()]; [None] is NaN (an invalid date) *)
  Date_getTime : JsVal -> option Z;
  (** [new Date(ms).toISOString()] *)
  toISOString : Z -> string;
  (** [JSON.stringify] of a location entry
      [{latitude, longitude, name, lastUpdate}] *)
  JSON_stringify : User -> string;
  (** [JSON.parse] of a stored member *)
  JSON_parse : string -> User;
  (** the string a template literal makes of a value that is not a string *)
  ToString : JsVal -> string;
  (** the encoding of a hash field value that is not a string by the Redis
      client; [None] when the client throws on the value *)
  clientArg : JsVal -> option string
}.

(** ** Configuration *)

Module Config.
(** [LocationServer.config] *)
Definition maxUsers : Z := 100.
Definition locationUpdateInterval : Z := 2000.
Definition userTimeout : Z := 30000.
Definition maxNameLength : Z := 50.
(** [RedisService.config] *)
Definition maxLocationEntries : Z := 100.
Definition locationTTL : Z := 7 * 24 * 60 * 60.
Definition userTTL : Z := 30 * 24 * 60 * 60.
Definition keyPrefix : string := "location_share:".
End Config.

(** ** Validation *)

Inductive Validation :=
| Valid
| Invalid (code : ErrorCode).

Section Validator.
Context `{Runtime}.

(** [validateLocationData(data)], with [now] the value of [Date.now()].
    The result keeps [valid] and [code]; [message] and [details] are
    texts for the client.  Each [||] of the source short-circuits, so a
    comparison is only reached on a number and [length] on a string. *)
Definition validateLocationData (now : Z) (data : UpdateData) : Validation :=
  match name data with
  | JStr s =>
    if negb (truthy (JStr s)) then Invalid INVALID_NAME
    else if (str_length s =? 0) || (str_length s >? Config.maxNameLength)
    then Invalid INVALID_NAME
    else
      match latitude data with
      | JNum lat =>
        if num_lt lat (double (-90) 0) || num_gt lat (double 90 0)
        then Invalid INVALID_LOCATION
        else
          match longitude data with
          | JNum lon =>
            if num_lt lon (double (-180) 0) || num_gt lon (double 180 0)
            then Invalid INVALID_LOCATION
            else if truthy (lastUpdate data) then
              match Date_getTime (lastUpdate data) with
              | Some updateTime =>
                if now - updateTime >? Config.userTimeout
                then Invalid STALE_LOCATION
                else Valid
              | None => Valid
              end
            else Valid
          | _ => Invalid INVALID_LOCATION
          end
      | _ => Invalid INVALID_LOCATION
      end
  | _ => Invalid INVALID_NAME
  end.

End Validator.

(** ** The Redis server and its client

    The store is reached through the commands of the client library.  A key
    holds a sorted set or a hash; a command on a key of the other type is
    answered with an error, which the client throws.  [link] says how long
    the connection lasts: [None] for a connection that stays up, [Some n]
    when [n] more commands are answered and every later one is thrown. *)

Module Redis.

Inductive Value :=
| VZSet (z : list (Z * string))
| VHash (h : gmap string string).

Record Db := {
  keyspace : gmap string Value;
  (** seconds given to the last [EXPIRE] of a key *)
  expiry : gmap string Z;
  link : option nat
}.

Definition with_keyspace (k : gmap string Value) (db : Db) : Db :=
  {| keyspace := k; expiry := expiry db; link := link db |}.
Definition with_expiry (e : gmap string Z) (db : Db) : Db :=
  {| keyspace := keyspace db; expiry := e; link := link db |}.
Definition with_link (l : option nat) (db : Db) : Db :=
  {| keyspace := keyspace db; expiry := expiry db; link := l |}.

(** *** Sorted sets: ascending by score, ties by member, bytewise *)

Definition entry_ltb (a b : Z * string) : bool :=
  (a.1 <? b.1) || ((a.1 =? b.1) && String.ltb a.2 b.2).

Fixpoint zinsert (e : Z * string) (z : list (Z * string)) : list (Z * string) :=
  match z with
  | [] => [e]
  | x :: z' => if entry_ltb e x then e :: z else x :: zinsert e z'
  end.

(** [ZADD]: a member already in the set moves to its new score. *)
Definition zadd (score : Z) (member : string) (z : list (Z * string))
  : list (Z * string) :=
  zinsert (score, member) (filter (λ x, x.2 ≠ member) z).

(** The rank interval a command walks over a set of [len] elements, as the
    server cuts it: negative indexes count from the end, and [None] is
    the empty interval. *)
Definition rank_range (len start stop : Z) : option (Z * Z) :=
  let start := if start <? 0 then len + start else start in
  let stop := if stop <? 0 then len + stop else stop in
  let start := if start <? 0 then 0 else start in
  if (start >? stop) || (start >=? len) then None
  else Some (start, if stop >=? len then len - 1 else stop).

Definition zremrangebyrank (start stop : Z) (z : list (Z * string))
  : list (Z * string) :=
  match rank_range (Z.of_nat (length z)) start stop with
  | None => z
  | Some (a, b) => take (Z.to_nat a) z ++ drop (Z.to_nat (b + 1)) z
  end.

(** [ZRANGE key start stop [REV]] by rank: with [REV] the ranks are those
    of the set read from the highest score down. *)
Definition zrange_by_rank (start stop : Z) (rev : bool) (z : list (Z * string))
  : list string :=
  let ordered := if rev then reverse z else z in
  match rank_range (Z.of_nat (length z)) start stop with
  | None => []
  | Some (a, b) =>
    snd <$> take (Z.to_nat (b - a + 1)) (drop (Z.to_nat a) ordered)
  end.

(** [ZRANGE key start stop BYSCORE [REV]]: with [REV] the first bound is
    the upper one. *)
Definition zrange_by_score (start stop : Z) (rev : bool) (z : list (Z * string))
  : list string :=
  if rev
  then snd <$> filter (λ x, stop ≤ x.1 ≤ start) (reverse z)
  else snd <$> filter (λ x, start ≤ x.1 ≤ stop) z.

(** *** The client monad *)

Inductive Outcome (A : Type) :=
| Ok (a : A)
| Thrown.
Arguments Ok {A} a.
Arguments Thrown {A}.

Definition Client (A : Type) : Type := Db -> Outcome A * Db.

Definition ret {A} (a : A) : Client A := fun db => (Ok a, db).

Definition throw {A} : Client A := fun db => (Thrown, db).

Definition bind {A B} (c : Client A) (k : A -> Client B) : Client B :=
  fun db =>
    match c db with
    | (Ok a, db') => k a db'
    | (Thrown, db') => (Thrown, db')
    end.

(** [try { c } catch { return fallback }] *)
Definition try_catch {A} (c : Client A) (fallback : A) (db : Db) : A * Db :=
  match c db with
  | (Ok a, db') => (a, db')
  | (Thrown, db') => (fallback, db')
  end.

(** One round trip to the server. *)
Definition command {A} (run : Client A) : Client A :=
  fun db =>
    match link db with
    | Some O => (Thrown, db)
    | Some (S n) => run (with_link (Some n) db)
    | None => run db
    end.

(** *** Commands *)

Definition zAdd (key : string) (score : Z) (value : string) : Client unit :=
  command (fun db =>
    match keyspace db !! key with
    | Some (VHash _) => (Thrown, db)
    | Some (VZSet z) =>
      (Ok tt, with_keyspace (<[key := VZSet (zadd score value z)]> (keyspace db)) db)
    | None =>
      (Ok tt, with_keyspace (<[key := VZSet [(score, value)]]> (keyspace db)) db)
    end).

(** A set left empty is deleted, as is its expiry. *)
Definition zRemRangeByRank (key : string) (start stop : Z) : Client unit :=
  command (fun db =>
    match keyspace db !! key with
    | Some (VHash _) => (Thrown, db)
    | Some (VZSet z) =>
      match zremrangebyrank start stop z with
      | [] => (Ok tt, with_expiry (delete key (expiry db))
                        (with_keyspace (delete key (keyspace db)) db))
      | z' => (Ok tt, with_keyspace (<[key := VZSet z']> (keyspace db)) db)
      end
    | None => (Ok tt, db)
    end).

Definition zRemRangeByScore (key : string) (min max : Z) : Client unit :=
  command (fun db =>
    match keyspace db !! key with
    | Some (VHash _) => (Thrown, db)
    | Some (VZSet z) =>
      match filter (λ x, ¬ (min ≤ x.1 ≤ max)) z with
      | [] => (Ok tt, with_expiry (delete key (expiry db))
                        (with_keyspace (delete key (keyspace db)) db))
      | z' => (Ok tt, with_keyspace (<[key := VZSet z']> (keyspace db)) db)
      end
    | None => (Ok tt, db)
    end).

Definition expire (key : string) (seconds : Z) : Client bool :=
  command (fun db =>
    match keyspace db !! key with
    | Some _ => (Ok true, with_expiry (<[key := seconds]> (expiry db)) db)
    | None => (Ok false, db)
    end).

Definition hset (fields : list (string * string)) (h : gmap string string)
  : gmap string string :=
  foldl (λ acc f, <[f.1 := f.2]> acc) h fields.

Definition hSet (key : string) (fields : list (string * string)) : Client unit :=
  command (fun db =>
    match keyspace db !! key with
    | Some (VZSet _) => (Thrown, db)
    | Some (VHash h) =>
      (Ok tt, with_keyspace (<[key := VHash (hset fields h)]> (keyspace db)) db)
    | None =>
      (Ok tt, with_keyspace (<[key := VHash (hset fields ∅)]> (keyspace db)) db)
    end).

(** A missing key reads as the empty object. *)
Definition hGetAll (key : string) : Client (gmap string string) :=
  command (fun db =>
    match keyspace db !! key with
    | Some (VZSet _) => (Thrown, db)
    | Some (VHash h) => (Ok h, db)
    | None => (Ok ∅, db)
    end).

(** [DEL key]: the number of keys removed. *)
Definition del (key : string) : Client Z :=
  command (fun db =>
    match keyspace db !! key with
    | Some _ => (Ok 1, with_expiry (delete key (expiry db))
                         (with_keyspace (delete key (keyspace db)) db))
    | None => (Ok 0, db)
    end).

(** [EXISTS key]: 1 for a key that is there, 0 otherwise. *)
Definition exists_ (key : string) : Client Z :=
  command (fun db =>
    match keyspace db !! key with
    | Some _ => (Ok 1, db)
    | None => (Ok 0, db)
    end).

(** [KEYS prefix*] *)
Definition keys (prefix : string) : Client (list string) :=
  command (fun db =>
    (Ok (filter (λ k, String.prefix prefix k = true)
                (fst <$> map_to_list (keyspace db))), db)).

(** The options object handed to [zRange].  The client builds the command
    from the two positional bounds and from the properties [BY] and [REV]
    (and [LIMIT], which the source never sets); no other property of the
    object is read.  [BYSCORE], [MIN] and [MAX] are the properties
    [getUserLocationHistory] sets. *)
Inductive RangeBy := SCORE | LEX.

Record ZRangeOptions := {
  BY : option RangeBy;
  REV : bool;
  BYSCORE : bool;
  MIN : option Z;
  MAX : option Z
}.

(** [zRange(key, min, max, options)].  A number is not a lexicographic
    bound, so [BY: 'LEX'] with these bounds is answered with an error. *)
Definition zRange (key : string) (min max : Z) (options : ZRangeOptions)
  : Client (list string) :=
  command (fun db =>
    match keyspace db !! key with
    | Some (VHash _) => (Thrown, db)
    | Some (VZSet z) =>
      match BY options with
      | None => (Ok (zrange_by_rank min max (REV options) z), db)
      | Some SCORE => (Ok (zrange_by_score min max (REV options) z), db)
      | Some LEX => (Thrown, db)
      end
    | None =>
      match BY options with
      | Some LEX => (Thrown, db)
      | _ => (Ok [], db)
      end
    end).

End Redis.

#[global] Instance client_ret : MRet Redis.Client := @Redis.ret.
#[global] Instance client_bind : MBind Redis.Client :=
  fun A B k c => Redis.bind c k.

(** ** [RedisService] *)

Record RedisService := {
  isConnected : bool;
  client : Redis.Db
}.

Definition with_client (db : Redis.Db) (r : RedisService) : RedisService :=
  {| isConnected := isConnected r; client := db |}.

Section RedisService.
Context `{Runtime}.
Import Redis.

Definition locationKey (username : string) : string :=
  Config.keyPrefix +:+ "locations:" +:+ username.

Definition userKey (username : string) : string :=
  Config.keyPrefix +:+ "user:" +:+ username.

(** The [try { ... } catch { return fallback }] every method wraps its
    commands in. *)
Definition attempt {A} (body : Client A) (fallback : A) (r : RedisService)
  : A * RedisService :=
  let (a, db) := try_catch body fallback (client r) in (a, with_client db r).

(** A hash field value as the client sends it. *)
Definition fieldArg (v : JsVal) : Client string :=
  match v with
  | JStr s => mret s
  | _ => match clientArg v with
         | Some s => mret s
         | None => throw
         end
  end.

(** [storeUserLocation(username, locationData)]; [now] is [Date.now()]. *)
Definition storeUserLocation (now : Z) (username : string) (locationData : User)
    (r : RedisService) : bool * RedisService :=
  if negb (isConnected r) then (false, r)
  else
    attempt
      (let timestamp := now in
       let lastUpdate :=
         or_else (u_lastUpdate locationData) (JStr (toISOString now)) in
       let locationEntry :=
         JSON_stringify {| u_latitude := u_latitude locationData;
                           u_longitude := u_longitude locationData;
                           u_name := u_name locationData;
                           u_lastUpdate := lastUpdate;
                           u_connected := None |} in
       zAdd (locationKey username) timestamp locationEntry;;
       zRemRangeByRank (locationKey username) 0 (- Config.maxLocationEntries - 1);;
       expire (locationKey username) Config.locationTTL;;
       lastUpdateArg ← fieldArg lastUpdate;
       hSet (userKey username)
            [("name", u_name locationData); ("lastUpdate", lastUpdateArg)];;
       expire (userKey username) Config.userTTL;;
       mret true)
      false r.

(** [{...locationData, ...userMetadata}]: a field of the hash replaces the
    property of the same name.  The hash is written with [name] and
    [lastUpdate] only. *)
Definition merge_metadata (locationData : User) (userMetadata : gmap string string)
  : User :=
  {| u_name := default (u_name locationData) (userMetadata !! "name");
     u_latitude :=
       from_option JStr (u_latitude locationData) (userMetadata !! "latitude");
     u_longitude :=
       from_option JStr (u_longitude locationData) (userMetadata !! "longitude");
     u_lastUpdate :=
       from_option JStr (u_lastUpdate locationData) (userMetadata !! "lastUpdate");
     u_connected := u_connected locationData |}.

Definition only_REV : ZRangeOptions :=
  {| BY := None; REV := true; BYSCORE := false; MIN := None; MAX := None |}.

(** [getLatestUserLocation(username)]; [None] is [null]. *)
Definition getLatestUserLocation (username : string) (r : RedisService)
  : option User * RedisService :=
  if negb (isConnected r) then (None, r)
  else
    attempt
      (latestLocation ← zRange (locationKey username) (-1) (-1) only_REV;
       match latestLocation with
       | [] => mret None
       | first :: _ =>
         let locationData := JSON_parse first in
         userMetadata ← hGetAll (userKey username);
         mret (Some (merge_metadata locationData userMetadata))
       end)
      None r.

(** A time bound of a history query: [null], NaN (both [None]) or a
    number of milliseconds; [if (t)] on it. *)
Definition time_truthy (t : option Z) : bool :=
  match t with
  | Some t => negb (t =? 0)
  | None => false
  end.

(** [getUserLocationHistory(username, startTime, endTime)] *)
Definition getUserLocationHistory (username : string) (startTime endTime : option Z)
    (r : RedisService) : list User * RedisService :=
  if negb (isConnected r) then ([], r)
  else
    attempt
      (let options := only_REV in
       let options :=
         if time_truthy startTime && time_truthy endTime
         then {| BY := BY options; REV := REV options;
                 BYSCORE := true; MIN := startTime; MAX := endTime |}
         else options in
       locations ← zRange (locationKey username) 0 (-1) options;
       mret (JSON_parse <$> locations))
      [] r.

(** [getAllUsersWithLocations()].  Only [keys] can throw inside its [try]:
    [getLatestUserLocation] catches what its own commands throw. *)
Definition getAllUsersWithLocations (r : RedisService) : list User * RedisService :=
  if negb (isConnected r) then ([], r)
  else
    match keys (Config.keyPrefix +:+ "locations:") (client r) with
    | (Thrown, db) => ([], with_client db r)
    | (Ok locationKeys, db) =>
      foldl (fun acc locationKey =>
               let username :=
                 remove_first (Config.keyPrefix +:+ "locations:") locationKey in
               let '(userData, r') := getLatestUserLocation username acc.2 in
               match userData with
               | Some u => (acc.1 ++ [u], r')
               | None => (acc.1, r')
               end)
            ([], with_client db r) locationKeys
    end.

(** [removeUser(username)] *)
Definition removeUser (username : string) (r : RedisService) : bool * RedisService :=
  if negb (isConnected r) then (false, r)
  else
    attempt
      (del (locationKey username);;
       del (userKey username);;
       mret true)
      false r.

(** [userExists(username)] *)
Definition userExists (username : string) (r : RedisService) : bool * RedisService :=
  if negb (isConnected r) then (false, r)
  else
    attempt
      (found ← exists_ (userKey username);
       mret (found =? 1))
      false r.

(** What [reconnectStrategy] answers: an error, which ends the retries, or
    the milliseconds to wait. *)
Inductive Reconnect :=
| GiveUp
| RetryAfter (ms : Z).

(** [reconnectStrategy(retries)] of [connect] *)
Definition reconnectStrategy (retries : Z) : Reconnect :=
  if retries >? 10 then GiveUp
  else RetryAfter (Z.min (retries * 100) 3000).

(** [cleanupOldEntries()] *)
Definition cleanupOldEntries (now : Z) (r : RedisService) : RedisService :=
  if negb (isConnected r) then r
  else
    (attempt
       (locationKeys ← keys (Config.keyPrefix +:+ "locations:");
        let cutoffTime := now - Config.locationTTL * 1000 in
        foldr (fun key rest => zRemRangeByScore key 0 cutoffTime;; rest)
              (mret tt) locationKeys)
       tt r).2.

(** [getConnectionStatus().connected] *)
Definition getConnectionStatus (r : RedisService) : bool := isConnected r.

End RedisService.

(** ** [LocationServer] *)

(** A JavaScript [Map] with string keys: iteration follows insertion order,
    [set] on a key already there keeps its place. *)
Module JsMap.
Section Ops.
Context {V : Type}.

Fixpoint get (k : string) (m : list (string * V)) : option V :=
  match m with
  | [] => None
  | (k', v) :: m' => if decide (k' = k) then Some v else get k m'
  end.

Definition has (k : string) (m : list (string * V)) : bool :=
  match get k m with
  | Some _ => true
  | None => false
  end.

Fixpoint set (k : string) (v : V) (m : list (string * V)) : list (string * V) :=
  match m with
  | [] => [(k, v)]
  | (k', v') :: m' =>
    if decide (k' = k) then (k, v) :: m' else (k', v') :: set k v m'
  end.

Definition delete (k : string) (m : list (string * V)) : list (string * V) :=
  filter (λ kv, kv.1 ≠ k) m.

Definition size (m : list (string * V)) : Z := Z.of_nat (length m).

Definition keys (m : list (string * V)) : list string := fst <$> m.

Definition values (m : list (string * V)) : list V := snd <$> m.
End Ops.
End JsMap.

(** A connection object [ws]: the [username] property the server keeps on
    it ([None] is [null]) and whether the transport still has it open. *)
Record Socket := {
  username : option string;
  is_open : bool
}.

(** The frames the server sends. *)
Inductive Frame :=
| connected
| error (code : ErrorCode)
| users_list (data : list User)
| user_location (data : User)
| location_history (username : string) (history : list User).

(** Connections are named by a number; [sockets] is the heap of the [ws]
    objects the transport has handed to the server. *)
Record LocationServer := {
  users : list (string * User);
  connections : list (string * nat);
  userRateLimit : list (string * Z);
  sockets : gmap nat Socket;
  redis : RedisService
}.

Definition with_redis (r : RedisService) (s : LocationServer) : LocationServer :=
  {| users := users s; connections := connections s;
     userRateLimit := userRateLimit s; sockets := sockets s; redis := r |}.

Definition with_sockets (k : gmap nat Socket) (s : LocationServer) : LocationServer :=
  {| users := users s; connections := connections s;
     userRateLimit := userRateLimit s; sockets := k; redis := redis s |}.

Definition socket (s : LocationServer) (ws : nat) : Socket :=
  default {| username := None; is_open := false |} (sockets s !! ws).

(** The decoded envelope, by its [type]; a property of [data] that is
    absent reads as [JUndefined].  These are the JSON values other than
    [null]: on a number, a string or a boolean [message.type] is
    [undefined], which is the case [missing_type_or_data]. *)
Inductive Message :=
| location_update (data : UpdateData)
| user_disconnect (name : JsVal)
| get_users
| get_location_history (username startTime endTime : JsVal)
| unknown_type
| missing_type_or_data.

(** What [JSON.parse] makes of the text of a message: it throws on text
    that is not JSON, and the JSON value [null] is the one value on which
    [message.type] throws. *)
Inductive Parsed :=
| not_json
| json_null
| envelope (m : Message).

Coercion envelope : Message >-> Parsed.

(** What a handler holds when it reaches the [await] of its call of the
    store, and goes on with once the store has answered. *)
Inductive Awaited :=
| after_storeUserLocation (uname : string) (userData : User)
| after_getAllUsersWithLocations (ws : nat) (allUsers : list User)
| after_getUserLocationHistory (ws : nat) (uname : string) (history : list User).

(** A handler run up to its [await]: the state it leaves, the frames it
    has sent, and what it waits with, if it waits. *)
Definition Begun : Type := LocationServer * (list (nat * Frame) * option Awaited).

Section LocationServer.
Context `{Runtime}.

(** [sendMessage(ws, message)]: a frame reaches an open connection; on a
    closed one [send] throws and the error is only logged. *)
Definition sendMessage (s : LocationServer) (ws : nat) (message : Frame)
  : list (nat * Frame) :=
  if is_open (socket s ws) then [(ws, message)] else [].

Definition sendError (s : LocationServer) (ws : nat) (code : ErrorCode)
  : list (nat * Frame) :=
  sendMessage s ws (error code).

(** [broadcastToOthers(excludeUsername, message)] *)
Definition broadcastToOthers (s : LocationServer) (excludeUsername : string)
    (message : Frame) : list (nat * Frame) :=
  flat_map (fun c : string * nat =>
              if decide (c.1 ≠ excludeUsername)
              then sendMessage s c.2 message else [])
           (connections s).

(** [isRateLimited(username)] *)
Definition isRateLimited (now : Z) (username : string) (s : LocationServer) : bool :=
  match JsMap.get username (userRateLimit s) with
  | None => false
  | Some lastUpdate =>
    if lastUpdate =? 0 then false
    else now - lastUpdate <? Config.locationUpdateInterval
  end.

(** A value used where the source needs a string. *)
Definition as_string (v : JsVal) : string :=
  match v with
  | JStr s => s
  | _ => ToString v
  end.

Definition set_connected (b : bool) (u : User) : User :=
  {| u_name := u_name u; u_latitude := u_latitude u;
     u_longitude := u_longitude u; u_lastUpdate := u_lastUpdate u;
     u_connected := Some b |}.

(** The rest of a handler after its [await], run on the state the server
    is in when the store has answered: what [handleLocationUpdate] does
    after [storeUserLocation], [sendUsersList] after
    [getAllUsersWithLocations], and [handleLocationHistoryRequest] after
    [getUserLocationHistory].  None of them changes the state. *)
Definition resume (a : Awaited) (s : LocationServer) : list (nat * Frame) :=
  match a with
  | after_storeUserLocation uname userData =>
    broadcastToOthers s uname (user_location userData)
  | after_getAllUsersWithLocations ws allUsers =>
    let connectedUsers := JsMap.values (users s) in
    let connectedUsernames := u_name <$> connectedUsers in
    let usersWithStatus :=
      (fun user => set_connected (bool_decide (u_name user ∈ connectedUsernames)) user)
        <$> allUsers in
    sendMessage s ws (users_list usersWithStatus)
  | after_getUserLocationHistory ws uname history =>
    sendMessage s ws (location_history uname history)
  end.

(** A handler run to its end with no other event handled while it
    waits. *)
Definition uninterrupted (b : Begun) : LocationServer * list (nat * Frame) :=
  let '(s, (sent, waits)) := b in
  (s, match waits with
      | None => sent
      | Some a => sent ++ resume a s
      end).

(** [handleLocationUpdate(ws, data)] up to [await
    this.redis.storeUserLocation(...)]: the three guards, the three maps,
    the binding, and the call of the store. *)
Definition handleLocationUpdate_begin (now : Z) (ws : nat) (data : UpdateData)
    (s : LocationServer) : Begun :=
  match validateLocationData now data with
  | Invalid code => (s, (sendError s ws code, None))
  | Valid =>
    let uname := as_string (name data) in
    if isRateLimited now uname s then (s, (sendError s ws RATE_LIMITED, None))
    else if negb (JsMap.has uname (users s))
            && (JsMap.size (users s) >=? Config.maxUsers)
    then (s, (sendError s ws USER_LIMIT_EXCEEDED, None))
    else
      let userData :=
        {| u_name := uname;
           u_latitude := latitude data;
           u_longitude := longitude data;
           u_lastUpdate := or_else (lastUpdate data) (JStr (toISOString now));
           u_connected := None |} in
      let s1 :=
        {| userRateLimit := JsMap.set uname now (userRateLimit s);
           users := JsMap.set uname userData (users s);
           connections := JsMap.set uname ws (connections s);
           sockets := <[ws := {| username := Some uname;
                                 is_open := is_open (socket s ws) |}]> (sockets s);
           redis := redis s |} in
      let s2 := with_redis (storeUserLocation now uname userData (redis s1)).2 s1 in
      (s2, ([], Some (after_storeUserLocation uname userData)))
  end.

(** [handleLocationUpdate(ws, data)] with no other event handled while it
    waits for the store: the broadcast then goes to the connections map as
    the update has left it. *)
Definition handleLocationUpdate (now : Z) (ws : nat) (data : UpdateData)
    (s : LocationServer) : LocationServer * list (nat * Frame) :=
  uninterrupted (handleLocationUpdate_begin now ws data s).

(** [handleUserDisconnect(username)] *)
Definition handleUserDisconnect (uname : string) (s : LocationServer)
  : LocationServer :=
  match JsMap.get uname (users s) with
  | Some _ =>
    {| users := JsMap.delete uname (users s);
       connections := JsMap.delete uname (connections s);
       userRateLimit := JsMap.delete uname (userRateLimit s);
       sockets := sockets s;
       redis := redis s |}
  | None => s
  end.

(** The [close] handler of the route. *)
Definition close (ws : nat) (s : LocationServer) : LocationServer :=
  let s1 :=
    with_sockets (<[ws := {| username := username (socket s ws);
                             is_open := false |}]> (sockets s)) s in
  match username (socket s ws) with
  | Some uname => handleUserDisconnect uname s1
  | None => s1
  end.

(** [handleUserDisconnectRequest(ws, data)]; [ws.close()] runs the [close]
    handler. *)
Definition handleUserDisconnectRequest (ws : nat) (dname : JsVal)
    (s : LocationServer) : LocationServer * list (nat * Frame) :=
  if negb (truthy dname) then (s, sendError s ws INVALID_DISCONNECT)
  else
    match dname, username (socket s ws) with
    | JStr n, Some bound =>
      if decide (bound = n)
      then (close ws (handleUserDisconnect n s), [])
      else (s, sendError s ws UNAUTHORIZED_DISCONNECT)
    | _, _ => (s, sendError s ws UNAUTHORIZED_DISCONNECT)
    end.

(** [sendUsersList(ws)] up to [await
    this.redis.getAllUsersWithLocations()].  The body of its [try] is a
    value of the client monad; the [catch] is the second branch. *)
Definition sendUsersList_begin (ws : nat) (s : LocationServer) : Begun :=
  let tried : Redis.Outcome Begun :=
    let '(allUsers, r) := getAllUsersWithLocations (redis s) in
    Redis.Ok (with_redis r s, ([], Some (after_getAllUsersWithLocations ws allUsers))) in
  match tried with
  | Redis.Ok begun => begun
  | Redis.Thrown =>
    let usersList := JsMap.values (users s) in
    (s, (sendMessage s ws (users_list usersList), None))
  end.

(** [sendUsersList(ws)] with no other event handled while it waits. *)
Definition sendUsersList (ws : nat) (s : LocationServer)
  : LocationServer * list (nat * Frame) :=
  uninterrupted (sendUsersList_begin ws s).

(** [data.startTime ? new Date(data.startTime).getTime() : null] *)
Definition time_bound (v : JsVal) : option Z :=
  if truthy v then Date_getTime v else None.

(** [handleLocationHistoryRequest(ws, data)] up to [await
    this.redis.getUserLocationHistory(...)] *)
Definition handleLocationHistoryRequest_begin (ws : nat)
    (uname startTime endTime : JsVal) (s : LocationServer) : Begun :=
  if negb (truthy uname) then (s, (sendError s ws MISSING_USERNAME, None))
  else
    let tried : Redis.Outcome Begun :=
      let '(history, r) :=
        getUserLocationHistory (as_string uname)
                               (time_bound startTime) (time_bound endTime) (redis s) in
      Redis.Ok (with_redis r s,
                ([], Some (after_getUserLocationHistory ws (as_string uname) history))) in
    match tried with
    | Redis.Ok begun => begun
    | Redis.Thrown => (s, (sendError s ws HISTORY_ERROR, None))
    end.

(** [handleLocationHistoryRequest(ws, data)] with no other event handled
    while it waits. *)
Definition handleLocationHistoryRequest (ws : nat) (uname startTime endTime : JsVal)
    (s : LocationServer) : LocationServer * list (nat * Frame) :=
  uninterrupted (handleLocationHistoryRequest_begin ws uname startTime endTime s).

(** [handleMessage(ws, message)] on a decoded value that is not [null],
    with no other event handled while a handler waits. *)
Definition handleMessage (now : Z) (ws : nat) (message : Message)
    (s : LocationServer) : LocationServer * list (nat * Frame) :=
  match message with
  | missing_type_or_data => (s, sendError s ws INVALID_MESSAGE)
  | location_update data => handleLocationUpdate now ws data s
  | user_disconnect dname => handleUserDisconnectRequest ws dname s
  | get_users => sendUsersList ws s
  | get_location_history uname startTime endTime =>
    handleLocationHistoryRequest ws uname startTime endTime s
  | unknown_type => (s, sendError s ws UNKNOWN_MESSAGE_TYPE)
  end.

(** The same up to the [await] of the handler it calls. *)
Definition handleMessage_begin (now : Z) (ws : nat) (message : Message)
    (s : LocationServer) : Begun :=
  match message with
  | missing_type_or_data => (s, (sendError s ws INVALID_MESSAGE, None))
  | location_update data => handleLocationUpdate_begin now ws data s
  | user_disconnect dname =>
    let '(s', sent) := handleUserDisconnectRequest ws dname s in (s', (sent, None))
  | get_users => sendUsersList_begin ws s
  | get_location_history uname startTime endTime =>
    handleLocationHistoryRequest_begin ws uname startTime endTime s
  | unknown_type => (s, (sendError s ws UNKNOWN_MESSAGE_TYPE, None))
  end.

(** The [message] handler of the route: [JSON.parse], then
    [handleMessage], and [INVALID_JSON] for whatever the two throw. *)
Definition message (now : Z) (ws : nat) (parsed : Parsed) (s : LocationServer)
  : LocationServer * list (nat * Frame) :=
  match parsed with
  | not_json | json_null => (s, sendError s ws INVALID_JSON)
  | envelope m => handleMessage now ws m s
  end.

Definition message_begin (now : Z) (ws : nat) (parsed : Parsed) (s : LocationServer)
  : Begun :=
  match parsed with
  | not_json | json_null => (s, (sendError s ws INVALID_JSON, None))
  | envelope m => handleMessage_begin now ws m s
  end.

(** The [open] handler of the route, with no other event handled while
    [sendUsersList] waits. *)
Definition open (ws : nat) (s : LocationServer)
  : LocationServer * list (nat * Frame) :=
  let s1 := with_sockets (<[ws := {| username := None; is_open := true |}]> (sockets s)) s in
  let '(s2, sent) := sendUsersList ws s1 in
  (s2, sendMessage s1 ws connected ++ sent).

Definition open_begin (ws : nat) (s : LocationServer) : Begun :=
  let s1 := with_sockets (<[ws := {| username := None; is_open := true |}]> (sockets s)) s in
  let '(s2, (sent, waits)) := sendUsersList_begin ws s1 in
  (s2, (sendMessage s1 ws connected ++ sent, waits)).

(** [loadUsersFromRedis()] *)
Definition loadUsersFromRedis (s : LocationServer) : LocationServer :=
  let '(loaded, r) := getAllUsersWithLocations (redis s) in
  {| users := foldl (fun m user => JsMap.set (u_name user) user m) (users s) loaded;
     connections := connections s;
     userRateLimit := userRateLimit s;
     sockets := sockets s;
     redis := r |}.

(** [now - new Date(user.lastUpdate).getTime() > userTimeout] *)
Definition is_stale (now : Z) (user : User) : bool :=
  match Date_getTime (u_lastUpdate user) with
  | Some lastUpdate => now - lastUpdate >? Config.userTimeout
  | None => false
  end.

(** The body of the cleanup timer. *)
Definition cleanup (now : Z) (s : LocationServer) : LocationServer :=
  let staleUsers :=
    (filter (λ kv : string * User, is_stale now kv.2 = true) (users s)).*1 in
  let s1 := foldl (fun acc uname => handleUserDisconnect uname acc) s staleUsers in
  with_redis (cleanupOldEntries now (redis s1)) s1.

(** What the [/health] route reports. *)
Definition health_connectedUsers (s : LocationServer) : Z := JsMap.size (users s).
Definition health_redis_connected (s : LocationServer) : bool :=
  getConnectionStatus (redis s).

(** *** Runs of the server *)

Inductive Event :=
| Opened (ws : nat)
| Received (ws : nat) (parsed : Parsed)
| Closed (ws : nat)
| Tick.

(** An event handled with no other event handled before its handler has
    ended. *)
Definition step (now : Z) (e : Event) (s : LocationServer)
  : LocationServer * list (nat * Frame) :=
  match e with
  | Opened ws => open ws s
  | Received ws parsed => message now ws parsed s
  | Closed ws => (close ws s, [])
  | Tick => (cleanup now s, [])
  end.

(** An event handled up to the [await] of its handler. *)
Definition step_begin (now : Z) (e : Event) (s : LocationServer) : Begun :=
  match e with
  | Opened ws => open_begin ws s
  | Received ws parsed => message_begin now ws parsed s
  | Closed ws => (close ws s, ([], None))
  | Tick => (cleanup now s, ([], None))
  end.

(** The events of a run carry the clock reading at which they are handled. *)
Fixpoint run (trace : list (Z * Event)) (s : LocationServer)
  : LocationServer * list (nat * Frame) :=
  match trace with
  | [] => (s, [])
  | (now, e) :: trace' =>
    let '(s1, sent1) := step now e s in
    let '(s2, sent2) := run trace' s1 in
    (s2, sent1 ++ sent2)
  end.

(** *** Handlers that wait for the store

    While a handler waits for the store the server handles other events;
    when the store answers, the handler goes on with the state as it is
    then.  [waiting] holds the handlers that wait, in the order in which
    they began. *)

Record Async := {
  server : LocationServer;
  waiting : list Awaited
}.

Inductive Occurrence :=
| Arrives (now : Z) (e : Event)
| Answered (i : nat).

Definition occur (o : Occurrence) (a : Async) : Async * list (nat * Frame) :=
  match o with
  | Arrives now e =>
    let '(s', (sent, waits)) := step_begin now e (server a) in
    ({| server := s'; waiting := waiting a ++ option_list waits |}, sent)
  | Answered i =>
    match waiting a !! i with
    | Some w =>
      ({| server := server a; waiting := delete i (waiting a) |}, resume w (server a))
    | None => (a, [])
    end
  end.

Fixpoint occurs (os : list Occurrence) (a : Async) : Async * list (nat * Frame) :=
  match os with
  | [] => (a, [])
  | o :: os' =>
    let '(a1, sent1) := occur o a in
    let '(a2, sent2) := occurs os' a1 in
    (a2, sent1 ++ sent2)
  end.

End LocationServer.

(** The state of a server just constructed, before [initializeRedis]. *)
Definition initial (r : RedisService) : LocationServer :=
  {| users := []; connections := []; userRateLimit := []; sockets := ∅; redis := r |}.

(** ** A host for running the model

    Examples need the built-ins to be something.  This host reads a date
    from a decimal count of milliseconds, and writes a location entry as
    [latitude|longitude|name|lastUpdate] with whole-number coordinates. *)

Module Host.

Fixpoint read_digits (s : string) (acc : Z) : option Z :=
  match s with
  | EmptyString => Some acc
  | String c s' =>
    match Ascii.is_nat c with
    | Some d => read_digits s' (10 * acc + Z.of_nat d)
    | None => None
    end
  end.

Definition read_Z (s : string) : option Z :=
  match s with
  | EmptyString => None
  | String "-"%char s' => Z.opp <$> read_digits s' 0
  | _ => read_digits s 0
  end.

Definition trunc (x : spec_float) : option Z :=
  match x with
  | S754_zero _ => Some 0
  | S754_finite sign m e =>
    Some ((if sign then -1 else 1) * Z.shiftl (Z.pos m) e)
  | _ => None
  end.

Definition write_num (v : JsVal) : string :=
  match v with
  | JNum x => match trunc x with Some z => pretty z | None => "null" end
  | _ => "null"
  end.

Definition read_num (s : string) : JsVal :=
  match read_Z s with
  | Some z => JNum (double z 0)
  | None => JNull
  end.

Definition write_text (v : JsVal) : string :=
  match v with
  | JStr s => s
  | JNum x => write_num v
  | _ => ""
  end.

Fixpoint split_bar (s cur : string) : list string :=
  match s with
  | EmptyString => [String.rev cur]
  | String "|"%char s' => String.rev cur :: split_bar s' EmptyString
  | String c s' => split_bar s' (String c cur)
  end.

Definition stringify (u : User) : string :=
  write_num (u_latitude u) +:+ "|" +:+ write_num (u_longitude u) +:+ "|"
    +:+ u_name u +:+ "|" +:+ write_text (u_lastUpdate u).

Definition parse (s : string) : User :=
  match split_bar s EmptyString with
  | [lat; lon; n; t] =>
    {| u_name := n; u_latitude := read_num lat; u_longitude := read_num lon;
       u_lastUpdate := JStr t; u_connected := None |}
  | _ =>
    {| u_name := s; u_latitude := JUndefined; u_longitude := JUndefined;
       u_lastUpdate := JUndefined; u_connected := None |}
  end.

Definition getTime (v : JsVal) : option Z :=
  match v with
  | JStr s => read_Z s
  | JNum x => trunc x
  | JBool b => Some (if b then 1 else 0)
  | JNull => Some 0
  | _ => None
  end.

#[export] Instance runtime : Runtime := {|
  Date_getTime := getTime;
  toISOString := pretty;
  JSON_stringify := stringify;
  JSON_parse := parse;
  ToString := write_text;
  clientArg := fun v => match v with JNum _ => Some (write_num v) | _ => None end
|}.

(** A store that is reachable and empty. *)
Definition empty_db : Redis.Db :=
  {| Redis.keyspace := ∅; Redis.expiry := ∅; Redis.link := None |}.

Definition up : RedisService := {| isConnected := true; client := empty_db |}.

(** The persistence layer out of reach: the service has seen the
    connection end. *)
Definition down : RedisService := {| isConnected := false; client := empty_db |}.

End Host.

(** ** Vocabulary of the properties

    The notions the statements below are written in: what the rules of the
    validator turn down, what it means for an update to be accepted, and
    what the store holds for a user. *)

Section Vocabulary.
Context `{Runtime}.


Definition name_accepted (v : JsVal) : Prop :=
  ∃ s, v = JStr s ∧ s ≠ "" ∧ str_length s ≤ 50.


Definition coordinate_accepted (lo hi : Z) (v : JsVal) : Prop :=
  ∃ x, v = JNum x
       ∧ num_lt x (double lo 0) = false ∧ num_gt x (double hi 0) = false.

(** A [lastUpdate] that reads as a time more than 30 seconds before
    [now]. *)
Definition too_old (now : Z) (v : JsVal) : Prop :=
  ∃ t, Date_getTime v = Some t ∧ now - t > 30000.

(** A coordinate that is a number from [lo] to [hi]. *)
Definition in_range (lo hi : Z) (v : JsVal) : Prop :=
  ∃ x, v = JNum x
       ∧ num_le (double lo 0) x = true ∧ num_le x (double hi 0) = true.

(** The three guards of [handleLocationUpdate], in the order they are
    tried: the code of the error an update is turned down with, or [None]
    for an update that is taken. *)
Definition verdict (now : Z) (data : UpdateData) (s : LocationServer)
  : option ErrorCode :=
  match validateLocationData now data with
  | Invalid code => Some code
  | Valid =>
    if isRateLimited now (as_string (name data)) s then Some RATE_LIMITED
    else if negb (JsMap.has (as_string (name data)) (users s))
            && (JsMap.size (users s) >=? Config.maxUsers)
    then Some USER_LIMIT_EXCEEDED
    else None
  end.

(** [userData] of an update that is taken. *)
Definition userData_of (now : Z) (data : UpdateData) : User :=
  {| u_name := as_string (name data);
     u_latitude := latitude data;
     u_longitude := longitude data;
     u_lastUpdate := or_else (lastUpdate data) (JStr (toISOString now));
     u_connected := None |}.

(** A [location_update] the handler takes: it passes the three guards
    and goes on to the store with the user object of the update. *)
Definition takes (now : Z) (ws : nat) (data : UpdateData) (s : LocationServer)
  : Prop :=
  (handleLocationUpdate_begin now ws data s).2.2
  = Some (after_storeUserLocation (as_string (name data)) (userData_of now data)).

(** The rate-limit map has an entry for [uname] after every event of the
    trace: no event in it removes this user. *)
Fixpoint entry_kept (uname : string) (trace : list (Z * Event)) (s : LocationServer)
  : bool :=
  match trace with
  | [] => true
  | (now, e) :: trace' =>
    JsMap.has uname (userRateLimit (step now e s).1)
    && entry_kept uname trace' (step now e s).1
  end.

(** The usernames bound to a live connection, each once. *)
Definition connectedUsernames (s : LocationServer) : list string :=
  remove_dups
    (omap (λ sock : Socket, if is_open sock then username sock else None)
          (map_to_list (sockets s)).*2).

(** Scores never decrease along a sorted set. *)
Definition by_score (x y : Z * string) : Prop := x.1 ≤ y.1.

(** The entry [storeUserLocation] writes for [locationData] at [now]. *)
Definition locationEntry (now : Z) (locationData : User) : string :=
  JSON_stringify
    {| u_latitude := u_latitude locationData;
       u_longitude := u_longitude locationData;
       u_name := u_name locationData;
       u_lastUpdate := or_else (u_lastUpdate locationData) (JStr (toISOString now));
       u_connected := None |}.

(** The sorted set a key holds; a key that holds none reads as empty. *)
Definition zset_at (db : Redis.Db) (key : string) : list (Z * string) :=
  match Redis.keyspace db !! key with
  | Some (Redis.VZSet z) => z
  | _ => []
  end.

(** The stored location records of a user. *)
Definition stored (r : RedisService) (uname : string) : list (Z * string) :=
  zset_at (client r) (locationKey uname).

(** The service believes it is connected, and the connection stays up. *)
Definition healthy (r : RedisService) : Prop :=
  isConnected r = true ∧ Redis.link (client r) = None.

(** A client computation keeps a property of the store, whether it returns
    or throws. *)
Definition preserves {A} (P : Redis.Db → Prop) (c : Redis.Client A) : Prop :=
  ∀ db, P db → P (c db).2.

(** What a command keeps: the value under a key it does not write, and a
    connection that stays up. *)
Definition holds (key : string) (v : Redis.Value) (db : Redis.Db) : Prop :=
  Redis.keyspace db !! key = Some v.

Definition stays_up (db : Redis.Db) : Prop := Redis.link db = None.

(** A run of appends for one user, each with its clock reading. *)
Definition append_all (uname : string) (appends : list (Z * User))
    (r : RedisService) : RedisService :=
  foldl (λ r a, (storeUserLocation a.1 uname a.2 r).2) r appends.

(** The entries these appends write, with their scores. *)
Definition scored_entries (appends : list (Z * User)) : list (Z * string) :=
  (λ a, (a.1, locationEntry a.1 a.2)) <$> appends.

End Vocabulary.

(** ** Scenarios on the host of the examples *)

Module Scenario.
Import Host.

(** A stored user object with whole-number coordinates, updated at [t]. *)
Definition user (n : string) (lat lon t : Z) : User :=
  {| u_name := n; u_latitude := JNum (double lat 0);
     u_longitude := JNum (double lon 0);
     u_lastUpdate := JStr (pretty t); u_connected := None |}.

(** The [data] of an update without [lastUpdate]. *)
Definition data (n : string) (lat lon : Z) : UpdateData :=
  {| name := JStr n; latitude := JNum (double lat 0);
     longitude := JNum (double lon 0); lastUpdate := JUndefined |}.

(** 150 appends for alice, one a second. *)
Definition appends150 : list (Z * User) :=
  (λ i : nat, (1000 * (Z.of_nat i + 1),
               user "alice" (Z.of_nat i mod 90) 7 (1000 * (Z.of_nat i + 1))))
    <$> seq 0 150.

(** Two records for alice: latitude 37 stored at 1000, latitude 38 stored
    at 3500. *)
Definition alice_twice : RedisService :=
  append_all "alice" [(1000, user "alice" 37 (-122) 1000);
                      (3500, user "alice" 38 (-122) 3500)] up.

(** A store that holds one record for each of [n] users. *)
Definition persisted (n : nat) : RedisService :=
  foldl (λ r (i : nat),
           (storeUserLocation 1000 ("u" +:+ pretty i)
                              (user ("u" +:+ pretty i) 1 2 1000) r).2)
        up (seq 0 n).

(** A server started on that store, with one connection opened since. *)
Definition restarted : LocationServer :=
  (open 1 (loadUsersFromRedis (initial (persisted 100)))).1.

(** Bob on connection 1 with an update taken, connection 2 just opened. *)
Definition initial_bob_listening (r : RedisService) : LocationServer :=
  (run [(1000, Opened 1%nat); (1000, Received 1%nat (location_update (data "bob" 10 20)));
        (2000, Opened 2%nat)] (initial r)).1.

(** The same with the store out of reach. *)
Definition degraded : LocationServer := initial_bob_listening down.

(** Alice on connection 1, with a first update taken at 1000. *)
Definition alice_online : LocationServer :=
  (run [(1000, Opened 1%nat);
        (1000, Received 1%nat (location_update (data "alice" 37 (-122))))]
       (initial up)).1.

(** Alice has disconnected at 1100 and a second connection has opened. *)
Definition alice_back : LocationServer :=
  (run [(1100, Received 1%nat (user_disconnect (JStr "alice")));
        (1200, Opened 2%nat)] alice_online).1.

End Scenario.

(** ** Vocabulary of the further properties *)

Section Registry.
Context `{Runtime}.

(** What the three maps of the server keep between them: no username
    twice, a rate-limit entry exactly for the usernames with a connection
    entry, a presence entry for each of those, and every user object filed
    under its own name. *)
Definition consistent (s : LocationServer) : Prop :=
  NoDup (JsMap.keys (users s))
  ∧ NoDup (JsMap.keys (connections s))
  ∧ JsMap.keys (userRateLimit s) = JsMap.keys (connections s)
  ∧ JsMap.keys (connections s) ⊆ JsMap.keys (users s)
  ∧ Forall (λ kv : string * User, u_name kv.2 = kv.1) (users s).

(** Two states with the same maps and the same connection objects; only
    the store may differ. *)
Definition same_memory (s s' : LocationServer) : Prop :=
  users s' = users s
  ∧ connections s' = connections s
  ∧ userRateLimit s' = userRateLimit s
  ∧ sockets s' = sockets s.

(** The messages that are answered from the store or turned down at once:
    all but [location_update] and [user_disconnect]. *)
Definition query (m : Message) : bool :=
  match m with
  | location_update _ | user_disconnect _ => false
  | _ => true
  end.


(** What [ZREMRANGEBYSCORE key 0 cutoff] leaves of the value of a key. *)
Definition purge (cutoff : Z) (v : option Redis.Value) : option Redis.Value :=
  match v with
  | Some (Redis.VZSet z) =>
    match filter (λ x : Z * string, ¬ (0 ≤ x.1 ≤ cutoff)) z with
    | [] => None
    | z' => Some (Redis.VZSet z')
    end
  | other => other
  end.

(** The keys [cleanupOldEntries] and [getAllUsersWithLocations] walk all
    hold sorted sets. *)
Definition location_keys_are_sets (r : RedisService) : Prop :=
  ∀ k h, String.prefix (Config.keyPrefix +:+ "locations:") k = true →
         Redis.keyspace (client r) !! k ≠ Some (Redis.VHash h).

(** A computation that leaves keys, values and expiries as they are. *)
Definition unwritten (db db' : Redis.Db) : Prop :=
  Redis.keyspace db' = Redis.keyspace db ∧ Redis.expiry db' = Redis.expiry db.

(** A call that leaves the service as connected as it was and the store
    unwritten. *)
Definition untouched (r r' : RedisService) : Prop :=
  isConnected r' = isConnected r ∧ unwritten (client r) (client r').

(** The events that are handled from the three maps alone: a
    [location_update], a [user_disconnect], text that [JSON.parse] or
    [handleMessage] throws on, the closing of a connection and the cleanup
    timer. *)
Definition memory_only (e : Event) : bool :=
  match e with
  | Opened _ => false
  | Received _ (envelope m) => negb (query m)
  | Received _ _ => true
  | Closed _ => true
  | Tick => true
  end.

(** The usernames the cleanup timer collects at [now]. *)
Definition staleUsers (now : Z) (s : LocationServer) : list string :=
  (filter (λ kv : string * User, is_stale now kv.2 = true) (users s)).*1.

(** No key the pattern [location_share:locations:*] matches holds a hash. *)
Definition location_sets (db : Redis.Db) : Prop :=
  ∀ k h, String.prefix (Config.keyPrefix +:+ "locations:") k = true →
         Redis.keyspace db !! k ≠ Some (Redis.VHash h).

(** The [lastUpdate] both [handleLocationUpdate] and [storeUserLocation]
    write for a user object. *)
Definition lastUpdate_written (now : Z) (locationData : User) : JsVal :=
  or_else (u_lastUpdate locationData) (JStr (toISOString now)).

(** The events that remove [uname]: a [user_disconnect] that names it on
    the connection bound to it, the closing of a connection bound to it,
    and a cleanup that finds it stale. *)
Definition removes (uname : string) (now : Z) (e : Event) (s : LocationServer)
  : Prop :=
  match e with
  | Received ws (envelope (user_disconnect dname)) =>
    dname = JStr uname ∧ username (socket s ws) = Some uname
  | Closed ws => username (socket s ws) = Some uname
  | Tick => uname ∈ staleUsers now s
  | _ => False
  end.

(** The events among a list of occurrences, in order. *)
Definition arrivals (os : list Occurrence) : list (Z * Event) :=
  omap (λ o, match o with
             | Arrives now e => Some (now, e)
             | Answered _ => None
             end) os.

End Registry.

(** * Properties *)

(** ** The validator *)

Section ValidatorFacts.
Context `{Runtime}.

Lemma name_accepted_truthy s : s ≠ "" → truthy (JStr s) = true.
Proof. by destruct s. Qed.

Lemma str_length_nonempty s : s ≠ "" → (str_length s =? 0) = false.
Proof. destruct s; [done|]. intros _. unfold str_length. simpl. lia. Qed.

Lemma validate_name_accepted now data s :
  name data = JStr s → s ≠ "" → str_length s ≤ 50 →
  validateLocationData now data =
  match latitude data with
  | JNum lat =>
    if num_lt lat (double (-90) 0) || num_gt lat (double 90 0)
    then Invalid INVALID_LOCATION
    else
      match longitude data with
      | JNum lon =>
        if num_lt lon (double (-180) 0) || num_gt lon (double 180 0)
        then Invalid INVALID_LOCATION
        else if truthy (lastUpdate data) then
          match Date_getTime (lastUpdate data) with
          | Some updateTime =>
            if now - updateTime >? Config.userTimeout
            then Invalid STALE_LOCATION else Valid
          | None => Valid
          end
        else Valid
      | _ => Invalid INVALID_LOCATION
      end
  | _ => Invalid INVALID_LOCATION
  end.
Proof.
  intros Hn Hs Hl. unfold validateLocationData. rewrite Hn.
  rewrite (name_accepted_truthy s Hs), (str_length_nonempty s Hs). simpl.
  replace (str_length s >? Config.maxNameLength) with false; [done|].
  unfold Config.maxNameLength. lia.
Qed.

(** A valid update names its user by a string within the length bound. *)
Lemma validate_Valid_name now data :
  validateLocationData now data = Valid →
  ∃ s, name data = JStr s ∧ s ≠ "" ∧ str_length s ≤ 50.
Proof.
  unfold validateLocationData. destruct (name data) as [| |b|x|s|]; try done.
  destruct s as [|c s]; [done|]. simpl.
  destruct (str_length (String c s) >? Config.maxNameLength) eqn:E; [done|].
  intros _. exists (String c s). split_and!; [done..|].
  unfold Config.maxNameLength in E. lia.
Qed.


End ValidatorFacts.

(** ** Maps in insertion order *)

Section JsMapFacts.
Context {V : Type}.
Implicit Types (m : list (string * V)) (k : string) (v : V).

Lemma get_set_eq k v m : JsMap.get k (JsMap.set k v m) = Some v.
Proof.
  induction m as [|[k' v'] m IH]; simpl.
  - by rewrite decide_True.
  - destruct (decide (k' = k)) as [->|Hne]; simpl.
    + by rewrite decide_True.
    + by rewrite decide_False.
Qed.

Lemma get_set_ne k k' v m :
  k ≠ k' → JsMap.get k' (JsMap.set k v m) = JsMap.get k' m.
Proof.
  intros Hne. induction m as [|[k0 v0] m IH]; simpl.
  - by rewrite decide_False.
  - destruct (decide (k0 = k)) as [->|Hk]; simpl.
    + by rewrite !decide_False.
    + destruct (decide (k0 = k')); [done|apply IH].
Qed.

Lemma get_delete_eq k m : JsMap.get k (JsMap.delete k m) = None.
Proof.
  unfold JsMap.delete. induction m as [|[k0 v0] m IH]; [done|].
  rewrite filter_cons. simpl. destruct (decide (k0 ≠ k)) as [Hk|Hk]; simpl.
  - by rewrite decide_False.
  - done.
Qed.

Lemma get_delete_ne k k' m :
  k ≠ k' → JsMap.get k' (JsMap.delete k m) = JsMap.get k' m.
Proof.
  intros Hne. unfold JsMap.delete. induction m as [|[k0 v0] m IH]; [done|].
  rewrite filter_cons. simpl. destruct (decide (k0 ≠ k)) as [Hk|Hk]; simpl.
  - by rewrite IH.
  - apply dec_stable in Hk as ->. by rewrite decide_False.
Qed.

Lemma has_set k v m : JsMap.has k (JsMap.set k v m) = true.
Proof. unfold JsMap.has. by rewrite get_set_eq. Qed.

Lemma size_set_new k v m :
  JsMap.has k m = false → JsMap.size (JsMap.set k v m) = JsMap.size m + 1.
Proof.
  unfold JsMap.has, JsMap.size. induction m as [|[k0 v0] m IH]; simpl; [done|].
  destruct (decide (k0 = k)); [done|]. simpl. intros Hm.
  specialize (IH Hm). lia.
Qed.

Lemma size_set_old k v m :
  JsMap.has k m = true → JsMap.size (JsMap.set k v m) = JsMap.size m.
Proof.
  unfold JsMap.has, JsMap.size. induction m as [|[k0 v0] m IH]; simpl; [done|].
  destruct (decide (k0 = k)); [done|]. simpl. intros Hm.
  specialize (IH Hm). lia.
Qed.

(** The keys of a map are pairwise distinct, and stay so. *)
Lemma keys_set k v m :
  JsMap.keys (JsMap.set k v m) =
  if JsMap.has k m then JsMap.keys m else JsMap.keys m ++ [k].
Proof.
  unfold JsMap.keys, JsMap.has. induction m as [|[k0 v0] m IH]; [done|].
  cbn [JsMap.set JsMap.get].
  destruct (decide (k0 = k)) as [->|Hk]; [done|].
  rewrite !fmap_cons, IH. by destruct (JsMap.get k m).
Qed.

Lemma has_elem_of_keys k m : JsMap.has k m = true ↔ k ∈ JsMap.keys m.
Proof.
  unfold JsMap.keys, JsMap.has. induction m as [|[k0 v0] m IH]; simpl.
  - split; [done|]. by intros ?%elem_of_nil.
  - rewrite elem_of_cons. destruct (decide (k0 = k)) as [->|Hk].
    + split; [by left|done].
    + rewrite IH. split; [by right|]. by intros [->|?].
Qed.

Lemma NoDup_keys_set k v m :
  NoDup (JsMap.keys m) → NoDup (JsMap.keys (JsMap.set k v m)).
Proof.
  intros Hm. rewrite keys_set. destruct (JsMap.has k m) eqn:Hk; [done|].
  apply NoDup_app. split_and!; [done| |apply NoDup_singleton].
  intros x Hx ->%list_elem_of_singleton.
  apply has_elem_of_keys in Hx. congruence.
Qed.

End JsMapFacts.

(** ** Accepting and rejecting a location update *)

Section UpdateFacts.
Context `{Runtime}.

Lemma handleLocationUpdate_rejected now ws data s code :
  verdict now data s = Some code →
  handleLocationUpdate now ws data s = (s, sendError s ws code).
Proof.
  unfold verdict, handleLocationUpdate, uninterrupted, handleLocationUpdate_begin.
  destruct (validateLocationData now data); [|by intros [= ->]].
  destruct (isRateLimited _ _ _); [by intros [= <-]|].
  destruct (negb _ && _); [by intros [= <-]|done].
Qed.

Lemma verdict_codes now data s code :
  verdict now data s = Some code →
  code ∈ [INVALID_NAME; INVALID_LOCATION; STALE_LOCATION;
          RATE_LIMITED; USER_LIMIT_EXCEEDED].
Proof.
  unfold verdict, validateLocationData.
  repeat (case_match; try (intros [= <-]; set_solver); try done).
Qed.

Section Accepted.
Variables (now : Z) (ws : nat) (data : UpdateData) (s : LocationServer).
Hypothesis Hok : verdict now data s = None.

Lemma accepted_unfold :
  handleLocationUpdate now ws data s =
  let uname := as_string (name data) in
  let s1 :=
    {| userRateLimit := JsMap.set uname now (userRateLimit s);
       users := JsMap.set uname (userData_of now data) (users s);
       connections := JsMap.set uname ws (connections s);
       sockets := <[ws := {| username := Some uname;
                             is_open := is_open (socket s ws) |}]> (sockets s);
       redis := redis s |} in
  let s2 :=
    with_redis (storeUserLocation now uname (userData_of now data) (redis s1)).2 s1 in
  (s2, broadcastToOthers s2 uname (user_location (userData_of now data))).
Proof.
  revert Hok. unfold verdict, handleLocationUpdate, uninterrupted, handleLocationUpdate_begin.
  destruct (validateLocationData now data); [|done].
  destruct (isRateLimited _ _ _); [done|].
  by destruct (negb _ && _).
Qed.

Lemma accepted_users :
  users (handleLocationUpdate now ws data s).1 =
  JsMap.set (as_string (name data)) (userData_of now data) (users s).
Proof. by rewrite accepted_unfold. Qed.

Lemma accepted_connections :
  connections (handleLocationUpdate now ws data s).1 =
  JsMap.set (as_string (name data)) ws (connections s).
Proof. by rewrite accepted_unfold. Qed.

Lemma accepted_userRateLimit :
  userRateLimit (handleLocationUpdate now ws data s).1 =
  JsMap.set (as_string (name data)) now (userRateLimit s).
Proof. by rewrite accepted_unfold. Qed.

Lemma accepted_sockets :
  sockets (handleLocationUpdate now ws data s).1 =
  <[ws := {| username := Some (as_string (name data));
             is_open := is_open (socket s ws) |}]> (sockets s).
Proof. by rewrite accepted_unfold. Qed.

Lemma accepted_redis :
  redis (handleLocationUpdate now ws data s).1 =
  (storeUserLocation now (as_string (name data)) (userData_of now data) (redis s)).2.
Proof. by rewrite accepted_unfold. Qed.

Lemma accepted_username :
  username (socket (handleLocationUpdate now ws data s).1 ws) =
  Some (as_string (name data)).
Proof. unfold socket. by rewrite accepted_sockets, lookup_insert_eq. Qed.

Lemma accepted_sent :
  (handleLocationUpdate now ws data s).2 =
  broadcastToOthers (handleLocationUpdate now ws data s).1 (as_string (name data))
                    (user_location (userData_of now data)).
Proof. by rewrite accepted_unfold. Qed.
End Accepted.

(** Every frame a broadcast sends is the broadcast message. *)
Lemma broadcastToOthers_frames s excl message ws f :
  (ws, f) ∈ broadcastToOthers s excl message → f = message.
Proof.
  unfold broadcastToOthers. rewrite list_elem_of_In, in_flat_map.
  intros ([k c] & _ & Hin). simpl in Hin.
  destruct (decide (k ≠ excl)); [|done].
  unfold sendMessage in Hin. destruct (is_open _); [|done].
  destruct Hin as [[= _ <-]|[]]. done.
Qed.

End UpdateFacts.

(** ** Rejections, bindings and NaN *)

Section DispatchFacts.
Context `{Runtime}.

Lemma sendError_open s ws code :
  is_open (socket s ws) = true → sendError s ws code = [(ws, error code)].
Proof. unfold sendError, sendMessage. by intros ->. Qed.

Lemma sendError_frames s ws code ws' f :
  (ws', f) ∈ sendError s ws code → ws' = ws ∧ f = error code.
Proof.
  unfold sendError, sendMessage. destruct (is_open _).
  - by intros [= -> ->]%list_elem_of_singleton.
  - by intros ?%elem_of_nil.
Qed.

Lemma update_error_frame_rejected now ws data s ws' code :
  (ws', error code) ∈ (handleLocationUpdate now ws data s).2 →
  verdict now data s = Some code.
Proof.
  destruct (verdict now data s) as [c|] eqn:Hv.
  - rewrite (handleLocationUpdate_rejected _ _ _ _ _ Hv). simpl.
    by intros [_ [= ->]]%sendError_frames.
  - rewrite (accepted_sent _ _ _ _ Hv). by intros ?%broadcastToOthers_frames.
Qed.

Lemma handleLocationUpdate_other_binding now ws data s ws' :
  ws' ≠ ws →
  username (socket (handleLocationUpdate now ws data s).1 ws') =
  username (socket s ws').
Proof.
  intros Hne. destruct (verdict now data s) as [c|] eqn:Hv.
  - by rewrite (handleLocationUpdate_rejected _ _ _ _ _ Hv).
  - unfold socket. by rewrite (accepted_sockets _ _ _ _ Hv), lookup_insert_ne.
Qed.

Lemma handleUserDisconnect_sockets uname s :
  sockets (handleUserDisconnect uname s) = sockets s.
Proof. unfold handleUserDisconnect. by destruct (JsMap.get uname (users s)). Qed.

Lemma sendUsersList_sockets ws s : sockets (sendUsersList ws s).1 = sockets s.
Proof. unfold sendUsersList, uninterrupted, sendUsersList_begin.
  by destruct (getAllUsersWithLocations _). Qed.

Lemma history_sockets ws u st en s :
  sockets (handleLocationHistoryRequest ws u st en s).1 = sockets s.
Proof.
  unfold handleLocationHistoryRequest, uninterrupted, handleLocationHistoryRequest_begin.
  destruct (negb _); [done|].
  by destruct (getUserLocationHistory _ _ _ _).
Qed.

Lemma open_state ws s :
  (open ws s).1 =
  with_redis (getAllUsersWithLocations
                (redis (with_sockets
                          (<[ws := {| username := None; is_open := true |}]> (sockets s))
                          s))).2
             (with_sockets (<[ws := {| username := None; is_open := true |}]> (sockets s))
                           s).
Proof.
  unfold open, sendUsersList, uninterrupted, sendUsersList_begin. simpl.
  by destruct (getAllUsersWithLocations _).
Qed.

(** Closing a connection leaves every binding as it is. *)
Lemma close_binding ws s ws' :
  username (socket (close ws s) ws') = username (socket s ws').
Proof.
  unfold close.
  destruct (username (socket s ws)) as [uname|] eqn:Hbound; unfold socket in *;
    rewrite ?handleUserDisconnect_sockets; simpl.
  all: destruct (decide (ws = ws')) as [<-|Hne];
    [rewrite lookup_insert_eq; simpl; by rewrite Hbound
    |by rewrite lookup_insert_ne].
Qed.

Lemma cleanup_sockets now s : sockets (cleanup now s) = sockets s.
Proof.
  unfold cleanup. simpl.
  generalize ((filter (λ kv : string * User, is_stale now kv.2 = true) (users s)).*1).
  intros stale_users. revert s.
  induction stale_users as [|u l IH]; intros s; simpl; [done|].
  by rewrite IH, handleUserDisconnect_sockets.
Qed.

(** Only the opening of a connection and a [location_update] on it touch
    its binding. *)
Lemma step_keeps_binding now e s ws :
  e ≠ Opened ws → (∀ data, e ≠ Received ws (location_update data)) →
  username (socket (step now e s).1 ws) = username (socket s ws).
Proof.
  intros Hopen Hupdate. destruct e as [ws'|ws' [| |m]|ws'|]; try done.
  - assert (ws' ≠ ws) as Hne by congruence.
    cbn [step]. rewrite open_state. unfold socket. simpl.
    by rewrite lookup_insert_ne.
  - cbn [step message].
    destruct m as [data|d| |u st en| |]; cbn [handleMessage]; try done.
    + apply handleLocationUpdate_other_binding. intros ->. by eapply Hupdate.
    + unfold handleUserDisconnectRequest. destruct (negb (truthy d)); [done|].
      destruct d as [| | | |n|]; try done.
      destruct (username (socket s ws')) as [bound|]; [|done].
      destruct (decide (bound = n)); [|done]. simpl.
      rewrite close_binding. unfold socket.
      by rewrite handleUserDisconnect_sockets.
    + unfold socket. by rewrite sendUsersList_sockets.
    + unfold socket. by rewrite history_sockets.
  - apply close_binding.
  - simpl. unfold socket. by rewrite cleanup_sockets.
Qed.

(** C9: a [location_update] turned down by the validator, the rate limiter
    or the user limit, and a [user_disconnect] turned down as unauthorized,
    are answered with one error frame carrying that code, and the server
    state after the message is the state before it: presence map,
    connections map, rate-limit map, connection objects and the store. *)
Theorem C9_rejection_mutates_nothing
    (now : Z) (ws : nat) (data : UpdateData) (dname : JsVal) (s : LocationServer) :
  is_open (socket s ws) = true →
  (∀ code, validateLocationData now data = Invalid code →
     handleLocationUpdate now ws data s = (s, [(ws, error code)]))
  ∧ (validateLocationData now data = Valid →
     isRateLimited now (as_string (name data)) s = true →
     handleLocationUpdate now ws data s = (s, [(ws, error RATE_LIMITED)]))
  ∧ (validateLocationData now data = Valid →
     isRateLimited now (as_string (name data)) s = false →
     JsMap.has (as_string (name data)) (users s) = false →
     Config.maxUsers ≤ JsMap.size (users s) →
     handleLocationUpdate now ws data s = (s, [(ws, error USER_LIMIT_EXCEEDED)]))
  ∧ (∀ ws' code, (ws', error code) ∈ (handleLocationUpdate now ws data s).2 →
     handleLocationUpdate now ws data s = (s, [(ws, error code)])
     ∧ code ∈ [INVALID_NAME; INVALID_LOCATION; STALE_LOCATION;
               RATE_LIMITED; USER_LIMIT_EXCEEDED])
  ∧ (truthy dname = true →
     (∀ n, dname = JStr n → username (socket s ws) ≠ Some n) →
     handleUserDisconnectRequest ws dname s =
     (s, [(ws, error UNAUTHORIZED_DISCONNECT)]))
  ∧ (∀ ws', (ws', error UNAUTHORIZED_DISCONNECT)
            ∈ (handleUserDisconnectRequest ws dname s).2 →
     handleUserDisconnectRequest ws dname s =
     (s, [(ws, error UNAUTHORIZED_DISCONNECT)])).
Proof.
  intros Hopen. split_and!.
  - intros code Hv. rewrite <- (sendError_open s ws code Hopen).
    apply handleLocationUpdate_rejected. unfold verdict. by rewrite Hv.
  - intros Hv Hr. rewrite <- (sendError_open s ws _ Hopen).
    apply handleLocationUpdate_rejected. unfold verdict. by rewrite Hv, Hr.
  - intros Hv Hr Hnew Hfull. rewrite <- (sendError_open s ws _ Hopen).
    apply handleLocationUpdate_rejected. unfold verdict. rewrite Hv, Hr, Hnew.
    replace (JsMap.size (users s) >=? Config.maxUsers) with true; [done|]. lia.
  - intros ws' code Hin. apply update_error_frame_rejected in Hin as Hv. split.
    + rewrite <- (sendError_open s ws code Hopen).
      by apply handleLocationUpdate_rejected.
    + by eapply verdict_codes.
  - intros Ht Hne. unfold handleUserDisconnectRequest. rewrite Ht. simpl.
    rewrite (sendError_open s ws _ Hopen).
    destruct dname as [| | | |n|]; try done.
    destruct (username (socket s ws)) as [bound|] eqn:Hb; [|done].
    destruct (decide (bound = n)) as [->|]; [|done]. by destruct (Hne n).
  - intros ws'. unfold handleUserDisconnectRequest.
    destruct (negb (truthy dname)).
    { by intros [_ [=]]%sendError_frames. }
    rewrite (sendError_open s ws _ Hopen).
    destruct dname as [| | | |n|]; try done.
    destruct (username (socket s ws)) as [bound|]; [|done].
    destruct (decide (bound = n)); [|done]. by intros ?%elem_of_nil.
Qed.

(** C5, as the code has it: an accepted [location_update] binds the
    connection to the username of that update, whatever it was bound to
    before; a rejected one leaves the binding as it was; no other
    connection's binding is touched; and nothing else the server handles,
    short of the connection being opened, changes the binding. *)
Theorem C5_binding_follows_accepted_update
    (now : Z) (ws : nat) (data : UpdateData) (s : LocationServer) :
  let s' := (handleLocationUpdate now ws data s).1 in
  (verdict now data s = None →
     username (socket s' ws) = Some (as_string (name data)))
  ∧ (verdict now data s ≠ None →
     username (socket s' ws) = username (socket s ws))
  ∧ (∀ ws', ws' ≠ ws → username (socket s' ws') = username (socket s ws'))
  ∧ (∀ now' e,
       e ≠ Opened ws → (∀ data', e ≠ Received ws (location_update data')) →
       username (socket (step now' e s).1 ws) = username (socket s ws)).
Proof.
  cbv zeta. split_and!.
  - intros Hv. by apply accepted_username.
  - destruct (verdict now data s) as [c|] eqn:Hv; [|done]. intros _.
    by rewrite (handleLocationUpdate_rejected _ _ _ _ _ Hv).
  - intros ws' Hne. by apply handleLocationUpdate_other_binding.
  - intros now' e. apply step_keeps_binding.
Qed.

(** The order of the numbers: a comparison read the other way round. *)
Lemma SFcompare_antisym x y : SFcompare y x = CompOpp <$> SFcompare x y.
Proof.
  destruct x as [sx|sx| |sx mx ex], y as [sy|sy| |sy my ey]; simpl; try done.
  - by destruct sy.
  - by destruct sy.
  - by destruct sx.
  - by destruct sx, sy.
  - by destruct sx.
  - by destruct sx.
  - by destruct sy.
  - destruct sx, sy; try done.
    all: rewrite (Z.compare_antisym ex ey); destruct (ex ?= ey); simpl; try done.
    all: change (PosDef.Pos.compare_cont Eq my mx) with (my ?= mx)%positive.
    all: change (PosDef.Pos.compare_cont Eq mx my) with (mx ?= my)%positive.
    all: rewrite (Pos.compare_antisym mx my); by destruct (mx ?= my)%positive.
Qed.

(** A number that is not NaN and does not compare below [lo] or above
    [hi] lies from [lo] to [hi]. *)
Lemma SFcompare_None x y :
  SFcompare x y = None → x = S754_nan ∨ y = S754_nan.
Proof.
  destruct x as [sx|sx| |sx mx ex], y as [sy|sy| |sy my ey]; simpl; try done.
  all: auto.
Qed.

Lemma decodable_in_range lo hi x :
  double lo 0 ≠ S754_nan → double hi 0 ≠ S754_nan →
  decodable (JNum x) = true →
  num_lt x (double lo 0) = false → num_gt x (double hi 0) = false →
  in_range lo hi (JNum x).
Proof.
  intros Hlo_num Hhi_num Hx Hlo Hhi. exists x. split; [done|].
  assert (x ≠ S754_nan) as Hx_num by (by intros ->).
  unfold num_le, num_lt, num_gt, SFleb, SFltb in *.
  rewrite (SFcompare_antisym x (double lo 0)).
  rewrite (SFcompare_antisym x (double hi 0)) in Hhi.
  destruct (SFcompare x (double lo 0)) as [[| |]|] eqn:Elo; try done.
  all: destruct (SFcompare x (double hi 0)) as [[| |]|] eqn:Ehi; try done.
  all: try (apply SFcompare_None in Elo as [?|?]; done).
  all: apply SFcompare_None in Ehi as [?|?]; done.
Qed.

(** What the validator lets through is a name within the length bound and
    two numbers it has compared with their bounds. *)
Lemma validate_Valid_coordinates now data :
  validateLocationData now data = Valid →
  coordinate_accepted (-90) 90 (latitude data)
  ∧ coordinate_accepted (-180) 180 (longitude data).
Proof.
  intros Hv. destruct (validate_Valid_name now data Hv) as (n & Hn & Hne & Hl).
  rewrite (validate_name_accepted now data n Hn Hne Hl) in Hv.
  destruct (latitude data) as [| | |x| |]; try done.
  destruct (num_lt x _) eqn:Hx1; [done|].
  destruct (num_gt x _) eqn:Hx2; [done|]. simpl in Hv.
  destruct (longitude data) as [| | |y| |]; try done.
  destruct (num_lt y _) eqn:Hy1; [done|].
  destruct (num_gt y _) eqn:Hy2; [done|].
  split; eexists; split_and!; done.
Qed.

(** The handler takes an update exactly when the three guards let it
    through. *)
Lemma takes_verdict now ws data s :
  takes now ws data s ↔ verdict now data s = None.
Proof.
  unfold takes, verdict, handleLocationUpdate_begin.
  destruct (validateLocationData now data); [|done].
  destruct (isRateLimited _ _ _); [done|].
  by destruct (negb _ && _).
Qed.

Lemma takes_Valid now ws data s :
  takes now ws data s → validateLocationData now data = Valid.
Proof.
  unfold takes, handleLocationUpdate_begin.
  by destruct (validateLocationData now data).
Qed.

(** C10, as the code has it: no message carries NaN.  The validator by
    itself lets a latitude or a longitude that is NaN through when the
    other fields pass, since NaN is of type number and compares neither
    below nor above a bound.  But the data of a [location_update] comes
    out of [JSON.parse], which makes no NaN, and an infinite coordinate,
    which an overflowing literal gives, is turned down: so whatever the
    validator lets through of a decoded message, and whatever the handler
    takes, has a latitude from -90 to 90 and a longitude from -180 to
    180. *)
Theorem C10_no_NaN_at_the_interface
    (now : Z) (ws : nat) (data : UpdateData) (s : LocationServer) :
  (name_accepted (name data) →
   latitude data = JNum NaN →
   coordinate_accepted (-180) 180 (longitude data) →
   truthy (lastUpdate data) = false ∨ ¬ too_old now (lastUpdate data) →
   validateLocationData now data = Valid)
  ∧ (name_accepted (name data) →
     coordinate_accepted (-90) 90 (latitude data) →
     longitude data = JNum NaN →
     truthy (lastUpdate data) = false ∨ ¬ too_old now (lastUpdate data) →
     validateLocationData now data = Valid)
  ∧ (decodable (latitude data) = true → decodable (longitude data) = true →
     validateLocationData now data = Valid →
     in_range (-90) 90 (latitude data) ∧ in_range (-180) 180 (longitude data))
  ∧ (decodable (latitude data) = true → decodable (longitude data) = true →
     takes now ws data s →
     in_range (-90) 90 (latitude data) ∧ in_range (-180) 180 (longitude data))
  ∧ (∀ sign, name_accepted (name data) →
       latitude data = JNum (S754_infinity sign) →
       handleLocationUpdate now ws data s = (s, sendError s ws INVALID_LOCATION)).
Proof.
  assert (∀ lat lon,
            name_accepted (name data) → latitude data = JNum lat →
            longitude data = JNum lon →
            num_lt lat (double (-90) 0) = false → num_gt lat (double 90 0) = false →
            num_lt lon (double (-180) 0) = false →
            num_gt lon (double 180 0) = false →
            truthy (lastUpdate data) = false ∨ ¬ too_old now (lastUpdate data) →
            validateLocationData now data = Valid) as Hpass.
  { intros lat lon (n & Hn & Hne & Hl) Elat Elon Hx1 Hx2 Hy1 Hy2 Hfresh.
    rewrite (validate_name_accepted now data n Hn Hne Hl).
    rewrite Elat, Hx1, Hx2, Elon, Hy1, Hy2. simpl.
    destruct (truthy (lastUpdate data)) eqn:Ht; [|done].
    destruct (Date_getTime (lastUpdate data)) as [t|] eqn:Hd; [|done].
    destruct (now - t >? Config.userTimeout) eqn:Hold; [|done].
    destruct Hfresh as [?|Hfresh]; [done|]. destruct Hfresh.
    exists t. split; [done|]. unfold Config.userTimeout in Hold. lia. }
  assert (decodable (latitude data) = true → decodable (longitude data) = true →
          validateLocationData now data = Valid →
          in_range (-90) 90 (latitude data) ∧ in_range (-180) 180 (longitude data))
    as Hrange.
  { intros Hlat Hlon Hv.
    destruct (validate_Valid_coordinates now data Hv)
      as [(x & Ex & Hx1 & Hx2) (y & Ey & Hy1 & Hy2)].
    rewrite Ex in Hlat |- *. rewrite Ey in Hlon |- *.
    split; by apply decodable_in_range. }
  split_and!.
  - intros Hn Elat (y & Ey & Hy1 & Hy2) Hfresh.
    by apply (Hpass NaN y).
  - intros Hn (x & Ex & Hx1 & Hx2) Elon Hfresh.
    by apply (Hpass x NaN).
  - exact Hrange.
  - intros Hlat Hlon Htakes. apply Hrange; [done..|]. by eapply takes_Valid.
  - intros sign (n & Hn & Hne & Hl) Elat.
    apply handleLocationUpdate_rejected. unfold verdict.
    rewrite (validate_name_accepted now data n Hn Hne Hl), Elat.
    by destruct sign.
Qed.

End DispatchFacts.

(** ** The rate limiter *)

Section RateLimitFacts.
Context `{Runtime}.

Lemma isRateLimited_spec now uname s :
  isRateLimited now uname s = true ↔
  ∃ t, JsMap.get uname (userRateLimit s) = Some t ∧ t ≠ 0 ∧ now - t < 2000.
Proof.
  unfold isRateLimited, Config.locationUpdateInterval.
  destruct (JsMap.get uname (userRateLimit s)) as [t|].
  - destruct (t =? 0) eqn:Ht.
    + split; [done|]. intros (t' & [= <-] & ? & _). lia.
    + split.
      * intros Hlt. exists t. split_and!; [done|lia..].
      * intros (t' & [= <-] & _ & ?). lia.
  - split; [done|]. by intros (t & ? & _).
Qed.

Lemma verdict_RATE_LIMITED now data s :
  validateLocationData now data = Valid →
  verdict now data s = Some RATE_LIMITED ↔
  isRateLimited now (as_string (name data)) s = true.
Proof.
  intros Hv. unfold verdict. rewrite Hv.
  destruct (isRateLimited _ _ _); [done|].
  by destruct (negb _ && _).
Qed.

Lemma verdict_None_not_limited now data s :
  verdict now data s = None →
  isRateLimited now (as_string (name data)) s = false.
Proof.
  unfold verdict. destruct (validateLocationData now data); [|done].
  by destruct (isRateLimited _ _ _).
Qed.

Lemma sendUsersList_userRateLimit ws s :
  userRateLimit (sendUsersList ws s).1 = userRateLimit s.
Proof. unfold sendUsersList, uninterrupted, sendUsersList_begin.
  by destruct (getAllUsersWithLocations _). Qed.

Lemma history_userRateLimit ws u st en s :
  userRateLimit (handleLocationHistoryRequest ws u st en s).1 = userRateLimit s.
Proof.
  unfold handleLocationHistoryRequest, uninterrupted, handleLocationHistoryRequest_begin.
  destruct (negb _); [done|].
  by destruct (getUserLocationHistory _ _ _ _).
Qed.

(** Removing a user also removes the time of its last accepted update. *)
Lemma handleUserDisconnect_forgets uname s :
  JsMap.has uname (users s) = true →
  JsMap.get uname (userRateLimit (handleUserDisconnect uname s)) = None.
Proof.
  unfold JsMap.has, handleUserDisconnect.
  destruct (JsMap.get uname (users s)); [|done]. intros _. simpl.
  apply get_delete_eq.
Qed.

End RateLimitFacts.

(** ** The user limit *)

Section UserLimitFacts.
Context `{Runtime}.

Lemma has_foldl_set (loaded : list User) (m : list (string * User)) k :
  JsMap.has k (foldl (λ m user, JsMap.set (u_name user) user m) m loaded) = true ↔
  JsMap.has k m = true ∨ k ∈ u_name <$> loaded.
Proof.
  revert m. induction loaded as [|u loaded IH]; intros m; simpl.
  - rewrite elem_of_nil. tauto.
  - rewrite IH, elem_of_cons. unfold JsMap.has.
    destruct (decide (u_name u = k)) as [->|Hne].
    + rewrite get_set_eq. tauto.
    + rewrite get_set_ne by done.
      split; [intros [?|?]; auto|intros [?|[?|?]]; auto; congruence].
Qed.

(** What [loadUsersFromRedis] loads is in the presence map afterwards, and
    no connection is made for it. *)
Lemma loadUsersFromRedis_fills_presence s :
  (∀ user, user ∈ (getAllUsersWithLocations (redis s)).1 →
     JsMap.has (u_name user) (users (loadUsersFromRedis s)) = true)
  ∧ connections (loadUsersFromRedis s) = connections s
  ∧ sockets (loadUsersFromRedis s) = sockets s.
Proof.
  unfold loadUsersFromRedis.
  destruct (getAllUsersWithLocations (redis s)) as [loaded r]. simpl.
  split_and!; [|done..]. intros user Hin.
  apply has_foldl_set. right. by apply list_elem_of_fmap_2.
Qed.

End UserLimitFacts.

(** ** Sorted sets *)

(** Comparisons that were tested, as facts for [lia]. *)
Ltac tested :=
  repeat match goal with
  | E : _ || _ = true |- _ => apply orb_true_iff in E as [E|E]
  | E : _ || _ = false |- _ => apply orb_false_iff in E as [? ?]
  | E : (_ <? _) = true |- _ => apply Z.ltb_lt in E
  | E : (_ <? _) = false |- _ => apply Z.ltb_ge in E
  | E : (_ >? _) = true |- _ => rewrite Z.gtb_ltb in E; apply Z.ltb_lt in E
  | E : (_ >? _) = false |- _ => rewrite Z.gtb_ltb in E; apply Z.ltb_ge in E
  | E : (_ >=? _) = true |- _ => rewrite Z.geb_leb in E; apply Z.leb_le in E
  | E : (_ >=? _) = false |- _ => rewrite Z.geb_leb in E; apply Z.leb_gt in E
  end.

Section SortedSetFacts.
Import Redis.

(** The commands on the set of the command reference: one, two and three
    with the scores 1, 2 and 3. *)
Example zrange_rev_all :
  zrange_by_rank 0 (-1) true [(1, "one"); (2, "two"); (3, "three")]
  = ["three"; "two"; "one"].
Proof. reflexivity. Qed.

Example zrange_rev_2_3 :
  zrange_by_rank 2 3 true [(1, "one"); (2, "two"); (3, "three")] = ["one"].
Proof. reflexivity. Qed.

Example zrange_rev_last_two :
  zrange_by_rank (-2) (-1) true [(1, "one"); (2, "two"); (3, "three")]
  = ["two"; "one"].
Proof. reflexivity. Qed.

Example zrange_rev_last :
  zrange_by_rank (-1) (-1) true [(1, "one"); (2, "two"); (3, "three")] = ["one"].
Proof. reflexivity. Qed.

Example zrange_by_score_rev :
  zrange_by_score 3 2 true [(1, "one"); (2, "two"); (3, "three")]
  = ["three"; "two"].
Proof. reflexivity. Qed.

Example zremrangebyrank_0_1 :
  zremrangebyrank 0 1 [(1, "one"); (2, "two"); (3, "three")] = [(3, "three")].
Proof. reflexivity. Qed.

Example zremrangebyrank_keeps_two :
  zremrangebyrank 0 (-3) [(1, "one"); (2, "two"); (3, "three")]
  = [(2, "two"); (3, "three")].
Proof. reflexivity. Qed.

Example zadd_moves_member :
  zadd 5 "one" [(1, "one"); (2, "two"); (3, "three")]
  = [(2, "two"); (3, "three"); (5, "one")].
Proof. reflexivity. Qed.

Example zadd_ties_by_member :
  zadd 2 "a" [(1, "one"); (2, "two"); (3, "three")]
  = [(1, "one"); (2, "a"); (2, "two"); (3, "three")].
Proof. reflexivity. Qed.

Lemma elem_of_zinsert e z x : x ∈ zinsert e z ↔ x = e ∨ x ∈ z.
Proof.
  induction z as [|y z IH]; simpl.
  - rewrite list_elem_of_singleton, elem_of_nil. tauto.
  - destruct (entry_ltb e y).
    + by rewrite elem_of_cons.
    + rewrite !elem_of_cons, IH. tauto.
Qed.

Lemma length_zinsert e z : length (zinsert e z) = S (length z).
Proof.
  induction z as [|y z IH]; simpl; [done|].
  destruct (entry_ltb e y); simpl; [done|]. by rewrite IH.
Qed.

Lemma entry_ltb_score e x : entry_ltb e x = true → e.1 ≤ x.1.
Proof. unfold entry_ltb. lia. Qed.

Lemma entry_ltb_false_score e x : entry_ltb e x = false → x.1 ≤ e.1.
Proof. unfold entry_ltb. lia. Qed.

Lemma zinsert_sorted e z :
  StronglySorted by_score z → StronglySorted by_score (zinsert e z).
Proof.
  induction 1 as [|y z Hz IH Hy]; simpl.
  - repeat constructor.
  - destruct (entry_ltb e y) eqn:He.
    + constructor; [by constructor|]. apply entry_ltb_score in He.
      constructor; [done|].
      eapply Forall_impl; [exact Hy|]. unfold by_score. intros; lia.
    + constructor; [done|]. apply entry_ltb_false_score in He.
      apply Forall_forall. intros x [->|Hx]%elem_of_zinsert; [done|].
      by eapply Forall_forall in Hy.
Qed.

Lemma filter_sorted (P : Z * string → Prop) `{∀ x, Decision (P x)} z :
  StronglySorted by_score z → StronglySorted by_score (filter P z).
Proof.
  induction 1 as [|y z Hz IH Hy]; [constructor|].
  rewrite filter_cons. destruct (decide (P y)); [|done].
  constructor; [done|]. apply Forall_forall.
  intros x [_ Hx]%list_elem_of_filter. by eapply Forall_forall in Hy.
Qed.

Lemma zadd_sorted score member z :
  StronglySorted by_score z → StronglySorted by_score (zadd score member z).
Proof. intros Hz. by apply zinsert_sorted, filter_sorted. Qed.

Lemma zadd_nonempty score member z : zadd score member z ≠ [].
Proof.
  intros Hz. apply (f_equal length) in Hz.
  unfold zadd in Hz. by rewrite length_zinsert in Hz.
Qed.

(** A member with a score above all others, and not yet in the set, goes
    to the end. *)
Lemma zadd_newest score member z :
  (∀ x, x ∈ z → x.1 < score) → member ∉ z.*2 →
  zadd score member z = z ++ [(score, member)].
Proof.
  intros Hlt Hnew. unfold zadd.
  replace (filter (λ x, x.2 ≠ member) z) with z.
  - clear Hnew. induction z as [|y z IH]; simpl; [done|].
    replace (entry_ltb (score, member) y) with false.
    + rewrite IH; [done|]. intros x Hx. apply Hlt. by right.
    + symmetry. unfold entry_ltb. simpl.
      specialize (Hlt y (list_elem_of_here _ _)). lia.
  - clear Hlt. induction z as [|y z IH]; [done|].
    rewrite filter_cons. rewrite fmap_cons, not_elem_of_cons in Hnew.
    destruct Hnew as [Hy Hz]. rewrite decide_True by done.
    by rewrite <- IH.
Qed.

(** Trimming to the ranks [0 .. -101] leaves the last hundred. *)
Lemma zremrangebyrank_trim z :
  zremrangebyrank 0 (- Config.maxLocationEntries - 1) z = drop (length z - 100) z.
Proof.
  unfold zremrangebyrank, rank_range, Config.maxLocationEntries.
  repeat case_match; simplify_eq; tested; try lia.
  - simpl. f_equal. lia.
  - replace (length z - 100)%nat with 0%nat by lia. done.
  - replace (length z - 100)%nat with 0%nat by lia. done.
Qed.

Lemma trim_length (z : list (Z * string)) :
  length (drop (length z - 100) z) = Nat.min (length z) 100.
Proof. rewrite length_drop. lia. Qed.

(** The whole set by rank, highest score first. *)
Lemma zrange_all_rev z : zrange_by_rank 0 (-1) true z = (reverse z).*2.
Proof.
  unfold zrange_by_rank, rank_range.
  repeat case_match; simplify_eq; tested; try lia.
  - change (Z.to_nat 0) with 0%nat.
    rewrite drop_0, take_ge; [done|]. rewrite length_reverse. lia.
  - assert (length z = 0%nat) as ->%nil_length_inv by lia; done.
  - assert (length z = 0%nat) as ->%nil_length_inv by lia; done.
Qed.

(** The ranks [-1 .. -1] read from the highest score down hold the member
    with the lowest score. *)
Lemma zrange_last_rev x z : zrange_by_rank (-1) (-1) true (x :: z) = [x.2].
Proof.
  unfold zrange_by_rank, rank_range. rewrite length_cons.
  repeat case_match; simplify_eq; tested; try lia.
  replace (Z.to_nat (Z.of_nat (S (length z)) + -1)) with (length (reverse z))
    by (rewrite length_reverse; lia).
  rewrite reverse_cons, drop_app_length.
  by replace (Z.to_nat _) with 1%nat by lia.
Qed.

End SortedSetFacts.

(** ** The client and the service *)

Section ClientFacts.
Context `{Runtime}.
Import Redis.

Lemma bind_Ok {A B} (c : Client A) (k : A → Client B) db b db' :
  (c ≫= k) db = (Ok b, db') →
  ∃ a db1, c db = (Ok a, db1) ∧ k a db1 = (Ok b, db').
Proof.
  unfold mbind, client_bind, bind. destruct (c db) as [[a|] db1]; [|done].
  intros Hk. by exists a, db1.
Qed.

Lemma preserves_bind {A B} P (c : Client A) (k : A → Client B) :
  preserves P c → (∀ a, preserves P (k a)) → preserves P (c ≫= k).
Proof.
  intros Hc Hk db HP. unfold mbind, client_bind, bind.
  specialize (Hc db HP). destruct (c db) as [[a|] db1]; [|done].
  by apply Hk.
Qed.

Lemma preserves_ret {A} P (a : A) : preserves P (mret a : Client A).
Proof. by intros db HP. Qed.

Lemma preserves_fieldArg P v : preserves P (fieldArg v).
Proof.
  intros db HP. unfold fieldArg. destruct v; try done.
  all: by destruct (clientArg _).
Qed.

Lemma preserves_command_holds {A} key v (run : Client A) :
  preserves (holds key v) run → preserves (holds key v) (command run).
Proof.
  intros Hrun db HP. unfold command. destruct (link db) as [[|n]|]; [done| |].
  - by apply Hrun.
  - by apply Hrun.
Qed.

Lemma expire_holds key seconds k0 v : preserves (holds k0 v) (expire key seconds).
Proof.
  apply preserves_command_holds. intros db HP.
  by destruct (keyspace db !! key).
Qed.

Lemma hSet_holds key fields k0 v :
  key ≠ k0 → preserves (holds k0 v) (hSet key fields).
Proof.
  intros Hne. apply preserves_command_holds. intros db HP. unfold holds in *.
  destruct (keyspace db !! key) as [[z|h]|]; simpl; [done|..].
  all: by rewrite lookup_insert_ne.
Qed.

Lemma expire_stays_up key seconds : preserves stays_up (expire key seconds).
Proof.
  intros db HP. unfold expire, command, stays_up in *. rewrite HP.
  by destruct (keyspace db !! key).
Qed.

Lemma hSet_stays_up key fields : preserves stays_up (hSet key fields).
Proof.
  intros db HP. unfold hSet, command, stays_up in *. rewrite HP.
  by destruct (keyspace db !! key) as [[z|h]|].
Qed.

Lemma zAdd_Ok key score value db u db' :
  zAdd key score value db = (Ok u, db') →
  keyspace db' !! key = Some (VZSet (zadd score value (zset_at db key))).
Proof.
  unfold zAdd, command, zset_at.
  destruct (link db) as [[|n]|]; [done| |]; simpl.
  all: destruct (keyspace db !! key) as [[z|h]|]; [| done |].
  all: intros [= _ <-]; simpl; by rewrite lookup_insert_eq.
Qed.

Lemma zAdd_stays_up key score value db :
  stays_up db → (∀ h, keyspace db !! key ≠ Some (VHash h)) →
  ∃ db', zAdd key score value db = (Ok tt, db') ∧ stays_up db'.
Proof.
  unfold zAdd, command, stays_up. intros Hup Hz. rewrite Hup.
  destruct (keyspace db !! key) as [[z|h]|]; [|by destruct (Hz h)|].
  all: eexists; split; [reflexivity|done].
Qed.

Lemma zRemRangeByRank_Ok key start stop db z u db' :
  zRemRangeByRank key start stop db = (Ok u, db') →
  keyspace db !! key = Some (VZSet z) →
  zremrangebyrank start stop z ≠ [] →
  keyspace db' !! key = Some (VZSet (zremrangebyrank start stop z)).
Proof.
  unfold zRemRangeByRank, command. intros Hrun Hz Hne.
  destruct (link db) as [[|n]|]; [done| |]; simpl in Hrun; rewrite Hz in Hrun.
  all: destruct (zremrangebyrank start stop z) as [|x z']; [done|].
  all: revert Hrun; intros [= _ <-]; simpl; by rewrite lookup_insert_eq.
Qed.

Lemma zRemRangeByRank_stays_up key start stop db z :
  stays_up db → keyspace db !! key = Some (VZSet z) →
  ∃ db', zRemRangeByRank key start stop db = (Ok tt, db') ∧ stays_up db'.
Proof.
  unfold zRemRangeByRank, command, stays_up. intros Hup ->. rewrite Hup.
  destruct (zremrangebyrank start stop z); eexists; (split; [reflexivity|done]).
Qed.

Lemma locationKey_userKey u u' : userKey u ≠ locationKey u'.
Proof. unfold userKey, locationKey, Config.keyPrefix. done. Qed.

Lemma locationKey_inj : Inj (=) (=) locationKey.
Proof.
  intros u u'. unfold locationKey.
  by intros ?%(inj (String.app _))%(inj (String.app _)).
Qed.

End ClientFacts.

Section ServiceFacts.
Context `{Runtime}.
Import Redis.

Lemma with_client_same r : with_client (client r) r = r.
Proof. by destruct r. Qed.

(** The commands after the trim leave the sorted set of the user alone. *)
Lemma after_trim_holds uname (d : User) now v :
  preserves (holds (locationKey uname) v)
    (expire (locationKey uname) Config.locationTTL;;
     lastUpdateArg ← fieldArg (or_else (u_lastUpdate d) (JStr (toISOString now)));
     hSet (userKey uname) [("name", u_name d); ("lastUpdate", lastUpdateArg)];;
     expire (userKey uname) Config.userTTL;;
     mret true).
Proof.
  apply preserves_bind; [apply expire_holds|intros _].
  apply preserves_bind; [apply preserves_fieldArg|intros a].
  apply preserves_bind; [apply hSet_holds, locationKey_userKey|intros _].
  apply preserves_bind; [apply expire_holds|intros _].
  apply preserves_ret.
Qed.

Lemma after_trim_stays_up uname (d : User) now :
  preserves stays_up
    (expire (locationKey uname) Config.locationTTL;;
     lastUpdateArg ← fieldArg (or_else (u_lastUpdate d) (JStr (toISOString now)));
     hSet (userKey uname) [("name", u_name d); ("lastUpdate", lastUpdateArg)];;
     expire (userKey uname) Config.userTTL;;
     mret true).
Proof.
  apply preserves_bind; [apply expire_stays_up|intros _].
  apply preserves_bind; [apply preserves_fieldArg|intros a].
  apply preserves_bind; [apply hSet_stays_up|intros _].
  apply preserves_bind; [apply expire_stays_up|intros _].
  apply preserves_ret.
Qed.

Lemma trim_zadd_nonempty score member z :
  zremrangebyrank 0 (- Config.maxLocationEntries - 1) (zadd score member z) ≠ [].
Proof.
  rewrite zremrangebyrank_trim. intros Hnil. apply (f_equal length) in Hnil.
  rewrite trim_length in Hnil. simpl in Hnil.
  pose proof (zadd_nonempty score member z). destruct (zadd score member z); [done|].
  simpl in Hnil. lia.
Qed.

(** A completed append leaves under the user's key the last hundred of the
    set the entry was added to. *)
Lemma storeUserLocation_completed now uname d r r' :
  storeUserLocation now uname d r = (true, r') →
  stored r' uname =
  drop (length (zadd now (locationEntry now d) (stored r uname)) - 100)
       (zadd now (locationEntry now d) (stored r uname)).
Proof.
  unfold storeUserLocation. destruct (isConnected r); [|done]. simpl.
  unfold attempt, try_catch.
  match goal with |- context [?body (client r)] =>
    destruct (body (client r)) as [[b|] db'] eqn:Hbody end; [|done].
  intros [= -> <-]. simpl.
  apply bind_Ok in Hbody as (u1 & db1 & Hadd & Hbody).
  apply bind_Ok in Hbody as (u2 & db2 & Hrem & Hbody).
  apply zAdd_Ok in Hadd.
  eapply zRemRangeByRank_Ok in Hrem; [|exact Hadd|apply trim_zadd_nonempty].
  pose proof (after_trim_holds uname d now _ db2 Hrem) as Hkeep.
  rewrite Hbody in Hkeep. unfold holds in Hkeep. simpl in Hkeep.
  unfold stored at 1, zset_at. simpl. rewrite Hkeep.
  by rewrite zremrangebyrank_trim.
Qed.

Lemma bind_run {A B} (c : Client A) (k : A → Client B) db a db1 :
  c db = (Ok a, db1) → (c ≫= k) db = k a db1.
Proof. intros Hc. unfold mbind, client_bind, bind. by rewrite Hc. Qed.

(** On a healthy service whose key for the user holds no hash, an append
    always gets as far as the trim. *)
Lemma storeUserLocation_healthy now uname d r :
  healthy r →
  (∀ h, keyspace (client r) !! locationKey uname ≠ Some (VHash h)) →
  healthy (storeUserLocation now uname d r).2
  ∧ keyspace (client (storeUserLocation now uname d r).2) !! locationKey uname =
    Some (VZSet (drop (length (zadd now (locationEntry now d) (stored r uname)) - 100)
                      (zadd now (locationEntry now d) (stored r uname)))).
Proof.
  intros [Hconn Hup] Hz.
  destruct (zAdd_stays_up (locationKey uname) now (locationEntry now d)
              (client r) Hup Hz) as (db1 & Hadd & Hup1).
  pose proof (zAdd_Ok _ _ _ _ _ _ Hadd) as Hz1.
  destruct (zRemRangeByRank_stays_up (locationKey uname) 0
              (- Config.maxLocationEntries - 1) db1 _ Hup1 Hz1)
    as (db2 & Hrem & Hup2).
  pose proof (zRemRangeByRank_Ok _ _ _ _ _ _ _ Hrem Hz1 (trim_zadd_nonempty _ _ _))
    as Hz2.
  pose proof (after_trim_holds uname d now _ db2 Hz2) as Hkeep.
  pose proof (after_trim_stays_up uname d now db2 Hup2) as Hkeep_up.
  unfold storeUserLocation. rewrite Hconn.
  change (negb true) with false. cbv iota.
  unfold attempt, try_catch. unfold locationEntry in Hadd.
  rewrite (bind_run _ _ _ _ _ Hadd), (bind_run _ _ _ _ _ Hrem).
  match type of Hkeep with holds _ _ (?tail db2).2 =>
    destruct (tail db2) as [[b|] db3] end.
  all: unfold healthy, holds, stays_up in *; simpl in *.
  all: by rewrite Hkeep, zremrangebyrank_trim.
Qed.

(** Whatever bounds it is given, a history query on a healthy service reads
    the whole set of the user, highest score first. *)
Lemma getUserLocationHistory_healthy uname startTime endTime r :
  healthy r →
  (∀ h, keyspace (client r) !! locationKey uname ≠ Some (VHash h)) →
  getUserLocationHistory uname startTime endTime r =
  (JSON_parse <$> (reverse (stored r uname)).*2, r).
Proof.
  intros [Hconn Hup] Hz. unfold getUserLocationHistory. rewrite Hconn. simpl.
  unfold attempt, try_catch, mbind, client_bind, bind, zRange, command.
  rewrite Hup. unfold stored, zset_at.
  destruct (keyspace (client r) !! locationKey uname) as [[z|h]|];
    [|by destruct (Hz h)|].
  - destruct (time_truthy startTime && time_truthy endTime); simpl.
    all: by rewrite zrange_all_rev, with_client_same.
  - destruct (time_truthy startTime && time_truthy endTime); simpl.
    all: by rewrite with_client_same.
Qed.

(** On a healthy service the latest location of a user is made of the
    first member of the user's set, whatever the set holds after it, and of
    the metadata hash (a key that holds none reads as empty). *)
Lemma getLatestUserLocation_healthy uname r x z :
  healthy r →
  keyspace (client r) !! locationKey uname = Some (VZSet (x :: z)) →
  (∀ z', keyspace (client r) !! userKey uname ≠ Some (VZSet z')) →
  getLatestUserLocation uname r =
  (Some (merge_metadata (JSON_parse x.2)
           match keyspace (client r) !! userKey uname with
           | Some (VHash h) => h
           | _ => ∅
           end), r).
Proof.
  intros [Hconn Hup] Hz Hh. unfold getLatestUserLocation. rewrite Hconn. simpl.
  unfold attempt, try_catch, mbind, client_bind, bind, zRange, hGetAll, command.
  rewrite Hup, Hz. simpl. rewrite zrange_last_rev, Hup.
  destruct (keyspace (client r) !! userKey uname) as [[z'|h]|];
    [by destruct (Hh z')|..].
  all: simpl; by rewrite with_client_same.
Qed.

(** On a sorted set that record is the one with the lowest score. *)
Lemma getLatestUserLocation_lowest uname r x z :
  healthy r →
  keyspace (client r) !! locationKey uname = Some (VZSet (x :: z)) →
  (∀ z', keyspace (client r) !! userKey uname ≠ Some (VZSet z')) →
  StronglySorted by_score (x :: z) →
  (∃ metadata, (getLatestUserLocation uname r).1
               = Some (merge_metadata (JSON_parse x.2) metadata))
  ∧ ∀ y, y ∈ x :: z → x.1 ≤ y.1.
Proof.
  intros Hr Hz Hh Hsorted. split.
  - rewrite (getLatestUserLocation_healthy uname r x z Hr Hz Hh). by eexists.
  - apply StronglySorted_cons in Hsorted as [Hx _].
    intros y [->|Hy]%elem_of_cons; [done|]. by eapply Forall_forall in Hx.
Qed.

(** With the store out of reach every read gives the empty answer and an
    append is dropped; nothing is thrown at the caller. *)
Lemma unreachable_reads r :
  isConnected r = false ∨ link (client r) = Some 0%nat →
  getAllUsersWithLocations r = ([], r)
  ∧ (∀ uname, getLatestUserLocation uname r = (None, r))
  ∧ (∀ uname startTime endTime,
       getUserLocationHistory uname startTime endTime r = ([], r))
  ∧ (∀ now uname d, storeUserLocation now uname d r = (false, r)).
Proof.
  intros Hdown.
  unfold getAllUsersWithLocations, getLatestUserLocation, getUserLocationHistory,
    storeUserLocation.
  destruct (isConnected r) eqn:Hconn; simpl; [|done].
  destruct Hdown as [?|Hlink]; [done|].
  unfold attempt, try_catch, mbind, client_bind, bind, keys, zRange, zAdd, command.
  rewrite Hlink. by rewrite with_client_same.
Qed.

(** So [sendUsersList] never reaches its fallback: with the store out of
    reach the list it sends is empty, whoever is in the presence map. *)
Lemma sendUsersList_unreachable ws s :
  isConnected (redis s) = false ∨ link (client (redis s)) = Some 0%nat →
  sendUsersList ws s = (s, sendMessage s ws (users_list [])).
Proof.
  intros Hdown. unfold sendUsersList, uninterrupted, sendUsersList_begin.
  destruct (unreachable_reads (redis s) Hdown) as (-> & _). simpl.
  by destruct s.
Qed.

End ServiceFacts.

(** ** The bounded history *)

Section HistoryFacts.
Context `{Runtime}.
Import Redis.

Lemma trim_snoc {A} (l : list A) (p : A) :
  drop (length (drop (length l - 100) l ++ [p]) - 100) (drop (length l - 100) l ++ [p])
  = drop (length (l ++ [p]) - 100) (l ++ [p]).
Proof.
  rewrite !length_app, length_drop. simpl.
  destruct (decide (length l < 100)%nat) as [Hlt|Hge].
  - replace (length l - 100)%nat with 0%nat by lia. rewrite drop_0.
    f_equal. lia.
  - replace (length l - (length l - 100) + 1 - 100)%nat with 1%nat by lia.
    rewrite !drop_app, drop_drop, !length_drop.
    replace (1 - (length l - (length l - 100)))%nat with 0%nat by lia.
    replace (length l + 1 - 100 - length l)%nat with 0%nat by lia.
    do 2 f_equal. lia.
Qed.

Lemma scored_entries_snoc appends a :
  scored_entries (appends ++ [a]) =
  scored_entries appends ++ [(a.1, locationEntry a.1 a.2)].
Proof. unfold scored_entries. by rewrite fmap_app. Qed.

Lemma scored_entries_scores appends : (scored_entries appends).*1 = appends.*1.
Proof.
  unfold scored_entries. rewrite <- list_fmap_compose. by apply list_fmap_ext.
Qed.

Lemma stored_lookup r uname z :
  keyspace (client r) !! locationKey uname = Some (VZSet z) → stored r uname = z.
Proof. unfold stored, zset_at. by intros ->. Qed.

(** Appends at increasing times, with entries that differ, starting from a
    user without records: the set holds the last hundred of them. *)
Lemma append_all_stored uname appends r :
  healthy r →
  keyspace (client r) !! locationKey uname = None →
  StronglySorted Z.lt appends.*1 →
  NoDup (scored_entries appends).*2 →
  healthy (append_all uname appends r)
  ∧ (∀ h, keyspace (client (append_all uname appends r)) !! locationKey uname
          ≠ Some (VHash h))
  ∧ stored (append_all uname appends r) uname =
    drop (length appends - 100) (scored_entries appends).
Proof.
  intros Hr Hnone. induction appends as [|a appends IH] using rev_ind.
  - intros _ _. simpl. split_and!; [done|by rewrite Hnone|].
    unfold stored, zset_at. by rewrite Hnone.
  - rewrite fmap_app, scored_entries_snoc, fmap_app. simpl.
    intros Hsorted [Hdup [Hfresh _]]%NoDup_app.
    destruct IH as (Hh & Hz & Hst);
      [by eapply StronglySorted_app_1_l|done|].
    unfold append_all. rewrite foldl_app. simpl.
    fold (append_all uname appends r).
    destruct (storeUserLocation_healthy a.1 uname a.2 _ Hh Hz) as [Hh' Hz'].
    split_and!; [done|by rewrite Hz'|].
    rewrite (stored_lookup _ _ _ Hz'), Hst.
    rewrite zadd_newest.
    + replace (length appends) with (length (scored_entries appends))
        by (unfold scored_entries; by rewrite length_fmap).
      rewrite trim_snoc. f_equal. rewrite !length_app. simpl.
      unfold scored_entries. by rewrite length_fmap.
    + intros x Hx%subseteq_drop.
      eapply (StronglySorted_app_1_elem_of Z.lt appends.*1 [a.1]);
        [done| |apply list_elem_of_singleton; done].
      rewrite <- scored_entries_scores. by apply list_elem_of_fmap_2.
    + intros Hin. apply (Hfresh (locationEntry a.1 a.2)); [|by left].
      apply list_elem_of_fmap in Hin as (x & -> & Hx%subseteq_drop).
      by apply list_elem_of_fmap_2.
Qed.

(** C4: an append that completes leaves at most 100 records under the
    user's key: the records with the greatest scores of the set the new
    entry was added to, every trimmed record being no newer than every
    retained one.  After 150 appends for one user (at increasing times,
    with entries that differ) the history holds 100 records, the 100 most
    recent ones, newest first. *)
Theorem C4_history_trimmed_to_newest_hundred :
  (∀ now uname d r r',
     storeUserLocation now uname d r = (true, r') →
     let added := zadd now (locationEntry now d) (stored r uname) in
     stored r' uname = drop (length added - 100) added
     ∧ (length (stored r' uname) ≤ 100)%nat
     ∧ (StronglySorted by_score (stored r uname) →
        ∀ x y, x ∈ take (length added - 100) added → y ∈ stored r' uname →
               x.1 ≤ y.1))
  ∧ (∀ uname appends r,
       healthy r → keyspace (client r) !! locationKey uname = None →
       StronglySorted Z.lt appends.*1 →
       NoDup (scored_entries appends).*2 →
       let history :=
         (getUserLocationHistory uname None None (append_all uname appends r)).1 in
       history =
       JSON_parse <$> reverse (drop (length appends - 100) (scored_entries appends).*2)
       ∧ (length history ≤ 100)%nat
       ∧ (length appends = 150%nat → length history = 100%nat)).
Proof.
  split.
  - intros now uname d r r' Hdone added.
    pose proof (storeUserLocation_completed _ _ _ _ _ Hdone) as Hst.
    fold added in Hst. split_and!; [done| |].
    + rewrite Hst, length_drop. lia.
    + intros Hsorted x y Hx Hy. rewrite Hst in Hy.
      pose proof (zadd_sorted now (locationEntry now d) _ Hsorted) as Hadded.
      fold added in Hadded.
      rewrite <- (take_drop (length added - 100) added) in Hadded.
      by eapply (StronglySorted_app_1_elem_of by_score).
  - intros uname appends r Hr Hempty Hsorted Hdup history.
    destruct (append_all_stored uname appends r Hr Hempty Hsorted Hdup)
      as (Hh & Hz & Hst).
    assert (history =
            JSON_parse <$> reverse (drop (length appends - 100)
                                         (scored_entries appends).*2)) as Hhist.
    { unfold history. rewrite (getUserLocationHistory_healthy _ _ _ _ Hh Hz). simpl.
      by rewrite Hst, fmap_reverse, fmap_drop. }
    split_and!; [done|..].
    + rewrite Hhist, length_fmap, length_reverse, length_drop, length_fmap.
      unfold scored_entries. rewrite length_fmap. lia.
    + intros Hlen.
      rewrite Hhist, length_fmap, length_reverse, length_drop, length_fmap.
      unfold scored_entries. rewrite length_fmap. lia.
Qed.

End HistoryFacts.

(** ** The claims on the scenarios *)

Section Scenarios.
Import Host Scenario.

(** C1: with the store out of reach a [location_update] is still taken and
    broadcast, and [get_users] is answered with a [users_list], but the list
    is empty: the users in the presence map are not in it, because
    [getAllUsersWithLocations] returns the empty list instead of throwing
    and the fallback of [sendUsersList] is never run. *)
Theorem C1_degraded_get_users_lists_nobody :
  handleMessage 2000 2 (location_update (data "alice" 37 (-122))) degraded
  = ((handleMessage 2000 2 (location_update (data "alice" 37 (-122))) degraded).1,
     [(1%nat, user_location (user "alice" 37 (-122) 2000))])
  ∧ JsMap.keys
      (users (handleMessage 2000 2 (location_update (data "alice" 37 (-122))) degraded).1)
    = ["bob"; "alice"]
  ∧ (handleMessage 2100 2 get_users
       (handleMessage 2000 2 (location_update (data "alice" 37 (-122))) degraded).1).2
    = [(2%nat, users_list [])].
Proof. by vm_compute. Qed.

(** C2: with two records stored for a user, [getLatestUserLocation] returns
    the coordinates of the one with the lower score, the older one, merged
    with the metadata. *)
Theorem C2_latest_returns_oldest_record :
  stored alice_twice "alice"
  = [(1000, "37|-122|alice|1000"); (3500, "38|-122|alice|3500")]
  ∧ (getLatestUserLocation "alice" alice_twice).1
    = Some (user "alice" 37 (-122) 3500).
Proof. by vm_compute. Qed.

(** C3: a history query with both bounds returns every retained record,
    also the one whose score lies outside the bounds. *)
Theorem C3_history_ignores_time_range :
  stored alice_twice "alice"
  = [(1000, "37|-122|alice|1000"); (3500, "38|-122|alice|3500")]
  ∧ (getUserLocationHistory "alice" (Some 2000) (Some 5000) alice_twice).1
    = [user "alice" 38 (-122) 3500; user "alice" 37 (-122) 1000]
  ∧ (handleLocationHistoryRequest 1 (JStr "alice") (JStr "2000") (JStr "5000")
       (open 1 (initial alice_twice)).1).2
    = [(1%nat, location_history "alice"
                 [user "alice" 38 (-122) 3500; user "alice" 37 (-122) 1000])].
Proof. by vm_compute. Qed.

(** C5 fails as stated: a connection bound to alice by its first accepted
    update is bound to bob after a second accepted update that names bob. *)
Lemma C5_second_update_rebinds :
  username (socket alice_online 1) = Some "alice"
  ∧ verdict 1500 (data "bob" 10 20) alice_online = None
  ∧ username (socket (handleLocationUpdate 1500 1 (data "bob" 10 20) alice_online).1 1)
    = Some "bob".
Proof. by vm_compute. Qed.

(** C6: after a start on a store that holds 100 users, one connection is
    open and has sent nothing, so no username is bound to a live
    connection and the connections map is empty; yet the health report
    counts 100 connected users, and the first update, valid and for a new
    username, is turned down with [USER_LIMIT_EXCEEDED]. *)
Theorem C6_loaded_users_fill_the_limit :
  connectedUsernames restarted = []
  ∧ connections restarted = []
  ∧ JsMap.size (users restarted) = 100
  ∧ health_connectedUsers restarted = 100
  ∧ is_open (socket restarted 1) = true
  ∧ validateLocationData 5000 (data "zed" 1 1) = Valid
  ∧ JsMap.has "zed" (users restarted) = false
  ∧ (handleLocationUpdate_begin 5000 1 (data "zed" 1 1) restarted).2
    = ([(1%nat, error USER_LIMIT_EXCEEDED)], None)
  ∧ (step 5000 (Received 1%nat (location_update (data "zed" 1 1))) restarted).2
    = [(1%nat, error USER_LIMIT_EXCEEDED)]
  ∧ JsMap.has "zed"
      (users (step 5000 (Received 1%nat (location_update (data "zed" 1 1)))
                   restarted).1)
    = false.
Proof. by vm_compute. Qed.

(** C8 fails as stated: an update for alice is taken at 1000, alice
    disconnects, and an update for alice is taken again at 1500, 500 ms
    later, with no [RATE_LIMITED] reply. *)
Lemma C8_accepted_again_after_500ms :
  takes 1000 1 (data "alice" 37 (-122)) (open 1 (initial up)).1
  ∧ takes 1500 2 (data "alice" 38 (-122)) alice_back
  ∧ (handleLocationUpdate 1500 2 (data "alice" 38 (-122)) alice_back).2 = []
  ∧ JsMap.get "alice"
      (userRateLimit (handleLocationUpdate 1500 2 (data "alice" 38 (-122)) alice_back).1)
    = Some 1500.
Proof. by vm_compute. Qed.


(** C10 fails as stated: no data that comes out of [JSON.parse] has a
    latitude or a longitude that is NaN; and the infinity an overflowing
    literal gives is turned down. *)
Lemma C10_no_message_carries_NaN :
  (¬ ∃ data : UpdateData,
       decodable (latitude data) = true ∧ decodable (longitude data) = true
       ∧ (latitude data = JNum NaN ∨ longitude data = JNum NaN))
  ∧ (handleLocationUpdate 2000 2
       {| name := JStr "alice"; latitude := JNum (S754_infinity false);
          longitude := JNum (double 20 0); lastUpdate := JUndefined |}
       (initial_bob_listening up)).2
    = [(2%nat, error INVALID_LOCATION)].
Proof.
  split; [|by vm_compute].
  intros (data & Hlat & Hlon & [E|E]); rewrite E in *; discriminate.
Qed.

(** C10 on a latitude of NaN handed to the validator, and on an update
    as it is decoded. *)
Lemma C10_witness :
  name_accepted (JStr "alice")
  ∧ validateLocationData 2000
      {| name := JStr "alice"; latitude := JNum NaN;
         longitude := JNum (double 20 0); lastUpdate := JUndefined |} = Valid
  ∧ validateLocationData 2000 (data "alice" 37 (-122)) = Valid
  ∧ in_range (-90) 90 (JNum (double 37 0))
  ∧ in_range (-180) 180 (JNum (double (-122) 0)).
Proof.
  assert (name_accepted (JStr "alice")) as Hn.
  { exists "alice". split_and!; [done..|]. vm_compute. discriminate. }
  assert (coordinate_accepted (-180) 180 (JNum (double 20 0))) as Hlon
    by (eexists; split_and!; reflexivity).
  assert (validateLocationData 2000 (data "alice" 37 (-122)) = Valid) as Hv
    by reflexivity.
  destruct (C10_no_NaN_at_the_interface 2000 2
              {| name := JStr "alice"; latitude := JNum NaN;
                 longitude := JNum (double 20 0); lastUpdate := JUndefined |}
              (initial_bob_listening up)) as (Hgap & _).
  destruct (C10_no_NaN_at_the_interface 2000 2 (data "alice" 37 (-122))
              (initial_bob_listening up)) as (_ & _ & Hrange & _).
  destruct (Hrange eq_refl eq_refl Hv) as [Hlat_in Hlon_in].
  split_and!; [exact Hn| |exact Hv|exact Hlat_in|exact Hlon_in].
  apply Hgap; [exact Hn|reflexivity|exact Hlon|by left].
Defined.

(** C4 on 150 appends, and on a third append after two. *)
Lemma C4_witness :
  healthy up
  ∧ StronglySorted Z.lt appends150.*1
  ∧ NoDup (scored_entries appends150).*2
  ∧ length (getUserLocationHistory "alice" None None
              (append_all "alice" appends150 up)).1 = 100%nat
  ∧ (getUserLocationHistory "alice" None None (append_all "alice" appends150 up)).1
    = JSON_parse <$> reverse (drop 50 (scored_entries appends150).*2)
  ∧ stored (storeUserLocation 5000 "alice" (user "alice" 39 (-122) 5000) alice_twice).2
           "alice"
    = [(1000, "37|-122|alice|1000"); (3500, "38|-122|alice|3500");
       (5000, "39|-122|alice|5000")].
Proof.
  assert (healthy up) as Hup by done.
  assert (StronglySorted Z.lt appends150.*1) as Hsorted
    by (refine (bool_decide_unpack _ _); vm_compute; exact I).
  assert (NoDup (scored_entries appends150).*2) as Hdup
    by (refine (bool_decide_unpack _ _); vm_compute; exact I).
  destruct C4_history_trimmed_to_newest_hundred as [Hstep Hrun].
  destruct (Hrun "alice" appends150 up Hup eq_refl Hsorted Hdup) as (Hhist & _ & Hlen).
  assert (storeUserLocation 5000 "alice" (user "alice" 39 (-122) 5000) alice_twice
          = (true, (storeUserLocation 5000 "alice" (user "alice" 39 (-122) 5000)
                                      alice_twice).2)) as Hdone
    by (vm_compute; reflexivity).
  destruct (Hstep 5000 "alice" (user "alice" 39 (-122) 5000) alice_twice _ Hdone)
    as (Hst & _ & _).
  split_and!; [exact Hup|exact Hsorted|exact Hdup| |exact Hhist|].
  - apply Hlen. vm_compute. reflexivity.
  - rewrite Hst. vm_compute. reflexivity.
Defined.

(** C5 on a connection that names carol after alice. *)
Lemma C5_witness :
  verdict 1500 (data "carol" 1 2) alice_online = None
  ∧ username (socket (handleLocationUpdate 1500 1 (data "carol" 1 2) alice_online).1 1)
    = Some "carol".
Proof.
  assert (verdict 1500 (data "carol" 1 2) alice_online = None) as Hv by reflexivity.
  split; [done|].
  apply (proj1 (C5_binding_follows_accepted_update 1500 1 (data "carol" 1 2)
                  alice_online) Hv).
Defined.


(** C9 on alice's connection: a latitude of 91, and a disconnect that names
    bob. *)
Lemma C9_witness :
  is_open (socket alice_online 1) = true
  ∧ handleLocationUpdate 5000 1 (data "alice" 91 0) alice_online
    = (alice_online, [(1%nat, error INVALID_LOCATION)])
  ∧ handleLocationUpdate 1500 1 (data "alice" 38 (-122)) alice_online
    = (alice_online, [(1%nat, error RATE_LIMITED)])
  ∧ handleUserDisconnectRequest 1 (JStr "bob") alice_online
    = (alice_online, [(1%nat, error UNAUTHORIZED_DISCONNECT)]).
Proof.
  assert (is_open (socket alice_online 1) = true) as Hopen by reflexivity.
  destruct (C9_rejection_mutates_nothing 5000 1 (data "alice" 91 0) (JStr "bob")
              alice_online Hopen) as (Hinvalid & _ & _ & _ & Hdisc & _).
  destruct (C9_rejection_mutates_nothing 1500 1 (data "alice" 38 (-122)) (JStr "bob")
              alice_online Hopen) as (_ & Hrate & _).
  split_and!; [done|..].
  - apply Hinvalid. reflexivity.
  - apply Hrate; reflexivity.
  - apply Hdisc; [reflexivity|]. intros n [= <-]. vm_compute. intros [=].
Defined.

End Scenarios.

(** * Further properties *)

(** ** The three maps *)

Section RegistryFacts.
Context `{Runtime}.

Lemma keys_delete {V} k (m : list (string * V)) :
  JsMap.keys (JsMap.delete k m) = filter (λ k', k' ≠ k) (JsMap.keys m).
Proof.
  unfold JsMap.keys, JsMap.delete. induction m as [|[k0 v0] m IH]; [done|].
  rewrite fmap_cons, !filter_cons. simpl.
  destruct (decide (k0 ≠ k)); [rewrite fmap_cons|]; by rewrite IH.
Qed.

Lemma get_None_keys {V} k (m : list (string * V)) :
  JsMap.get k m = None ↔ k ∉ JsMap.keys m.
Proof.
  rewrite <- has_elem_of_keys. unfold JsMap.has.
  destruct (JsMap.get k m); split; (done || by intros []).
Qed.

Lemma get_Some_elem_of {V} k v (m : list (string * V)) :
  JsMap.get k m = Some v → (k, v) ∈ m.
Proof.
  induction m as [|[k0 v0] m IH]; simpl; [done|].
  destruct (decide (k0 = k)) as [->|Hne].
  - intros [= ->]. by left.
  - intros Hm. right. by apply IH.
Qed.

Lemma elem_of_get {V} k v (m : list (string * V)) :
  NoDup (JsMap.keys m) → (k, v) ∈ m → JsMap.get k m = Some v.
Proof.
  unfold JsMap.keys. induction m as [|[k0 v0] m IH]; simpl.
  - by intros _ ?%elem_of_nil.
  - intros [Hk0 Hm]%NoDup_cons [[= -> ->]|Hin]%elem_of_cons.
    + by rewrite decide_True.
    + destruct (decide (k0 = k)) as [->|Hne]; [|by apply IH].
      destruct Hk0. by apply (list_elem_of_fmap_2 fst) in Hin.
Qed.

Lemma get_filter_names {V} (names : list string) k (m : list (string * V)) :
  JsMap.get k (filter (λ kv, kv.1 ∉ names) m)
  = if decide (k ∉ names) then JsMap.get k m else None.
Proof.
  induction m as [|[k0 v0] m IH]; simpl.
  - by destruct (decide (k ∉ names)).
  - rewrite filter_cons. simpl. destruct (decide (k0 ∉ names)) as [Hk0|Hk0]; simpl.
    + destruct (decide (k0 = k)) as [->|Hne]; [|exact IH].
      by destruct (decide (k ∉ names)).
    + destruct (decide (k0 = k)) as [->|Hne]; [|exact IH].
      rewrite IH. by destruct (decide (k ∉ names)).
Qed.

(** X1: [handleUserDisconnect] removes a username that is in the presence
    map from all three maps and touches no other username; for a username
    that is not in the presence map it does nothing at all, and it never
    touches a connection object or the store. *)
Theorem X1_handleUserDisconnect_removes_one_user (uname : string) (s : LocationServer) :
  (JsMap.has uname (users s) = true →
     JsMap.get uname (users (handleUserDisconnect uname s)) = None
     ∧ JsMap.get uname (connections (handleUserDisconnect uname s)) = None
     ∧ JsMap.get uname (userRateLimit (handleUserDisconnect uname s)) = None)
  ∧ (JsMap.has uname (users s) = false → handleUserDisconnect uname s = s)
  ∧ (∀ other, other ≠ uname →
       JsMap.get other (users (handleUserDisconnect uname s)) = JsMap.get other (users s)
       ∧ JsMap.get other (connections (handleUserDisconnect uname s))
         = JsMap.get other (connections s)
       ∧ JsMap.get other (userRateLimit (handleUserDisconnect uname s))
         = JsMap.get other (userRateLimit s))
  ∧ sockets (handleUserDisconnect uname s) = sockets s
  ∧ redis (handleUserDisconnect uname s) = redis s
  ∧ handleUserDisconnect uname (handleUserDisconnect uname s)
    = handleUserDisconnect uname s.
Proof.
  unfold JsMap.has, handleUserDisconnect.
  destruct (JsMap.get uname (users s)) as [u|] eqn:Hu; simpl.
  - split_and!; try done.
    + intros _. by rewrite !get_delete_eq.
    + intros other Hne. by rewrite !get_delete_ne.
    + by rewrite get_delete_eq.
  - split_and!; try done. by rewrite Hu.
Qed.

Lemma consistent_handleUserDisconnect uname s :
  consistent s → consistent (handleUserDisconnect uname s).
Proof.
  intros (Hu & Hc & Hrc & Hcu & Hn). unfold handleUserDisconnect.
  destruct (JsMap.get uname (users s)); [|done].
  unfold consistent. simpl. rewrite !keys_delete. split_and!.
  - by apply NoDup_filter.
  - by apply NoDup_filter.
  - by rewrite Hrc.
  - intros k [Hk Hin]%list_elem_of_filter. apply list_elem_of_filter. split; [done|].
    by apply Hcu.
  - unfold JsMap.delete. apply Forall_forall. intros kv [_ Hin]%list_elem_of_filter.
    by eapply Forall_forall in Hn.
Qed.

Lemma Forall_set_named (m : list (string * User)) (u : User) :
  Forall (λ kv : string * User, u_name kv.2 = kv.1) m →
  Forall (λ kv : string * User, u_name kv.2 = kv.1) (JsMap.set (u_name u) u m).
Proof.
  induction 1 as [|[k0 v0] m Hk0 Hm IH]; simpl.
  - by constructor.
  - destruct (decide (k0 = u_name u)); constructor; done.
Qed.

Lemma consistent_accepted now ws data s :
  verdict now data s = None →
  consistent s → consistent (handleLocationUpdate now ws data s).1.
Proof.
  intros Hok (Hu & Hc & Hrc & Hcu & Hn). unfold consistent.
  rewrite (accepted_users _ _ _ _ Hok), (accepted_connections _ _ _ _ Hok),
    (accepted_userRateLimit _ _ _ _ Hok).
  split_and!.
  - by apply NoDup_keys_set.
  - by apply NoDup_keys_set.
  - rewrite !keys_set. unfold JsMap.has. 
    assert (JsMap.get (as_string (name data)) (userRateLimit s) = None
            ↔ JsMap.get (as_string (name data)) (connections s) = None) as Hiff
      by (by rewrite !get_None_keys, Hrc).
    destruct (JsMap.get _ (userRateLimit s)), (JsMap.get _ (connections s));
      try by rewrite Hrc.
    + by pose proof (proj2 Hiff eq_refl).
    + by pose proof (proj1 Hiff eq_refl).
  - rewrite !keys_set. intros k Hk.
    assert (k = as_string (name data) ∨ k ∈ JsMap.keys (connections s)) as [->|Hin].
    { destruct (JsMap.has _ (connections s)); [by right|].
      apply elem_of_app in Hk as [?|?%list_elem_of_singleton]; auto. }
    + destruct (JsMap.has _ (users s)) eqn:Hhas.
      * by apply has_elem_of_keys.
      * apply elem_of_app. right. by apply list_elem_of_singleton.
    + apply Hcu in Hin. destruct (JsMap.has _ (users s)); [done|].
      apply elem_of_app. by left.
  - by apply (Forall_set_named (users s) (userData_of now data)).
Qed.

Lemma same_memory_consistent s s' : same_memory s s' → consistent s → consistent s'.
Proof. unfold consistent. by intros (-> & -> & -> & _). Qed.

Lemma same_memory_with_redis r s : same_memory s (with_redis r s).
Proof. done. Qed.

Lemma sendUsersList_same_memory ws s : same_memory s (sendUsersList ws s).1.
Proof. unfold sendUsersList, uninterrupted, sendUsersList_begin.
  by destruct (getAllUsersWithLocations _). Qed.

Lemma history_same_memory ws u st en s :
  same_memory s (handleLocationHistoryRequest ws u st en s).1.
Proof.
  unfold handleLocationHistoryRequest, uninterrupted, handleLocationHistoryRequest_begin.
  destruct (negb _); [done|].
  by destruct (getUserLocationHistory _ _ _ _).
Qed.

Lemma consistent_close ws s : consistent s → consistent (close ws s).
Proof.
  intros Hs. unfold close. destruct (username (socket s ws)); [|done].
  by apply consistent_handleUserDisconnect.
Qed.

Lemma consistent_foldl_disconnect names s :
  consistent s →
  consistent (foldl (λ acc uname, handleUserDisconnect uname acc) s names).
Proof.
  revert s. induction names as [|u names IH]; intros s Hs; simpl; [done|].
  by apply IH, consistent_handleUserDisconnect.
Qed.

Lemma consistent_step now e s : consistent s → consistent (step now e s).1.
Proof.
  intros Hs. destruct e as [ws|ws [| |m]|ws|]; cbn [step message]; try done.
  - by rewrite open_state.
  - destruct m as [data|d| |u st en| |]; cbn [handleMessage]; try done.
    + destruct (verdict now data s) as [c|] eqn:Hv.
      * by rewrite (handleLocationUpdate_rejected _ _ _ _ _ Hv).
      * by apply consistent_accepted.
    + unfold handleUserDisconnectRequest. destruct (negb (truthy d)); [done|].
      destruct d as [| | | |n|]; try done.
      destruct (username (socket s ws)) as [bound|]; [|done].
      destruct (decide (bound = n)); [|done]. simpl.
      by apply consistent_close, consistent_handleUserDisconnect.
    + eapply same_memory_consistent; [apply sendUsersList_same_memory|done].
    + eapply same_memory_consistent; [apply history_same_memory|done].
  - by apply consistent_close.
  - unfold cleanup. by apply consistent_foldl_disconnect.
Qed.

Lemma consistent_loadUsersFromRedis s : consistent s → consistent (loadUsersFromRedis s).
Proof.
  intros (Hu & Hc & Hrc & Hcu & Hn). unfold loadUsersFromRedis.
  destruct (getAllUsersWithLocations (redis s)) as [loaded r].
  unfold consistent. simpl.
  assert (NoDup (JsMap.keys (foldl (λ m user, JsMap.set (u_name user) user m)
                                   (users s) loaded))
          ∧ JsMap.keys (users s)
            ⊆ JsMap.keys (foldl (λ m user, JsMap.set (u_name user) user m)
                                (users s) loaded)
          ∧ Forall (λ kv : string * User, u_name kv.2 = kv.1)
              (foldl (λ m user, JsMap.set (u_name user) user m) (users s) loaded))
    as (Hu' & Hsub & Hn').
  { clear Hcu. revert Hu Hn. generalize (users s).
    induction loaded as [|u loaded IH]; intros m Hm Hn; simpl; [done|].
    destruct (IH (JsMap.set (u_name u) u m)) as (? & Hsub & ?).
    - by apply NoDup_keys_set.
    - by apply Forall_set_named.
    - split_and!; [done| |done]. intros k Hk. apply Hsub. rewrite keys_set.
      destruct (JsMap.has (u_name u) m); [done|]. apply elem_of_app. by left. }
  split_and!; try done. intros k Hk. by apply Hsub, Hcu.
Qed.

(** X2: from the start of the server on, whatever is opened, received,
    closed or swept, and whether or not users were loaded from the store
    first, the three maps stay consistent: no username twice, the
    rate-limit map and the connections map hold the same usernames in the
    same order, each of them has a presence entry, and every user object
    is filed under its own name. *)
Theorem X2_registry_stays_consistent (trace : list (Z * Event)) (r : RedisService) :
  consistent (run trace (initial r)).1
  ∧ consistent (run trace (loadUsersFromRedis (initial r))).1.
Proof.
  assert (∀ s, consistent s → consistent (run trace s).1) as Hrun.
  { induction trace as [|[now e] trace IH]; intros s Hs; simpl; [done|].
    pose proof (consistent_step now e s Hs) as Hs1.
    destruct (step now e s) as [s1 sent1]. specialize (IH s1 Hs1).
    by destruct (run trace s1) as [s2 sent2]. }
  assert (consistent (initial r)) as Hinit.
  { unfold consistent. simpl. split_and!; try done; apply NoDup_nil_2. }
  split; apply Hrun; [done|]. by apply consistent_loadUsersFromRedis.
Qed.

End RegistryFacts.

(** ** Broadcasts *)

Section BroadcastFacts.
Context `{Runtime}.

Lemma filter_set_excluded {V} k (v : V) (m : list (string * V))
    (Q : string * V → Prop) `{∀ x, Decision (Q x)} :
  filter (λ c, c.1 ≠ k ∧ Q c) (JsMap.set k v m) = filter (λ c, c.1 ≠ k ∧ Q c) m.
Proof.
  induction m as [|[k0 v0] m IH]; simpl.
  - rewrite filter_cons. simpl. by rewrite decide_False by (by intros [? _]).
  - destruct (decide (k0 = k)) as [->|Hne].
    + rewrite !filter_cons. simpl. by rewrite !decide_False by (by intros [? _]).
    + rewrite !filter_cons. simpl. rewrite IH. done.
Qed.

Lemma broadcastToOthers_filter s excl message :
  broadcastToOthers s excl message =
  (λ c : string * nat, (c.2, message)) <$>
    filter (λ c : string * nat, c.1 ≠ excl ∧ is_open (socket s c.2) = true)
           (connections s).
Proof.
  unfold broadcastToOthers. induction (connections s) as [|[k c] l IH]; [done|].
  rewrite filter_cons. simpl. rewrite IH. unfold sendMessage.
  destruct (decide (k ≠ excl)) as [Hk|Hk]; simpl.
  - destruct (is_open (socket s c)) eqn:Hopen.
    + by rewrite decide_True.
    + by rewrite decide_False by (by intros [_ ?]).
  - by rewrite decide_False by (by intros [? _]).
Qed.

(** An update that is taken sends nothing before the store has answered,
    and then waits with its user object. *)
Lemma accepted_begin now ws data s :
  verdict now data s = None →
  handleLocationUpdate_begin now ws data s =
  ((handleLocationUpdate now ws data s).1,
   ([], Some (after_storeUserLocation (as_string (name data)) (userData_of now data)))).
Proof.
  unfold verdict, handleLocationUpdate, uninterrupted, handleLocationUpdate_begin.
  destruct (validateLocationData now data); [|done].
  destruct (isRateLimited _ _ _); [done|].
  by destruct (negb _ && _).
Qed.

Lemma rejected_begin now ws data s code :
  verdict now data s = Some code →
  handleLocationUpdate_begin now ws data s = (s, (sendError s ws code, None)).
Proof.
  unfold verdict, handleLocationUpdate_begin.
  destruct (validateLocationData now data); [|by intros [= ->]].
  destruct (isRateLimited _ _ _); [by intros [= <-]|].
  destruct (negb _ && _); [by intros [= <-]|done].
Qed.

Lemma accepted_is_open now ws data s c :
  verdict now data s = None →
  is_open (socket (handleLocationUpdate now ws data s).1 c) = is_open (socket s c).
Proof.
  intros Hok. unfold socket at 1. rewrite (accepted_sockets now ws data s Hok).
  destruct (decide (c = ws)) as [->|Hne].
  - by rewrite lookup_insert_eq.
  - by rewrite lookup_insert_ne.
Qed.

(** X3: who gets an accepted [location_update].  The handler sends
    nothing before the store has answered.  It then sends the
    [user_location] of the update, one for each entry the connections map
    holds at that moment under another username and whose connection is
    open then, in the order of the map: a connection that has registered
    while the handler waited is among them.  The exclusion goes by
    username: the entry of the update's own username gets nothing, an
    entry of another username does even if it holds the sender's
    connection.  If no other event is handled while the handler waits,
    these are the entries the map held when the update arrived. *)
Theorem X3_accepted_update_is_sent_to_the_others
    (now : Z) (ws : nat) (data : UpdateData) (s : LocationServer) :
  verdict now data s = None →
  handleLocationUpdate_begin now ws data s =
  ((handleLocationUpdate now ws data s).1,
   ([], Some (after_storeUserLocation (as_string (name data)) (userData_of now data))))
  ∧ (∀ later : LocationServer,
       resume (after_storeUserLocation (as_string (name data)) (userData_of now data))
              later =
       (λ c : string * nat, (c.2, user_location (userData_of now data))) <$>
         filter (λ c : string * nat,
                   c.1 ≠ as_string (name data) ∧ is_open (socket later c.2) = true)
                (connections later))
  ∧ (uninterrupted (handleLocationUpdate_begin now ws data s)).2 =
    (λ c : string * nat, (c.2, user_location (userData_of now data))) <$>
      filter (λ c : string * nat,
                c.1 ≠ as_string (name data) ∧ is_open (socket s c.2) = true)
             (connections s).
Proof.
  intros Hok. split_and!.
  - by apply accepted_begin.
  - intros later. apply broadcastToOthers_filter.
  - change (uninterrupted (handleLocationUpdate_begin now ws data s))
      with (handleLocationUpdate now ws data s).
    rewrite (accepted_sent now ws data s Hok), broadcastToOthers_filter.
    rewrite (accepted_connections now ws data s Hok). f_equal.
    rewrite <- (filter_set_excluded (as_string (name data)) ws (connections s)
                  (λ c, is_open (socket s c.2) = true)).
    apply list_filter_iff. intros [k c]. cbn [fst snd].
    by rewrite (accepted_is_open now ws data s c Hok).
Qed.

End BroadcastFacts.

(** ** The size of the presence map *)

Section LimitFacts.
Context `{Runtime}.

Lemma size_delete {V} k (m : list (string * V)) :
  JsMap.size (JsMap.delete k m) ≤ JsMap.size m.
Proof.
  unfold JsMap.size, JsMap.delete.
  pose proof (length_filter (λ kv : string * V, kv.1 ≠ k) m). lia.
Qed.

Lemma size_handleUserDisconnect uname s :
  JsMap.size (users (handleUserDisconnect uname s)) ≤ JsMap.size (users s).
Proof.
  unfold handleUserDisconnect. destruct (JsMap.get uname (users s)); [|done].
  apply size_delete.
Qed.

Lemma size_close ws s : JsMap.size (users (close ws s)) ≤ JsMap.size (users s).
Proof.
  unfold close. destruct (username (socket s ws)); [|done].
  apply (size_handleUserDisconnect _ (with_sockets _ s)).
Qed.

Lemma size_cleanup now s : JsMap.size (users (cleanup now s)) ≤ JsMap.size (users s).
Proof.
  unfold cleanup. simpl.
  generalize ((filter (λ kv : string * User, is_stale now kv.2 = true) (users s)).*1).
  intros names. revert s. induction names as [|n names IH]; intros s; simpl; [done|].
  etrans; [apply IH|apply size_handleUserDisconnect].
Qed.

Lemma size_accepted now ws data s :
  verdict now data s = None →
  JsMap.size (users s) ≤ Config.maxUsers →
  JsMap.size (users (handleLocationUpdate now ws data s).1) ≤ Config.maxUsers.
Proof.
  intros Hok Hsize. rewrite (accepted_users now ws data s Hok).
  revert Hok. unfold verdict. destruct (validateLocationData now data); [|done].
  destruct (isRateLimited _ _ _); [done|].
  destruct (JsMap.has (as_string (name data)) (users s)) eqn:Hhas; simpl.
  - intros _. by rewrite size_set_old.
  - destruct (JsMap.size (users s) >=? Config.maxUsers) eqn:Hfull; [done|].
    intros _. rewrite size_set_new by done. lia.
Qed.

Lemma size_step now e s :
  JsMap.size (users s) ≤ Config.maxUsers →
  JsMap.size (users (step now e s).1) ≤ Config.maxUsers.
Proof.
  intros Hsize. destruct e as [ws|ws [| |m]|ws|]; cbn [step message]; try done.
  - by rewrite open_state.
  - destruct m as [data|d| |u st en| |]; cbn [handleMessage]; try done.
    + destruct (verdict now data s) as [c|] eqn:Hv.
      * by rewrite (handleLocationUpdate_rejected _ _ _ _ _ Hv).
      * by apply size_accepted.
    + unfold handleUserDisconnectRequest. destruct (negb (truthy d)); [done|].
      destruct d as [| | | |n|]; try done.
      destruct (username (socket s ws)) as [bound|]; [|done].
      destruct (decide (bound = n)); [|done]. simpl.
      etrans; [apply size_close|]. etrans; [apply size_handleUserDisconnect|done].
    + destruct (sendUsersList_same_memory ws s) as (-> & _). done.
    + destruct (history_same_memory ws u st en s) as (-> & _). done.
  - etrans; [apply size_close|done].
  - etrans; [apply size_cleanup|done].
Qed.

(** X4: no event makes the presence map larger than the user limit: from
    a state with at most 100 usernames in it, every run of openings,
    messages, closings and sweeps ends in such a state. *)
Theorem X4_presence_map_stays_within_the_limit
    (trace : list (Z * Event)) (s : LocationServer) :
  JsMap.size (users s) ≤ Config.maxUsers →
  JsMap.size (users (run trace s).1) ≤ Config.maxUsers.
Proof.
  revert s. induction trace as [|[now e] trace IH]; intros s Hs; simpl; [done|].
  pose proof (size_step now e s Hs) as Hs1.
  destruct (step now e s) as [s1 sent1]. specialize (IH s1 Hs1).
  by destruct (run trace s1) as [s2 sent2].
Qed.

End LimitFacts.

(** ** The cleanup timer *)

Section SweepFacts.
Context `{Runtime}.

Lemma filter_all {A} (P : A → Prop) `{∀ x, Decision (P x)} (l : list A) :
  (∀ x, x ∈ l → P x) → filter P l = l.
Proof.
  induction l as [|x l IH]; intros Hl; [done|].
  rewrite filter_cons, decide_True by (apply Hl; by left).
  rewrite IH; [done|]. intros y Hy. apply Hl. by right.
Qed.

Lemma filter_ext_elem {A} (P Q : A → Prop) `{∀ x, Decision (P x)}
    `{∀ x, Decision (Q x)} (l : list A) :
  (∀ x, x ∈ l → (P x ↔ Q x)) → filter P l = filter Q l.
Proof.
  induction l as [|x l IH]; intros Hl; [done|].
  rewrite !filter_cons. rewrite IH by (intros y Hy; apply Hl; by right).
  destruct (decide (P x)) as [HP|HP], (decide (Q x)) as [HQ|HQ]; try done.
  - destruct HQ. apply Hl; [by left|done].
  - destruct HP. apply Hl; [by left|done].
Qed.

Lemma delete_absent {V} k (m : list (string * V)) :
  k ∉ JsMap.keys m → JsMap.delete k m = m.
Proof.
  intros Hk. unfold JsMap.delete. apply filter_all. intros [k0 v0] Hin. simpl.
  intros ->. apply Hk. by apply (list_elem_of_fmap_2 fst) in Hin.
Qed.

Lemma filter_names_delete {V} n names (m : list (string * V)) :
  filter (λ kv, kv.1 ∉ names) (JsMap.delete n m)
  = filter (λ kv, kv.1 ∉ n :: names) m.
Proof.
  unfold JsMap.delete. rewrite list_filter_filter. apply list_filter_iff.
  intros [k v]. simpl. rewrite not_elem_of_cons. tauto.
Qed.

(** Removing the users of a list one after the other removes their entries
    from the three maps and nothing else. *)
Lemma foldl_handleUserDisconnect names s :
  (∀ n, n ∈ names → n ∉ JsMap.keys (users s) →
        (n ∉ JsMap.keys (connections s)) ∧ (n ∉ JsMap.keys (userRateLimit s))) →
  foldl (λ acc uname, handleUserDisconnect uname acc) s names =
  {| users := filter (λ kv, kv.1 ∉ names) (users s);
     connections := filter (λ kv, kv.1 ∉ names) (connections s);
     userRateLimit := filter (λ kv, kv.1 ∉ names) (userRateLimit s);
     sockets := sockets s;
     redis := redis s |}.
Proof.
  revert s. induction names as [|n names IH]; intros s Hs; simpl.
  - rewrite !filter_all by (intros; apply not_elem_of_nil). by destruct s.
  - rewrite IH.
    + unfold handleUserDisconnect.
      destruct (JsMap.get n (users s)) as [u|] eqn:Hu; simpl.
      * by rewrite !filter_names_delete.
      * apply get_None_keys in Hu.
        destruct (Hs n) as [Hc Hr]; [by left|done|].
        rewrite <- !filter_names_delete, !delete_absent by done. done.
    + intros n' Hn'. unfold handleUserDisconnect.
      destruct (JsMap.get n (users s)) as [u|] eqn:Hu; simpl.
      * rewrite !keys_delete, !list_elem_of_filter. intros Hnot.
        destruct (decide (n' = n)) as [->|Hne]; [by split; intros [? _]|].
        destruct (Hs n') as [Hc Hr]; [by right|by intros ?; apply Hnot|].
        by split; intros [_ ?].
      * apply Hs. by right.
Qed.

Lemma staleUsers_in_users now s n :
  n ∈ staleUsers now s → n ∈ JsMap.keys (users s).
Proof.
  unfold staleUsers. intros ([k u] & -> & [_ Hin]%list_elem_of_filter)%list_elem_of_fmap.
  by apply (list_elem_of_fmap_2 fst) in Hin.
Qed.

Lemma staleUsers_spec now s uname u :
  NoDup (JsMap.keys (users s)) →
  JsMap.get uname (users s) = Some u →
  uname ∈ staleUsers now s ↔ is_stale now u = true.
Proof.
  intros Hnd Hu. unfold staleUsers. split.
  - intros ([k u'] & -> & [Hstale Hin]%list_elem_of_filter)%list_elem_of_fmap.
    simpl in *. apply (elem_of_get _ _ _ Hnd) in Hin. congruence.
  - intros Hstale. apply list_elem_of_fmap. exists (uname, u). split; [done|].
    apply list_elem_of_filter. split; [done|]. by apply get_Some_elem_of.
Qed.

Lemma cleanup_unfold now s :
  cleanup now s =
  {| users := filter (λ kv, kv.1 ∉ staleUsers now s) (users s);
     connections := filter (λ kv, kv.1 ∉ staleUsers now s) (connections s);
     userRateLimit := filter (λ kv, kv.1 ∉ staleUsers now s) (userRateLimit s);
     sockets := sockets s;
     redis := cleanupOldEntries now (redis s) |}.
Proof.
  unfold cleanup. fold (staleUsers now s).
  rewrite foldl_handleUserDisconnect; [done|].
  intros n Hn Hnot. by apply staleUsers_in_users in Hn.
Qed.

(** X5: on consistent maps the cleanup timer leaves in the presence map
    exactly the users that are not stale at [now], in their order; a stale
    user loses its connection entry and its rate-limit entry with it, every
    other entry is kept; no connection object is closed or unbound, and the
    store is handed to [cleanupOldEntries]. *)
Theorem X5_cleanup_sweeps_the_stale_users (now : Z) (s : LocationServer) :
  consistent s →
  users (cleanup now s)
  = filter (λ kv : string * User, is_stale now kv.2 = false) (users s)
  ∧ (∀ uname,
       JsMap.get uname (connections (cleanup now s)) =
       match JsMap.get uname (users s) with
       | Some u => if is_stale now u then None
                   else JsMap.get uname (connections s)
       | None => None
       end
       ∧ JsMap.get uname (userRateLimit (cleanup now s)) =
         match JsMap.get uname (users s) with
         | Some u => if is_stale now u then None
                     else JsMap.get uname (userRateLimit s)
         | None => None
         end)
  ∧ sockets (cleanup now s) = sockets s
  ∧ redis (cleanup now s) = cleanupOldEntries now (redis s).
Proof.
  intros (Hu & Hc & Hrc & Hcu & Hn). rewrite cleanup_unfold. simpl.
  split_and!; [| |done..].
  - apply filter_ext_elem. intros [k u] Hin. simpl.
    pose proof (elem_of_get _ _ _ Hu Hin) as Hget.
    rewrite (staleUsers_spec now s k u Hu Hget). by destruct (is_stale now u).
  - intros uname.
    rewrite !get_filter_names.
    destruct (JsMap.get uname (users s)) as [u|] eqn:Hget.
    + pose proof (staleUsers_spec now s uname u Hu Hget) as Hspec.
      destruct (is_stale now u).
      * rewrite !decide_False; [done|intros Hnot; apply Hnot; by apply Hspec..].
      * rewrite !decide_True; [done|intros Hin; by apply Hspec in Hin..].
    + apply get_None_keys in Hget.
      assert (uname ∉ JsMap.keys (connections s)) as Hnc by (intros ?; by apply Hget, Hcu).
      assert (JsMap.get uname (connections s) = None) as -> by by apply get_None_keys.
      assert (JsMap.get uname (userRateLimit s) = None) as ->
        by (apply get_None_keys; by rewrite Hrc).
      by destruct (decide _).
Qed.

(** X6: what the sweep makes of an accepted update.  The user of an update
    accepted at [now] is in the presence map after a sweep at [later]
    exactly if it is not stale then.  With a [lastUpdate] of the client's
    it is not stale at [now], since the validator has turned down what the
    sweep would take; and with a [lastUpdate] that is no date it is never
    stale, so no sweep removes it. *)
Theorem X6_sweep_after_an_accepted_update
    (now later : Z) (ws : nat) (data : UpdateData) (s : LocationServer) :
  consistent s →
  verdict now data s = None →
  JsMap.get (as_string (name data))
            (users (cleanup later (handleLocationUpdate now ws data s).1))
  = (if is_stale later (userData_of now data) then None
     else Some (userData_of now data))
  ∧ (truthy (lastUpdate data) = true → is_stale now (userData_of now data) = false)
  ∧ (truthy (lastUpdate data) = true → Date_getTime (lastUpdate data) = None →
     is_stale later (userData_of now data) = false).
Proof.
  intros Hs Hok. pose proof (consistent_accepted now ws data s Hok Hs) as (Hu & _).
  split_and!.
  - rewrite cleanup_unfold. simpl.
    rewrite get_filter_names.
    assert (JsMap.get (as_string (name data))
              (users (handleLocationUpdate now ws data s).1)
            = Some (userData_of now data)) as Hget
      by (by rewrite (accepted_users now ws data s Hok), get_set_eq).
    pose proof (staleUsers_spec later _ _ _ Hu Hget) as Hspec. rewrite Hget.
    destruct (is_stale later (userData_of now data)).
    + rewrite decide_False; [done|intros Hnot; apply Hnot; by apply Hspec].
    + rewrite decide_True; [done|intros Hin; by apply Hspec in Hin].
  - intros Htruthy. revert Hok. unfold verdict, validateLocationData, is_stale.
    simpl. unfold or_else. rewrite Htruthy.
    destruct (name data); try done. destruct (negb _); [done|].
    destruct (_ || _); [done|]. destruct (latitude data); try done.
    destruct (_ || _); [done|]. destruct (longitude data); try done.
    destruct (_ || _); [done|].
    destruct (Date_getTime (lastUpdate data)) as [t|]; [|done].
    by destruct (now - t >? Config.userTimeout).
  - intros Htruthy Hnone. unfold is_stale. simpl. unfold or_else.
    by rewrite Htruthy, Hnone.
Qed.

End SweepFacts.

(** ** Reads of the store *)

Section ReadFacts.
Context `{Runtime}.
Import Redis.

Lemma unwritten_refl db : unwritten db db.
Proof. done. Qed.

Lemma untouched_refl r : untouched r r.
Proof. done. Qed.

Lemma untouched_trans r1 r2 r3 : untouched r1 r2 → untouched r2 r3 → untouched r1 r3.
Proof. unfold untouched, unwritten. intros (? & ? & ?) (? & ? & ?). split_and!; congruence. Qed.

Lemma preserves_command_unwritten {A} db0 (run : Client A) :
  preserves (unwritten db0) run → preserves (unwritten db0) (command run).
Proof.
  intros Hrun db HP. unfold command. destruct (link db) as [[|n]|]; [done| |].
  - by apply Hrun.
  - by apply Hrun.
Qed.

Lemma zRange_reads db0 key min max options :
  preserves (unwritten db0) (zRange key min max options).
Proof.
  apply preserves_command_unwritten. intros db HP.
  destruct (keyspace db !! key) as [[z|h]|]; [|done|].
  all: by destruct (BY options) as [[|]|].
Qed.

Lemma hGetAll_reads db0 key : preserves (unwritten db0) (hGetAll key).
Proof.
  apply preserves_command_unwritten. intros db HP.
  by destruct (keyspace db !! key) as [[z|h]|].
Qed.

Lemma keys_reads db0 prefix : preserves (unwritten db0) (keys prefix).
Proof. apply preserves_command_unwritten. by intros db HP. Qed.

Lemma exists_reads db0 key : preserves (unwritten db0) (exists_ key).
Proof.
  apply preserves_command_unwritten. intros db HP.
  by destruct (keyspace db !! key).
Qed.

Lemma attempt_reads {A} (body : Client A) fallback r :
  preserves (unwritten (client r)) body → untouched r (attempt body fallback r).2.
Proof.
  intros Hbody. unfold attempt, try_catch.
  specialize (Hbody (client r) (unwritten_refl _)).
  by destruct (body (client r)) as [[a|] db].
Qed.

Lemma getLatestUserLocation_reads uname r :
  untouched r (getLatestUserLocation uname r).2.
Proof.
  unfold getLatestUserLocation. destruct (negb (isConnected r)); [done|].
  apply attempt_reads.
  apply preserves_bind; [apply zRange_reads|intros [|first rest]].
  - apply preserves_ret.
  - apply preserves_bind; [apply hGetAll_reads|intros h]. apply preserves_ret.
Qed.

Lemma getUserLocationHistory_reads uname startTime endTime r :
  untouched r (getUserLocationHistory uname startTime endTime r).2.
Proof.
  unfold getUserLocationHistory. destruct (negb (isConnected r)); [done|].
  apply attempt_reads.
  apply preserves_bind; [apply zRange_reads|intros l]. apply preserves_ret.
Qed.

Lemma userExists_reads uname r : untouched r (userExists uname r).2.
Proof.
  unfold userExists. destruct (negb (isConnected r)); [done|].
  apply attempt_reads.
  apply preserves_bind; [apply exists_reads|intros l]. apply preserves_ret.
Qed.

Lemma collect_reads r (locationKeys : list string) (acc : list User * RedisService) :
  untouched r acc.2 →
  untouched r
    (foldl (fun acc locationKey =>
              let username :=
                remove_first (Config.keyPrefix +:+ "locations:") locationKey in
              let '(userData, r') := getLatestUserLocation username acc.2 in
              match userData with
              | Some u => (acc.1 ++ [u], r')
              | None => (acc.1, r')
              end)
           acc locationKeys).2.
Proof.
  revert acc. induction locationKeys as [|k l IH]; intros acc Hacc; simpl; [done|].
  apply IH.
  pose proof (getLatestUserLocation_reads
                (remove_first (Config.keyPrefix +:+ "locations:") k) acc.2) as Hone.
  destruct (getLatestUserLocation _ acc.2) as [[u|] r1]; simpl in *.
  all: by eapply untouched_trans.
Qed.

Lemma getAllUsersWithLocations_reads r :
  untouched r (getAllUsersWithLocations r).2.
Proof.
  unfold getAllUsersWithLocations. destruct (negb (isConnected r)); [done|].
  pose proof (keys_reads (client r) (Config.keyPrefix +:+ "locations:")
                (client r) (unwritten_refl _)) as Hkeys.
  destruct (keys _ (client r)) as [[locationKeys|] db]; [|done].
  by apply collect_reads.
Qed.

(** X7: the four reading methods of [RedisService] never write.  Whatever
    the store holds, whether its commands are answered or thrown, and
    whether or not the service is connected, [getLatestUserLocation],
    [getUserLocationHistory], [getAllUsersWithLocations] and [userExists]
    leave every key, value and expiry as it was, and the connection flag
    too. *)
Theorem X7_reading_methods_never_write (r : RedisService) :
  (∀ uname, untouched r (getLatestUserLocation uname r).2)
  ∧ (∀ uname startTime endTime,
       untouched r (getUserLocationHistory uname startTime endTime r).2)
  ∧ untouched r (getAllUsersWithLocations r).2
  ∧ (∀ uname, untouched r (userExists uname r).2).
Proof.
  split_and!.
  - intros. apply getLatestUserLocation_reads.
  - intros. apply getUserLocationHistory_reads.
  - apply getAllUsersWithLocations_reads.
  - intros. apply userExists_reads.
Qed.

End ReadFacts.

(** ** Queries, disconnect requests and new connections *)

Section QueryFacts.
Context `{Runtime}.


Lemma history_unfold ws uname startTime endTime s :
  truthy uname = true →
  handleLocationHistoryRequest ws uname startTime endTime s =
  (with_redis (getUserLocationHistory (as_string uname) (time_bound startTime)
                 (time_bound endTime) (redis s)).2 s,
   sendMessage s ws
     (location_history (as_string uname)
        (getUserLocationHistory (as_string uname) (time_bound startTime)
           (time_bound endTime) (redis s)).1)).
Proof.
  intros Hu.
  unfold handleLocationHistoryRequest, uninterrupted, handleLocationHistoryRequest_begin.
  rewrite Hu. simpl. by destruct (getUserLocationHistory _ _ _ _).
Qed.

Lemma sendUsersList_begin_unfold ws s :
  sendUsersList_begin ws s =
  (with_redis (getAllUsersWithLocations (redis s)).2 s,
   ([], Some (after_getAllUsersWithLocations ws
                (getAllUsersWithLocations (redis s)).1))).
Proof. unfold sendUsersList_begin. by destruct (getAllUsersWithLocations _). Qed.



Lemma handleUserDisconnect_idem uname s :
  handleUserDisconnect uname (handleUserDisconnect uname s)
  = handleUserDisconnect uname s.
Proof.
  unfold handleUserDisconnect.
  destruct (JsMap.get uname (users s)) as [u|] eqn:Hu; simpl.
  - by rewrite get_delete_eq.
  - by rewrite Hu.
Qed.

Lemma handleUserDisconnect_with_sockets uname k s :
  handleUserDisconnect uname (with_sockets k s)
  = with_sockets k (handleUserDisconnect uname s).
Proof.
  unfold handleUserDisconnect. simpl. by destruct (JsMap.get uname (users s)).
Qed.

(** X9: the three outcomes of a [user_disconnect].  With a falsy name the
    request is turned down with [INVALID_DISCONNECT] and nothing changes.
    With the username the connection is bound to, the user is removed from
    the three maps as [handleUserDisconnect] does it, once, the connection
    is closed with its binding kept, no frame is sent to anybody and the
    store is left alone.  In every other case the request is turned down
    with [UNAUTHORIZED_DISCONNECT] and nothing changes. *)
Theorem X9_disconnect_request_outcomes (ws : nat) (d : JsVal) (s : LocationServer) :
  (truthy d = false →
     handleUserDisconnectRequest ws d s = (s, sendError s ws INVALID_DISCONNECT))
  ∧ (∀ n, truthy d = true → d = JStr n → username (socket s ws) = Some n →
       handleUserDisconnectRequest ws d s =
       (with_sockets (<[ws := {| username := Some n; is_open := false |}]> (sockets s))
                     (handleUserDisconnect n s), []))
  ∧ (truthy d = true → (∀ n, d = JStr n → username (socket s ws) ≠ Some n) →
     handleUserDisconnectRequest ws d s
     = (s, sendError s ws UNAUTHORIZED_DISCONNECT)).
Proof.
  unfold handleUserDisconnectRequest. split_and!.
  - by intros ->.
  - intros n -> -> Hbound. simpl. rewrite Hbound, decide_True by done.
    assert (socket (handleUserDisconnect n s) ws = socket s ws) as Hsame
      by (unfold socket; by rewrite handleUserDisconnect_sockets).
    unfold close. rewrite Hsame, Hbound.
    rewrite handleUserDisconnect_with_sockets, handleUserDisconnect_idem.
    by rewrite handleUserDisconnect_sockets.
  - intros -> Hother. simpl. destruct d as [| | | |n|]; try done.
    destruct (username (socket s ws)) as [bound|] eqn:Hbound; [|done].
    destruct (decide (bound = n)) as [->|Hne]; [|done]. by destruct (Hother n).
Qed.


End QueryFacts.

(** ** Reconnecting to the store *)

Section ReconnectFacts.
Context `{Runtime}.

(** X11: the reconnect strategy gives up after the tenth retry, and until
    then waits a tenth of a second for each retry made; the cap of three
    seconds is never what it answers, the longest wait being one second. *)
Theorem X11_reconnect_waits_at_most_a_second (retries : Z) :
  (reconnectStrategy retries = GiveUp ↔ 10 < retries)
  ∧ ∀ ms, reconnectStrategy retries = RetryAfter ms →
          ms = retries * 100 ∧ ms ≤ 1000.
Proof.
  unfold reconnectStrategy. destruct (retries >? 10) eqn:Hretries.
  - split; [split; [lia|done]|done].
  - split; [split; [done|lia]|]. intros ms [= <-]. lia.
Qed.

End ReconnectFacts.

(** ** Handling from memory alone *)

Section MemoryFacts.
Context `{Runtime}.

Lemma same_memory_eq s s' :
  same_memory s s' → s' = with_redis (redis s') s.
Proof. destruct s, s'. unfold same_memory. simpl. by intros (-> & -> & -> & ->). Qed.

Lemma handleUserDisconnect_with_redis uname r s :
  handleUserDisconnect uname (with_redis r s)
  = with_redis r (handleUserDisconnect uname s).
Proof.
  unfold handleUserDisconnect. simpl. by destruct (JsMap.get uname (users s)).
Qed.

Lemma close_with_redis ws r s : close ws (with_redis r s) = with_redis r (close ws s).
Proof.
  unfold close. unfold socket. simpl.
  destruct (username (default _ (sockets s !! ws))); [|done].
  apply (handleUserDisconnect_with_redis _ r (with_sockets _ s)).
Qed.

Lemma disconnect_request_with_redis ws d r s :
  handleUserDisconnectRequest ws d (with_redis r s)
  = ((with_redis r (handleUserDisconnectRequest ws d s).1),
     (handleUserDisconnectRequest ws d s).2).
Proof.
  unfold handleUserDisconnectRequest. destruct (negb (truthy d)); [done|].
  change (socket (with_redis r s) ws) with (socket s ws).
  destruct d as [| | | |n|], (username (socket s ws)) as [bound|]; try done.
  destruct (decide (bound = n)); [|done]. cbn [fst snd].
  by rewrite handleUserDisconnect_with_redis, close_with_redis.
Qed.

Lemma verdict_with_redis now data r s :
  verdict now data (with_redis r s) = verdict now data s.
Proof. done. Qed.

Lemma resume_same_memory w (later later' : LocationServer) :
  same_memory later later' → resume w later' = resume w later.
Proof.
  intros (Hu & Hc & _ & Hk).
  destruct w as [uname userData|ws allUsers|ws uname history];
    unfold resume, broadcastToOthers, sendMessage, socket.
  all: by rewrite ?Hu, ?Hc, ?Hk.
Qed.

(** X12: a [location_update], a [user_disconnect], text that is not JSON,
    the closing of a connection and the cleanup timer are handled from
    the three maps and the connection objects alone.  On two states that
    differ in the store only, whatever the two stores hold and whether or
    not they can be reached, the handler leaves the same maps and
    connection objects, sends the same frames at once, and waits with the
    same user object; and what a handler sends when the store has
    answered depends on the maps and connection objects of that moment
    only.  So the store bears on these frames through the time it takes
    to answer, and through nothing else. *)
Theorem X12_memory_events_ignore_the_store
    (now : Z) (e : Event) (s s' : LocationServer) :
  memory_only e = true →
  same_memory s s' →
  same_memory (step_begin now e s).1 (step_begin now e s').1
  ∧ (step_begin now e s').2 = (step_begin now e s).2
  ∧ ∀ w (later later' : LocationServer),
      same_memory later later' → resume w later' = resume w later.
Proof.
  intros He Hsame. split_and!; [| |intros w later later'; apply resume_same_memory].
  all: rewrite (same_memory_eq s s' Hsame).
  all: generalize (redis s'); clear s' Hsame; intros r.
  all: destruct e as [ws|ws [| |m]|ws|]; try done; cbn [step_begin message_begin].
  all: try (by rewrite close_with_redis).
  all: try (by rewrite !cleanup_unfold).
  all: destruct m as [data|d| |u st en| |]; try done; cbn [handleMessage_begin].
  all: try (destruct (verdict now data s) as [c|] eqn:Hv;
            [rewrite !(rejected_begin _ _ _ _ c) by done; done
            |assert (verdict now data (with_redis r s) = None) as Hv' by done;
             rewrite (accepted_begin now ws data s Hv),
               (accepted_begin now ws data _ Hv');
             rewrite (accepted_unfold now ws data s Hv),
               (accepted_unfold now ws data _ Hv'); done]).
  all: rewrite (disconnect_request_with_redis ws d r s).
  all: by destruct (handleUserDisconnectRequest ws d s).
Qed.

End MemoryFacts.

(** ** Writes to the store *)

Section StoreFacts.
Context `{Runtime}.
Import Redis.

Lemma preserves_command {A} (P : Db → Prop) (run : Client A) :
  (∀ l db, P db → P (with_link l db)) →
  preserves P run → preserves P (command run).
Proof.
  intros Hlink Hrun db HP. unfold command. destruct (link db) as [[|n]|]; [done| |].
  - by apply Hrun, Hlink.
  - by apply Hrun.
Qed.

Lemma zAdd_keeps_up key score value : preserves stays_up (zAdd key score value).
Proof.
  intros db HP. unfold zAdd, command, stays_up in *. rewrite HP.
  by destruct (keyspace db !! key) as [[z|h]|].
Qed.

Lemma zRemRangeByRank_keeps_up key start stop :
  preserves stays_up (zRemRangeByRank key start stop).
Proof.
  intros db HP. unfold zRemRangeByRank, command, stays_up in *. rewrite HP.
  destruct (keyspace db !! key) as [[z|h]|]; [|done..].
  by destruct (zremrangebyrank start stop z).
Qed.

Lemma attempt_preserves {A} (P : Db → Prop) (body : Client A) fallback r :
  preserves P body → P (client r) → P (client (attempt body fallback r).2).
Proof.
  intros Hbody HP. unfold attempt, try_catch. specialize (Hbody (client r) HP).
  by destruct (body (client r)) as [[a|] db].
Qed.

Lemma attempt_isConnected {A} (body : Client A) fallback r :
  isConnected (attempt body fallback r).2 = isConnected r.
Proof. unfold attempt, try_catch. by destruct (body (client r)) as [[a|] db]. Qed.

Lemma storeUserLocation_keeps_healthy now uname d r :
  healthy r → healthy (storeUserLocation now uname d r).2.
Proof.
  intros [Hconn Hup]. unfold storeUserLocation. rewrite Hconn. simpl.
  split; [by rewrite attempt_isConnected|].
  apply (attempt_preserves stays_up); [|done].
  apply preserves_bind; [apply zAdd_keeps_up|intros _].
  apply preserves_bind; [apply zRemRangeByRank_keeps_up|intros _].
  apply after_trim_stays_up.
Qed.

(** *** Location keys hold sorted sets *)

Lemma locationKey_prefix uname :
  String.prefix (Config.keyPrefix +:+ "locations:") (locationKey uname) = true.
Proof. unfold locationKey, Config.keyPrefix. simpl. by destruct uname. Qed.

Lemma userKey_no_prefix uname :
  String.prefix (Config.keyPrefix +:+ "locations:") (userKey uname) = false.
Proof. done. Qed.

Lemma location_sets_with_link l db : location_sets db → location_sets (with_link l db).
Proof. done. Qed.

Lemma zAdd_location_sets key score value :
  preserves location_sets (zAdd key score value).
Proof.
  apply preserves_command; [apply location_sets_with_link|]. intros db HP.
  destruct (keyspace db !! key) as [[z|h]|]; [|done|].
  all: intros k h Hk; simpl; destruct (decide (k = key)) as [->|Hne];
    [by rewrite lookup_insert_eq|rewrite lookup_insert_ne by done; by apply HP].
Qed.

Lemma zRemRangeByRank_location_sets key start stop :
  preserves location_sets (zRemRangeByRank key start stop).
Proof.
  apply preserves_command; [apply location_sets_with_link|]. intros db HP.
  destruct (keyspace db !! key) as [[z|h]|]; [|done..].
  destruct (zremrangebyrank start stop z); intros k h Hk; simpl;
    (destruct (decide (k = key)) as [->|Hne];
     [by rewrite ?lookup_insert_eq, ?lookup_delete_eq
     |rewrite ?lookup_insert_ne, ?lookup_delete_ne by done; by apply HP]).
Qed.

Lemma zRemRangeByScore_location_sets key lo hi :
  preserves location_sets (zRemRangeByScore key lo hi).
Proof.
  apply preserves_command; [apply location_sets_with_link|]. intros db HP.
  destruct (keyspace db !! key) as [[z|h]|]; [|done..].
  destruct (filter _ z); intros k h Hk; simpl;
    (destruct (decide (k = key)) as [->|Hne];
     [by rewrite ?lookup_insert_eq, ?lookup_delete_eq
     |rewrite ?lookup_insert_ne, ?lookup_delete_ne by done; by apply HP]).
Qed.

Lemma expire_location_sets key seconds : preserves location_sets (expire key seconds).
Proof.
  apply preserves_command; [apply location_sets_with_link|]. intros db HP.
  by destruct (keyspace db !! key).
Qed.

Lemma del_location_sets key : preserves location_sets (del key).
Proof.
  apply preserves_command; [apply location_sets_with_link|]. intros db HP.
  destruct (keyspace db !! key); [|done].
  intros k h Hk; simpl. destruct (decide (k = key)) as [->|Hne].
  - by rewrite lookup_delete_eq.
  - rewrite lookup_delete_ne by done. by apply HP.
Qed.

Lemma hSet_location_sets uname fields :
  preserves location_sets (hSet (userKey uname) fields).
Proof.
  apply preserves_command; [apply location_sets_with_link|]. intros db HP.
  destruct (keyspace db !! userKey uname) as [[z|h]|]; [done|..].
  all: intros k h' Hk; simpl; destruct (decide (k = userKey uname)) as [->|Hne];
    [by rewrite userKey_no_prefix in Hk
    |rewrite lookup_insert_ne by done; by apply HP].
Qed.

Lemma sweep_location_sets cutoff (l : list string) :
  preserves location_sets
    (foldr (fun key rest => zRemRangeByScore key 0 cutoff;; rest) (mret tt) l).
Proof.
  induction l as [|k l IH]; simpl; [apply preserves_ret|].
  apply preserves_bind; [apply zRemRangeByScore_location_sets|by intros _].
Qed.

Lemma untouched_location_sets r r' :
  untouched r r' → location_keys_are_sets r → location_keys_are_sets r'.
Proof. intros (_ & Hk & _) Hr k h. rewrite Hk. apply Hr. Qed.

Lemma storeUserLocation_location_sets now uname d r :
  location_keys_are_sets r →
  location_keys_are_sets (storeUserLocation now uname d r).2.
Proof.
  intros Hr. unfold storeUserLocation. destruct (negb (isConnected r)); [done|].
  apply (attempt_preserves location_sets); [|done].
  apply preserves_bind; [apply zAdd_location_sets|intros _].
  apply preserves_bind; [apply zRemRangeByRank_location_sets|intros _].
  apply preserves_bind; [apply expire_location_sets|intros _].
  apply preserves_bind; [apply preserves_fieldArg|intros a].
  apply preserves_bind; [apply hSet_location_sets|intros _].
  apply preserves_bind; [apply expire_location_sets|intros _].
  apply preserves_ret.
Qed.

(** X13: no method of [RedisService] puts a hash under a key of the
    pattern [location_share:locations:*].  If every such key holds a sorted
    set before [storeUserLocation], [removeUser], [cleanupOldEntries] or
    one of the reading methods, then so it is after it, whether the method
    completes or one of its commands is thrown; the metadata hash goes
    under a key the pattern does not match. *)
Theorem X13_location_keys_stay_sorted_sets (r : RedisService) :
  location_keys_are_sets r →
  (∀ now uname d, location_keys_are_sets (storeUserLocation now uname d r).2)
  ∧ (∀ uname, location_keys_are_sets (removeUser uname r).2)
  ∧ (∀ now, location_keys_are_sets (cleanupOldEntries now r))
  ∧ (∀ uname, location_keys_are_sets (getLatestUserLocation uname r).2)
  ∧ (∀ uname startTime endTime,
       location_keys_are_sets (getUserLocationHistory uname startTime endTime r).2)
  ∧ location_keys_are_sets (getAllUsersWithLocations r).2
  ∧ (∀ uname, location_keys_are_sets (userExists uname r).2)
  ∧ ∀ uname, String.prefix (Config.keyPrefix +:+ "locations:") (userKey uname) = false.
Proof.
  intros Hr. split_and!.
  - intros now uname d. by apply storeUserLocation_location_sets.
  - intros uname. unfold removeUser. destruct (negb (isConnected r)); [done|].
    apply (attempt_preserves location_sets); [|done].
    apply preserves_bind; [apply del_location_sets|intros _].
    apply preserves_bind; [apply del_location_sets|intros _].
    apply preserves_ret.
  - intros now. unfold cleanupOldEntries. destruct (negb (isConnected r)); [done|].
    apply (attempt_preserves location_sets); [|done].
    apply preserves_bind; [|intros l; apply sweep_location_sets].
    apply preserves_command; [apply location_sets_with_link|]. by intros db HP.
  - intros. eapply untouched_location_sets; [apply getLatestUserLocation_reads|done].
  - intros. eapply untouched_location_sets; [apply getUserLocationHistory_reads|done].
  - eapply untouched_location_sets; [apply getAllUsersWithLocations_reads|done].
  - intros. eapply untouched_location_sets; [apply userExists_reads|done].
  - apply userKey_no_prefix.
Qed.

(** *** [cleanupOldEntries] *)

Lemma zRemRangeByScore_up key cutoff db :
  stays_up db → (∀ h, keyspace db !! key ≠ Some (VHash h)) →
  ∃ db', zRemRangeByScore key 0 cutoff db = (Ok tt, db') ∧ stays_up db'
         ∧ ∀ k, keyspace db' !! k =
                if decide (k = key) then purge cutoff (keyspace db !! key)
                else keyspace db !! k.
Proof.
  unfold zRemRangeByScore, command, stays_up, purge. intros Hup Hz. rewrite Hup.
  destruct (keyspace db !! key) as [[z|h]|] eqn:Hkey; [|by destruct (Hz h)|].
  - destruct (filter _ z) as [|x z'] eqn:Hfilter.
    all: eexists; split; [reflexivity|]; split; [done|]; intros k; simpl.
    all: destruct (decide (k = key)) as [->|Hne].
    all: by rewrite ?lookup_insert_eq, ?lookup_delete_eq,
           ?lookup_insert_ne, ?lookup_delete_ne.
  - eexists; split; [reflexivity|]; split; [done|]. intros k.
    by destruct (decide (k = key)) as [->|Hne].
Qed.

Lemma sweep_keys cutoff (l : list string) db :
  NoDup l → stays_up db →
  (∀ k h, k ∈ l → keyspace db !! k ≠ Some (VHash h)) →
  ∃ db', foldr (fun key rest => zRemRangeByScore key 0 cutoff;; rest)
               (mret tt) l db = (Ok tt, db')
         ∧ stays_up db'
         ∧ ∀ k, keyspace db' !! k =
                if decide (k ∈ l) then purge cutoff (keyspace db !! k)
                else keyspace db !! k.
Proof.
  revert db. induction l as [|k0 l IH]; intros db Hnd Hup Hsets; cbn [foldr].
  - exists db. split_and!; [done..|]. intros k.
    case_decide as Hin; [by apply elem_of_nil in Hin|done].
  - apply NoDup_cons in Hnd as [Hk0 Hnd].
    destruct (zRemRangeByScore_up k0 cutoff db Hup) as (db1 & Hrem & Hup1 & Hks1).
    { intros h. apply Hsets. by left. }
    destruct (IH db1 Hnd Hup1) as (db' & Hrest & Hup' & Hks').
    { intros k h Hk. rewrite Hks1, decide_False by (by intros ->).
      apply Hsets. by right. }
    exists db'. split_and!; [|done|].
    + by rewrite (bind_run _ _ _ _ _ Hrem).
    + intros k. rewrite Hks', !Hks1.
      destruct (decide (k = k0)) as [->|Hne].
      * destruct (decide (k0 ∈ l)); [done|].
        destruct (decide (k0 ∈ k0 :: l)) as [|Hnot]; [done|].
        destruct Hnot. by left.
      * destruct (decide (k ∈ l)) as [Hin|Hin].
        -- destruct (decide (k ∈ k0 :: l)) as [|Hnot]; [done|].
           destruct Hnot. by right.
        -- destruct (decide (k ∈ k0 :: l)) as [[?|?]%elem_of_cons|]; done.
Qed.

(** X14: what [cleanupOldEntries] removes.  On a service whose connection
    stays up and whose location keys hold sorted sets, it removes from the
    set of every location key the records with a score from 0 up to the
    cutoff, [now] minus the seven days of the location TTL in
    milliseconds, and keeps every other record in its place; a set left
    empty is deleted, and no other key is touched. *)
Theorem X14_cleanupOldEntries_drops_what_is_older_than_the_TTL
    (now : Z) (r : RedisService) :
  healthy r →
  location_keys_are_sets r →
  healthy (cleanupOldEntries now r)
  ∧ (∀ k, keyspace (client (cleanupOldEntries now r)) !! k =
          if String.prefix (Config.keyPrefix +:+ "locations:") k
          then purge (now - Config.locationTTL * 1000) (keyspace (client r) !! k)
          else keyspace (client r) !! k)
  ∧ ∀ uname, stored (cleanupOldEntries now r) uname =
             filter (λ x : Z * string, ¬ (0 ≤ x.1 ≤ now - Config.locationTTL * 1000))
                    (stored r uname).
Proof.
  intros [Hconn Hup] Hsets.
  assert (healthy (cleanupOldEntries now r)
          ∧ ∀ k, keyspace (client (cleanupOldEntries now r)) !! k =
                 if String.prefix (Config.keyPrefix +:+ "locations:") k
                 then purge (now - Config.locationTTL * 1000) (keyspace (client r) !! k)
                 else keyspace (client r) !! k) as [Hhealthy Hks].
  { unfold cleanupOldEntries. rewrite Hconn. simpl.
    unfold attempt, try_catch.
    assert (keys (Config.keyPrefix +:+ "locations:") (client r)
            = (Ok (filter (λ k, String.prefix (Config.keyPrefix +:+ "locations:") k = true)
                          (map_to_list (keyspace (client r))).*1), client r)) as Hkeys.
    { unfold keys, command. by rewrite Hup. }
    rewrite (bind_run _ _ _ _ _ Hkeys).
    destruct (sweep_keys (now - Config.locationTTL * 1000)
                (filter (λ k, String.prefix (Config.keyPrefix +:+ "locations:") k = true)
                        (map_to_list (keyspace (client r))).*1)
                (client r)) as (db' & -> & Hup' & Hks').
    { apply NoDup_filter, NoDup_fst_map_to_list. }
    { done. }
    { intros k h [Hk _]%list_elem_of_filter. by apply Hsets. }
    simpl. split; [done|]. intros k. rewrite Hks'.
    destruct (String.prefix (Config.keyPrefix +:+ "locations:") k) eqn:Hk.
    - destruct (decide _) as [Hin|Hin]; [done|].
      destruct (keyspace (client r) !! k) as [v|] eqn:Hv; [|done].
      destruct Hin. apply list_elem_of_filter. split; [done|].
      apply list_elem_of_fmap. exists (k, v). split; [done|].
      by apply elem_of_map_to_list.
    - rewrite decide_False; [done|]. intros [Hk' _]%list_elem_of_filter. congruence. }
  split_and!; [done..|]. intros uname. unfold stored, zset_at.
  rewrite Hks, locationKey_prefix. unfold purge.
  destruct (keyspace (client r) !! locationKey uname) as [[z|h]|]; [|done..].
  by destruct (filter _ z).
Qed.

(** *** [removeUser] and [userExists] *)

Lemma del_up key db :
  stays_up db →
  ∃ n db', del key db = (Ok n, db') ∧ stays_up db'
           ∧ ∀ k, keyspace db' !! k =
                  if decide (k = key) then None else keyspace db !! k.
Proof.
  unfold del, command, stays_up. intros Hup. rewrite Hup.
  destruct (keyspace db !! key) as [v|] eqn:Hkey.
  all: do 2 eexists; split; [reflexivity|]; split; [done|]; intros k; simpl.
  all: destruct (decide (k = key)) as [->|Hne].
  all: by rewrite ?lookup_delete_eq, ?lookup_delete_ne.
Qed.

Lemma userKey_inj : Inj (=) (=) userKey.
Proof.
  intros u u'. unfold userKey.
  by intros ?%(inj (String.app _))%(inj (String.app _)).
Qed.

Lemma userExists_healthy uname r :
  healthy r →
  userExists uname r
  = (bool_decide (is_Some (keyspace (client r) !! userKey uname)), r).
Proof.
  intros [Hconn Hup]. unfold userExists. rewrite Hconn. simpl.
  unfold attempt, try_catch, mbind, client_bind, bind, exists_, command.
  rewrite Hup. destruct (keyspace (client r) !! userKey uname) as [v|]; simpl.
  all: by rewrite with_client_same.
Qed.

Lemma getLatestUserLocation_absent uname r :
  healthy r → keyspace (client r) !! locationKey uname = None →
  getLatestUserLocation uname r = (None, r).
Proof.
  intros [Hconn Hup] Hnone. unfold getLatestUserLocation. rewrite Hconn. simpl.
  unfold attempt, try_catch, mbind, client_bind, bind, zRange, command.
  rewrite Hup, Hnone. simpl. by rewrite with_client_same.
Qed.

(** X15: [removeUser] forgets a user and nobody else.  On a service whose
    connection stays up it answers true and deletes the two keys of the
    user, whatever they hold; afterwards the user has no latest location,
    an empty history and does not exist, while the records and the
    existence of every other user are as before. *)
Theorem X15_removeUser_forgets_the_user (uname : string) (r : RedisService) :
  healthy r →
  (removeUser uname r).1 = true
  ∧ healthy (removeUser uname r).2
  ∧ (∀ k, keyspace (client (removeUser uname r).2) !! k =
          if decide (k = locationKey uname ∨ k = userKey uname) then None
          else keyspace (client r) !! k)
  ∧ getLatestUserLocation uname (removeUser uname r).2
    = (None, (removeUser uname r).2)
  ∧ (∀ startTime endTime,
       getUserLocationHistory uname startTime endTime (removeUser uname r).2
       = ([], (removeUser uname r).2))
  ∧ userExists uname (removeUser uname r).2 = (false, (removeUser uname r).2)
  ∧ ∀ other, other ≠ uname →
      stored (removeUser uname r).2 other = stored r other
      ∧ (userExists other (removeUser uname r).2).1 = (userExists other r).1.
Proof.
  intros Hr. pose proof Hr as [Hconn Hup].
  destruct (del_up (locationKey uname) (client r) Hup) as (n1 & db1 & Hdel1 & Hup1 & Hks1).
  destruct (del_up (userKey uname) db1 Hup1) as (n2 & db2 & Hdel2 & Hup2 & Hks2).
  assert (removeUser uname r = (true, with_client db2 r)) as Hrun.
  { unfold removeUser. rewrite Hconn. simpl. unfold attempt, try_catch.
    by rewrite (bind_run _ _ _ _ _ Hdel1), (bind_run _ _ _ _ _ Hdel2). }
  rewrite Hrun. simpl.
  assert (healthy (with_client db2 r)) as Hr2 by done.
  assert (∀ k, keyspace db2 !! k =
               if decide (k = locationKey uname ∨ k = userKey uname) then None
               else keyspace (client r) !! k) as Hks.
  { intros k. rewrite Hks2, Hks1.
    destruct (decide (k = userKey uname)) as [->|Hne2].
    - by rewrite decide_True by (by right).
    - destruct (decide (k = locationKey uname)) as [->|Hne1].
      + by rewrite decide_True by (by left).
      + rewrite decide_False; [done|]. by intros [?|?]. }
  assert (keyspace db2 !! locationKey uname = None) as Hloc
    by (by rewrite Hks, decide_True by (by left)).
  assert (keyspace db2 !! userKey uname = None) as Huser
    by (by rewrite Hks, decide_True by (by right)).
  split_and!; try done.
  - by apply getLatestUserLocation_absent.
  - intros startTime endTime.
    rewrite getUserLocationHistory_healthy; [|done|].
    + unfold stored, zset_at. simpl. by rewrite Hloc.
    + intros h. simpl. by rewrite Hloc.
  - rewrite userExists_healthy by done. simpl. rewrite Huser.
    rewrite bool_decide_false; [done|]. by intros [? ?].
  - intros other Hne. rewrite !userExists_healthy by done.
    unfold stored, zset_at. simpl. rewrite !Hks.
    rewrite !decide_False; [done|..].
    + intros [Heq|Heq]; [by destruct (locationKey_userKey other uname)|].
      by apply userKey_inj in Heq.
    + intros [Heq|Heq]; [by apply locationKey_inj in Heq|].
      by destruct (locationKey_userKey uname other).
Qed.

(** *** An append read back *)

Lemma hSet_Ok key fields db u db' :
  hSet key fields db = (Ok u, db') →
  ∃ h0, keyspace db' !! key = Some (VHash (hset fields h0)).
Proof.
  unfold hSet, command.
  destruct (link db) as [[|n]|]; [done| |]; simpl.
  all: destruct (keyspace db !! key) as [[z|h]|]; [done|..].
  all: intros [= _ <-]; simpl; eexists; by rewrite lookup_insert_eq.
Qed.

Lemma fieldArg_Ok v db a db' :
  fieldArg v db = (Ok a, db') →
  match v with
  | JStr s => a = s
  | _ => clientArg v = Some a
  end.
Proof.
  unfold fieldArg, mret, client_ret, ret, throw.
  destruct v; try (destruct (clientArg _); [|done]).
  all: intros [= ? ?]; by subst.
Qed.

(** What a completed append leaves under the two keys of the user. *)
Lemma completed_append_keys now uname d r r' :
  healthy r →
  storeUserLocation now uname d r = (true, r') →
  healthy r'
  ∧ (∃ x z, keyspace (client r') !! locationKey uname = Some (VZSet (x :: z)))
  ∧ ∃ a h0, keyspace (client r') !! userKey uname
            = Some (VHash (hset [("name", u_name d); ("lastUpdate", a)] h0))
            ∧ match lastUpdate_written now d with
              | JStr s => a = s
              | v => clientArg v = Some a
              end.
Proof.
  intros Hr Hrun.
  pose proof (storeUserLocation_keeps_healthy now uname d r Hr) as Hr'.
  pose proof (storeUserLocation_completed now uname d r r' Hrun) as Hstored.
  rewrite Hrun in Hr'. simpl in Hr'. split_and!; [done| |].
  - pose proof (trim_zadd_nonempty now (locationEntry now d) (stored r uname)) as Hne.
    rewrite zremrangebyrank_trim in Hne. rewrite <- Hstored in Hne.
    revert Hne. unfold stored, zset_at.
    destruct (keyspace (client r') !! locationKey uname) as [[[|x z]|h]|]; try done.
    intros _. by exists x, z.
  - revert Hrun. unfold storeUserLocation. destruct (isConnected r); [|done]. simpl.
    unfold attempt, try_catch.
    match goal with |- context [?body (client r)] =>
      destruct (body (client r)) as [[b|] db'] eqn:Hbody end; [|done].
    intros [= -> <-]. simpl.
    apply bind_Ok in Hbody as (u1 & db1 & _ & Hbody).
    apply bind_Ok in Hbody as (u2 & db2 & _ & Hbody).
    apply bind_Ok in Hbody as (u3 & db3 & _ & Hbody).
    apply bind_Ok in Hbody as (a & db4 & Harg & Hbody).
    apply bind_Ok in Hbody as (u5 & db5 & Hset & Hbody).
    apply fieldArg_Ok in Harg. apply hSet_Ok in Hset as (h0 & Hset).
    pose proof (expire_holds (userKey uname) Config.userTTL _ _ db5 Hset) as Hkeep.
    apply bind_Ok in Hbody as (u6 & db6 & Hexp & Hbody).
    rewrite Hexp in Hkeep. revert Hbody. intros [= <-].
    exists a, h0. split; [exact Hkeep|]. unfold lastUpdate_written.
    by destruct (or_else _ _).
Qed.

(** X16: an append that has completed can be read back.  After
    [storeUserLocation] has answered true on a service whose connection
    stays up, the user exists, and [getLatestUserLocation] finds a record
    for the user whose [name] is the name just written and whose
    [lastUpdate] is the text just written to the metadata hash: the
    [lastUpdate] of the location data, or the time of the append when
    that is falsy. *)
Theorem X16_completed_append_is_read_back
    (now : Z) (uname : string) (d : User) (r r' : RedisService) :
  healthy r →
  storeUserLocation now uname d r = (true, r') →
  userExists uname r' = (true, r')
  ∧ ∃ x, getLatestUserLocation uname r' = (Some x, r')
         ∧ u_name x = u_name d
         ∧ ∃ t, u_lastUpdate x = JStr t
                ∧ match lastUpdate_written now d with
                  | JStr s => t = s
                  | v => clientArg v = Some t
                  end.
Proof.
  intros Hr Hrun.
  destruct (completed_append_keys now uname d r r' Hr Hrun)
    as (Hr' & (x & z & Hloc) & (a & h0 & Huser & Ha)).
  split.
  - rewrite userExists_healthy by done. by rewrite Huser, bool_decide_true.
  - eexists. split; [|split].
    + apply (getLatestUserLocation_healthy uname r' x z Hr' Hloc).
      intros z'. by rewrite Huser.
    + rewrite Huser. unfold merge_metadata, hset. simpl.
      by rewrite lookup_insert_ne, lookup_insert_eq.
    + rewrite Huser. unfold merge_metadata, hset. simpl.
      rewrite lookup_insert_eq. simpl. by exists a.
Qed.

End StoreFacts.

(** ** The users list *)

Section UsersListFacts.
Context `{Runtime}.
Import Redis.

Lemma names_of_values (m : list (string * User)) :
  Forall (λ kv : string * User, u_name kv.2 = kv.1) m →
  u_name <$> JsMap.values m = JsMap.keys m.
Proof.
  unfold JsMap.values, JsMap.keys. induction 1 as [|[k u] m Hk Hm IH]; [done|].
  rewrite !fmap_cons. simpl in *. rewrite Hk. by f_equal.
Qed.


(** X17: who is on the users list.  [sendUsersList] sends nothing until
    [getAllUsersWithLocations] has answered; it changes the store
    connection only and waits with the users found in the store.  The
    list it then sends has one entry for each of those users, in that
    order, and none for a user that is in the presence map only; on
    consistent maps the [connected] flag of an entry says whether its name
    is in the presence map at the moment the store has answered, which is
    the presence map of the request only if nothing was handled in
    between. *)
Theorem X17_users_list_flags_the_presence_map (ws : nat) (s : LocationServer) :
  sendUsersList_begin ws s
  = (with_redis (getAllUsersWithLocations (redis s)).2 s,
     ([], Some (after_getAllUsersWithLocations ws
                  (getAllUsersWithLocations (redis s)).1)))
  ∧ (∀ (allUsers : list User) (later : LocationServer),
        consistent later →
        resume (after_getAllUsersWithLocations ws allUsers) later =
        sendMessage later ws
          (users_list
             ((λ user, set_connected (JsMap.has (u_name user) (users later)) user)
                <$> allUsers)))
  ∧ (consistent s →
     (uninterrupted (sendUsersList_begin ws s)).2 =
     sendMessage s ws
       (users_list
          ((λ user, set_connected (JsMap.has (u_name user) (users s)) user)
             <$> (getAllUsersWithLocations (redis s)).1))).
Proof.
  assert (∀ (allUsers : list User) (later : LocationServer),
            consistent later →
            resume (after_getAllUsersWithLocations ws allUsers) later =
            sendMessage later ws
              (users_list
                 ((λ user,
                     set_connected (JsMap.has (u_name user) (users later)) user)
                    <$> allUsers))) as Hresume.
  { intros allUsers later (_ & _ & _ & _ & Hn). cbn [resume].
    rewrite (names_of_values _ Hn). do 2 f_equal. apply list_fmap_ext.
    intros i user _. f_equal.
    destruct (JsMap.has (u_name user) (users later)) eqn:Hhas.
    - apply bool_decide_eq_true. by apply has_elem_of_keys.
    - apply bool_decide_eq_false. intros Hin%has_elem_of_keys. congruence. }
  split_and!; [apply sendUsersList_begin_unfold|exact Hresume|].
  intros Hs. rewrite sendUsersList_begin_unfold. cbn [uninterrupted snd].
  rewrite app_nil_l.
  by rewrite (Hresume _ (with_redis (getAllUsersWithLocations (redis s)).2 s)).
Qed.

Lemma zRange_same db0 key min max options :
  link db0 = None → preserves (λ db, db = db0) (zRange key min max options).
Proof.
  intros Hup db ->. unfold zRange, command. rewrite Hup.
  destruct (keyspace db0 !! key) as [[z|h]|]; [|done|].
  all: by destruct (BY options) as [[|]|].
Qed.

Lemma hGetAll_same db0 key :
  link db0 = None → preserves (λ db, db = db0) (hGetAll key).
Proof.
  intros Hup db ->. unfold hGetAll, command. rewrite Hup.
  by destruct (keyspace db0 !! key) as [[z|h]|].
Qed.

Lemma getLatestUserLocation_same uname r :
  healthy r → (getLatestUserLocation uname r).2 = r.
Proof.
  intros [Hconn Hup]. unfold getLatestUserLocation. rewrite Hconn. simpl.
  assert (client (attempt
            (latestLocation ← zRange (locationKey uname) (-1) (-1) only_REV;
             match latestLocation with
             | [] => mret None
             | first :: _ =>
               userMetadata ← hGetAll (userKey uname);
               mret (Some (merge_metadata (JSON_parse first) userMetadata))
             end) None r).2 = client r) as Hsame.
  { apply (attempt_preserves (λ db, db = client r)); [|done].
    apply preserves_bind; [by apply zRange_same|intros [|first rest]].
    - apply preserves_ret.
    - apply preserves_bind; [by apply hGetAll_same|intros h]. apply preserves_ret. }
  pose proof (attempt_isConnected
    (latestLocation ← zRange (locationKey uname) (-1) (-1) only_REV;
     match latestLocation with
     | [] => mret None
     | first :: _ =>
       userMetadata ← hGetAll (userKey uname);
       mret (Some (merge_metadata (JSON_parse first) userMetadata))
     end) None r) as Hflag.
  destruct (attempt _ None r) as [a [c db]]. destruct r. simpl in *. congruence.
Qed.



End UsersListFacts.

(** ** An accepted update in the history *)

Section PersistFacts.
Context `{Runtime}.
Import Redis.

Lemma zinsert_last e z :
  Forall (λ x : Z * string, x.1 < e.1) z → zinsert e z = z ++ [e].
Proof.
  induction 1 as [|y z Hy Hz IH]; simpl; [done|].
  replace (entry_ltb e y) with false; [by rewrite IH|].
  symmetry. unfold entry_ltb. lia.
Qed.

Lemma zadd_last score member z :
  Forall (λ x : Z * string, x.1 < score) z →
  zadd score member z = filter (λ x, x.2 ≠ member) z ++ [(score, member)].
Proof.
  intros Hz. unfold zadd. apply zinsert_last. simpl.
  apply Forall_forall. intros x [_ Hx]%list_elem_of_filter.
  by eapply Forall_forall in Hz.
Qed.

Lemma trim_keeps_last {A} (l : list A) (p : A) :
  drop (length (l ++ [p]) - 100) (l ++ [p]) = drop (length l + 1 - 100) l ++ [p].
Proof.
  rewrite length_app. simpl. rewrite drop_app.
  replace (length l + 1 - 100 - length l)%nat with 0%nat by lia. done.
Qed.

(** X19: an accepted update is the first record of the user's history.
    When the store is in reach, its location keys hold sorted sets and
    every record it holds for the user was stored before [now], a
    [location_update] accepted at [now] leaves the service healthy, and a
    history query for the user, whatever its bounds, then starts with the
    record just written: the user object of the update, as [JSON.parse]
    reads its entry back. *)
Theorem X19_accepted_update_heads_the_history
    (now : Z) (ws : nat) (data : UpdateData) (s : LocationServer)
    (startTime endTime : option Z) :
  verdict now data s = None →
  healthy (redis s) →
  location_keys_are_sets (redis s) →
  Forall (λ x : Z * string, x.1 < now) (stored (redis s) (as_string (name data))) →
  healthy (redis (handleLocationUpdate now ws data s).1)
  ∧ ∃ older,
      (getUserLocationHistory (as_string (name data)) startTime endTime
         (redis (handleLocationUpdate now ws data s).1)).1
      = JSON_parse (locationEntry now (userData_of now data)) :: older.
Proof.
  intros Hok Hr Hsets Hbefore. rewrite (accepted_redis now ws data s Hok).
  destruct (storeUserLocation_healthy now (as_string (name data))
              (userData_of now data) (redis s) Hr) as [Hr' Hset].
  { intros h. apply Hsets, locationKey_prefix. }
  split; [done|].
  rewrite getUserLocationHistory_healthy; [|done|intros h; by rewrite Hset].
  simpl. rewrite (stored_lookup _ _ _ Hset).
  rewrite zadd_last by done. rewrite trim_keeps_last.
  rewrite reverse_app, fmap_app. simpl. by eexists.
Qed.

End PersistFacts.

(** ** The users the store lists *)

Section ListingFacts.
Context `{Runtime}.
Import Redis.

Lemma substring_all (s : string) : String.substring 0 (String.length s) s = s.
Proof. induction s as [|c s IH]; simpl; [done|]. by rewrite IH. Qed.

Lemma prefix_app (p s : string) : String.prefix p (p +:+ s) = true.
Proof.
  induction p as [|c p IH]; [by destruct s|].
  change (String c p +:+ s) with (String c (p +:+ s)). simpl.
  by destruct (Ascii.ascii_dec c c).
Qed.

Lemma substring_app (p s : string) :
  String.substring (String.length p) (String.length (p +:+ s) - String.length p)
                   (p +:+ s) = s.
Proof.
  induction p as [|c p IH].
  - change ("" +:+ s) with s. simpl. rewrite Nat.sub_0_r. apply substring_all.
  - change (String c p +:+ s) with (String c (p +:+ s)). simpl. apply IH.
Qed.

(** [replace] cuts a prefix out of the string that starts with it. *)
Lemma remove_first_app (p s : string) : remove_first p (p +:+ s) = s.
Proof.
  pose proof (prefix_app p s) as Hp. pose proof (substring_app p s) as Hs.
  revert Hp Hs. generalize (p +:+ s). intros k Hp Hs.
  destruct k as [|c k].
  - destruct p; [exact Hs|discriminate Hp].
  - cbn [remove_first]. rewrite Hp. exact Hs.
Qed.

(** Cutting the pattern's prefix out of a location key gives the username
    back. *)
Lemma remove_first_locationKey uname :
  remove_first (Config.keyPrefix +:+ "locations:") (locationKey uname) = uname.
Proof.
  change (locationKey uname)
    with ((Config.keyPrefix +:+ "locations:") +:+ uname).
  apply remove_first_app.
Qed.

Lemma collect_healthy r (locationKeys : list string) (acc : list User) :
  healthy r →
  foldl (fun acc locationKey =>
           let username :=
             remove_first (Config.keyPrefix +:+ "locations:") locationKey in
           let '(userData, r') := getLatestUserLocation username acc.2 in
           match userData with
           | Some u => (acc.1 ++ [u], r')
           | None => (acc.1, r')
           end)
        (acc, r) locationKeys
  = (acc ++ omap (λ k, (getLatestUserLocation
                          (remove_first (Config.keyPrefix +:+ "locations:") k) r).1)
                 locationKeys, r).
Proof.
  intros Hr. revert acc.
  induction locationKeys as [|k l IH]; intros acc; simpl; [by rewrite app_nil_r|].
  pose proof (getLatestUserLocation_same
                (remove_first (Config.keyPrefix +:+ "locations:") k) r Hr) as Hsame.
  destruct (getLatestUserLocation _ r) as [[u|] r1]; simpl in *; subst r1.
  - by rewrite IH, <- app_assoc.
  - by rewrite IH.
Qed.

(** On a healthy service the list is made of the latest locations of the
    usernames cut out of the matching keys; a key without one is skipped. *)
Lemma getAllUsersWithLocations_healthy r :
  healthy r →
  getAllUsersWithLocations r =
  (omap (λ k, (getLatestUserLocation
                 (remove_first (Config.keyPrefix +:+ "locations:") k) r).1)
        (filter (λ k, String.prefix (Config.keyPrefix +:+ "locations:") k = true)
                (map_to_list (keyspace (client r))).*1), r).
Proof.
  intros Hr. pose proof Hr as [Hconn Hup].
  unfold getAllUsersWithLocations. rewrite Hconn. simpl.
  unfold keys, command. rewrite Hup, with_client_same.
  by rewrite collect_healthy.
Qed.

(** X20: a user with a completed append is listed.  After
    [storeUserLocation] has answered true on a service whose connection
    stays up, [getAllUsersWithLocations] leaves the service as it is and
    lists the latest location of that user, under the name just written,
    next to the latest location of every other username that has one. *)
Theorem X20_stored_user_is_listed
    (now : Z) (uname : string) (d : User) (r r' : RedisService) :
  healthy r →
  storeUserLocation now uname d r = (true, r') →
  (getAllUsersWithLocations r').2 = r'
  ∧ (∀ x, x ∈ (getAllUsersWithLocations r').1 →
          ∃ other, (getLatestUserLocation other r').1 = Some x)
  ∧ ∃ x, (getLatestUserLocation uname r').1 = Some x
         ∧ u_name x = u_name d
         ∧ x ∈ (getAllUsersWithLocations r').1.
Proof.
  intros Hr Hrun.
  destruct (completed_append_keys now uname d r r' Hr Hrun)
    as (Hr' & (x & z & Hloc) & (a & h0 & Huser & _)).
  rewrite (getAllUsersWithLocations_healthy r' Hr'). simpl.
  split_and!; [done| |].
  - intros y (k & _ & Hy)%list_elem_of_omap. by eexists.
  - pose proof (getLatestUserLocation_healthy uname r' x z Hr' Hloc) as Hlatest.
    rewrite Huser in Hlatest. rewrite Hlatest by done.
    eexists. split_and!; [done| |].
    + unfold merge_metadata, hset. simpl.
      by rewrite lookup_insert_ne, lookup_insert_eq.
    + apply list_elem_of_omap. exists (locationKey uname). split.
      * apply list_elem_of_filter. split; [apply locationKey_prefix|].
        apply list_elem_of_fmap. exists (locationKey uname, VZSet (x :: z)).
        split; [done|]. by apply elem_of_map_to_list.
      * rewrite remove_first_locationKey. by rewrite Hlatest.
Qed.

End ListingFacts.

(** ** The rate limiter along a run *)

Section RateLimitRuns.
Context `{Runtime}.

(** A handler changes the maps before it waits and not after: with other
    events handled while handlers wait, the state is the state of the run
    of the events alone. *)
Lemma step_begin_state now e s : (step_begin now e s).1 = (step now e s).1.
Proof.
  destruct e as [ws|ws [| |m]|ws|]; try done; cbn [step step_begin].
  - unfold open, open_begin, sendUsersList, uninterrupted.
    by destruct (sendUsersList_begin ws _) as [s2 [sent [w|]]].
  - cbn [message message_begin].
    destruct m as [data|d| |u st en| |]; try done;
      cbn [handleMessage handleMessage_begin].
    + unfold handleLocationUpdate, uninterrupted.
      by destruct (handleLocationUpdate_begin now ws data s) as [s2 [sent [w|]]].
    + by destruct (handleUserDisconnectRequest ws d s).
    + unfold sendUsersList, uninterrupted.
      by destruct (sendUsersList_begin ws s) as [s2 [sent [w|]]].
    + unfold handleLocationHistoryRequest, uninterrupted.
      by destruct (handleLocationHistoryRequest_begin ws u st en s)
        as [s2 [sent [w|]]].
Qed.

Lemma occurs_server os a :
  server (occurs os a).1 = (run (arrivals os) (server a)).1.
Proof.
  revert a. induction os as [|o os IH]; intros a; [done|].
  cbn [occurs]. destruct (occur o a) as [a1 sent1] eqn:Ho.
  specialize (IH a1). destruct (occurs os a1) as [a2 sent2]. cbn [fst] in *.
  rewrite IH. clear IH. destruct o as [now e|i].
  - change (arrivals (Arrives now e :: os)) with ((now, e) :: arrivals os).
    cbn [run occur] in *.
    pose proof (step_begin_state now e (server a)) as Hb.
    destruct (step_begin now e (server a)) as [s' [sent w]].
    injection Ho as <- <-. cbn [server fst] in *. subst s'.
    destruct (step now e (server a)) as [s1 sent1']. cbn [fst].
    by destruct (run (arrivals os) s1).
  - change (arrivals (Answered i :: os)) with (arrivals os).
    cbn [occur] in Ho. destruct (waiting a !! i); by injection Ho as <- <-.
Qed.

Lemma disconnect_entry uname n s :
  JsMap.get uname (userRateLimit (handleUserDisconnect n s)) = None ∧ n = uname
  ∨ JsMap.get uname (userRateLimit (handleUserDisconnect n s))
    = JsMap.get uname (userRateLimit s).
Proof.
  unfold handleUserDisconnect. destruct (JsMap.get n (users s)); [|by right].
  cbn [userRateLimit]. destruct (decide (n = uname)) as [->|Hne].
  - left. by rewrite get_delete_eq.
  - right. by rewrite get_delete_ne.
Qed.

Lemma close_entry uname ws s :
  JsMap.get uname (userRateLimit (close ws s)) = None
  ∧ username (socket s ws) = Some uname
  ∨ JsMap.get uname (userRateLimit (close ws s))
    = JsMap.get uname (userRateLimit s).
Proof.
  unfold close. destruct (username (socket s ws)) as [n|]; [|by right].
  destruct (disconnect_entry uname n
              (with_sockets (<[ws := {| username := Some n; is_open := false |}]>
                               (sockets s)) s)) as [[Hgone ->]|Hsame].
  - by left.
  - by right.
Qed.

(** An event leaves the rate-limit entry of a username as it is, or sets
    it to the time of the event, or removes the username. *)
Lemma rate_entry_step uname now e s :
  JsMap.get uname (userRateLimit (step now e s).1) = None ∧ removes uname now e s
  ∨ JsMap.get uname (userRateLimit (step now e s).1) = Some now
  ∨ JsMap.get uname (userRateLimit (step now e s).1)
    = JsMap.get uname (userRateLimit s).
Proof.
  destruct e as [ws|ws [| |m]|ws|]; cbn [step message removes].
  - right. right. by rewrite open_state.
  - by right; right.
  - by right; right.
  - destruct m as [data|d| |u st en| |]; cbn [handleMessage].
    + right. destruct (verdict now data s) as [c|] eqn:Hv.
      * right. by rewrite (handleLocationUpdate_rejected _ _ _ _ _ Hv).
      * rewrite (accepted_userRateLimit _ _ _ _ Hv).
        destruct (decide (as_string (name data) = uname)) as [<-|Hne].
        -- left. by rewrite get_set_eq.
        -- right. by rewrite get_set_ne.
    + unfold handleUserDisconnectRequest.
      destruct (negb (truthy d)); [by right; right|].
      destruct d as [| | | |n|], (username (socket s ws)) as [bound|] eqn:Hb;
        try (by right; right).
      destruct (decide (bound = n)) as [->|Hne]; [|by right; right]. cbn [fst].
      destruct (close_entry uname ws (handleUserDisconnect n s))
        as [[Hgone Hbound]|Hsame].
      * left. split; [done|]. unfold socket in Hbound, Hb.
        rewrite handleUserDisconnect_sockets, Hb in Hbound.
        by injection Hbound as ->.
      * rewrite Hsame.
        destruct (disconnect_entry uname n s) as [[Hgone ->]|Hsame'].
        -- left. by rewrite Hgone.
        -- by right; right.
    + right. right. by rewrite sendUsersList_userRateLimit.
    + right. right. by rewrite history_userRateLimit.
    + by right; right.
    + by right; right.
  - destruct (close_entry uname ws s) as [[Hgone Hbound]|Hsame].
    + by left.
    + by right; right.
  - rewrite cleanup_unfold. cbn [userRateLimit fst]. rewrite get_filter_names.
    destruct (decide (uname ∉ staleUsers now s)) as [Hin|Hin].
    + by right; right.
    + left. split; [done|]. by apply dec_stable.
Qed.

(** After an update for [uname] taken at [lo], and as long as [uname]
    keeps its entry, the map records for [uname] a time that is not before
    [lo]. *)
Lemma entry_kept_record lo uname trace s :
  Forall (λ te : Z * Event, lo ≤ te.1) trace →
  entry_kept uname trace s = true →
  (∃ T, JsMap.get uname (userRateLimit s) = Some T ∧ lo ≤ T) →
  ∃ T, JsMap.get uname (userRateLimit (run trace s).1) = Some T ∧ lo ≤ T.
Proof.
  intros Htrace. revert s.
  induction Htrace as [|[t e] trace Ht _ IH]; intros s Hkept Hs; [done|].
  cbn [entry_kept] in Hkept. apply andb_prop in Hkept as [Hhas Hkept].
  assert ((run ((t, e) :: trace) s).1 = (run trace (step t e s).1).1) as ->.
  { cbn [run]. destruct (step t e s) as [s1 sent1]. cbn [fst].
    by destruct (run trace s1). }
  apply IH; [done|]. destruct Hs as (T & HT & Hlo).
  destruct (rate_entry_step uname t e s) as [[Hgone _]|[Hnow|Hsame]].
  - unfold JsMap.has in Hhas. by rewrite Hgone in Hhas.
  - exists t. split; [done|]. simpl in Ht. lia.
  - exists T. by rewrite Hsame.
Qed.

Lemma rate_limited_begin now ws data s :
  validateLocationData now data = Valid →
  isRateLimited now (as_string (name data)) s = true →
  handleLocationUpdate_begin now ws data s
  = (s, (sendError s ws RATE_LIMITED, None)).
Proof.
  intros Hv Hr. apply rejected_begin. by apply verdict_RATE_LIMITED.
Qed.

(** C8, as the code has it: on an open connection a valid
    [location_update] is answered with [RATE_LIMITED], and changes
    nothing, exactly when the rate-limit map holds a time for its username
    that is less than 2000 ms before now; without an entry it is never
    answered so.  An update that is taken records its time.  From then
    on, whatever events are handled in between, as long as the username
    keeps its entry in the rate-limit map after each of them, a second
    update for the username is taken no earlier than 2000 ms after the
    first, and a valid one that comes earlier (500 ms later, say) is
    turned down with [RATE_LIMITED] and changes nothing.  The username
    loses its entry only when it is removed: by its own [user_disconnect],
    by the closing of its connection, or by a cleanup that finds it
    stale; events of other users never take it. *)
Theorem C8_rate_limit_by_recorded_acceptance
    (now : Z) (ws : nat) (data : UpdateData) (s : LocationServer) :
  validateLocationData now data = Valid →
  is_open (socket s ws) = true →
  (handleLocationUpdate_begin now ws data s
   = (s, ([(ws, error RATE_LIMITED)], None)) ↔
   ∃ t, JsMap.get (as_string (name data)) (userRateLimit s) = Some t
        ∧ t ≠ 0 ∧ now - t < 2000)
  ∧ (JsMap.get (as_string (name data)) (userRateLimit s) = None →
     (ws, error RATE_LIMITED) ∉ (handleLocationUpdate now ws data s).2)
  ∧ (takes now ws data s →
     JsMap.get (as_string (name data))
               (userRateLimit (handleLocationUpdate_begin now ws data s).1)
     = Some now)
  ∧ (0 < now → takes now ws data s →
     ∀ (trace : list (Z * Event)) (now' : Z) (ws' : nat) (data' : UpdateData),
       Forall (λ te : Z * Event, now ≤ te.1) trace →
       entry_kept (as_string (name data)) trace
                  (handleLocationUpdate_begin now ws data s).1 = true →
       name data' = name data →
       let s2 := (run trace (handleLocationUpdate_begin now ws data s).1).1 in
       (takes now' ws' data' s2 → now + 2000 ≤ now')
       ∧ (validateLocationData now' data' = Valid → now' < now + 2000 →
          handleLocationUpdate_begin now' ws' data' s2
          = (s2, (sendError s2 ws' RATE_LIMITED, None))
          ∧ (is_open (socket s2 ws') = true →
             handleLocationUpdate now' ws' data' s2
             = (s2, [(ws', error RATE_LIMITED)]))))
  ∧ (∀ (uname : string) (t : Z) (e : Event) (st : LocationServer),
       JsMap.has uname (userRateLimit st) = true →
       JsMap.has uname (userRateLimit (step t e st).1) = false →
       removes uname t e st)
  ∧ (∀ uname, JsMap.has uname (users s) = true →
     JsMap.get uname (userRateLimit (handleUserDisconnect uname s)) = None).
Proof.
  intros Hv Hopen.
  split_and!; [..|intros uname Hu; apply handleUserDisconnect_forgets, Hu].
  - rewrite <- isRateLimited_spec. split.
    + intros Hb. destruct (isRateLimited now _ s) eqn:Hr; [done|].
      destruct (verdict now data s) as [c|] eqn:Hverdict.
      * rewrite (rejected_begin _ _ _ _ c Hverdict), (sendError_open s ws _ Hopen) in Hb.
        injection Hb as ->. apply (verdict_RATE_LIMITED _ _ _ Hv) in Hverdict.
        congruence.
      * by rewrite (accepted_begin _ _ _ _ Hverdict) in Hb.
    + intros Hr. by rewrite (rate_limited_begin _ _ _ _ Hv Hr), sendError_open.
  - intros Hnone Hin.
    destruct (verdict now data s) as [c|] eqn:Hverdict.
    + rewrite (handleLocationUpdate_rejected _ _ _ _ c Hverdict),
        (sendError_open s ws _ Hopen) in Hin.
      apply list_elem_of_singleton in Hin. injection Hin as <-.
      apply (verdict_RATE_LIMITED _ _ _ Hv), isRateLimited_spec in Hverdict.
      destruct Hverdict as (t & Ht & _). congruence.
    + rewrite (accepted_sent now ws data s Hverdict), broadcastToOthers_filter in Hin.
      apply list_elem_of_fmap in Hin as (c & Hc & _). done.
  - intros Hok%takes_verdict. rewrite (accepted_begin _ _ _ _ Hok). cbn [fst].
    by rewrite (accepted_userRateLimit _ _ _ _ Hok), get_set_eq.
  - intros Hpos Hok%takes_verdict trace now' ws' data' Htrace Hkept Hname s2.
    destruct (entry_kept_record now (as_string (name data)) trace
                (handleLocationUpdate_begin now ws data s).1 Htrace Hkept)
      as (T & HT & Hlo).
    { exists now. rewrite (accepted_begin _ _ _ _ Hok). cbn [fst].
      by rewrite (accepted_userRateLimit _ _ _ _ Hok), get_set_eq. }
    fold s2 in HT. split.
    + intros Hok'%takes_verdict. apply verdict_None_not_limited in Hok'.
      rewrite Hname in Hok'. unfold isRateLimited in Hok'. rewrite HT in Hok'.
      unfold Config.locationUpdateInterval in Hok'.
      destruct (T =? 0) eqn:HT0; lia.
    + intros Hv' Hsoon.
      assert (isRateLimited now' (as_string (name data')) s2 = true) as Hr.
      { rewrite isRateLimited_spec, Hname. exists T. split_and!; [done|lia..]. }
      split; [by apply rate_limited_begin|]. intros Hopen'.
      rewrite (handleLocationUpdate_rejected _ _ _ _ RATE_LIMITED).
      * by rewrite sendError_open.
      * by apply verdict_RATE_LIMITED.
  - intros uname t e st Hhad Hlost. unfold JsMap.has in *.
    destruct (rate_entry_step uname t e st) as [[_ Hrem]|[Hnow|Hsame]]; [done|..].
    + by rewrite Hnow in Hlost.
    + rewrite Hsame in Hlost. by destruct (JsMap.get uname (userRateLimit st)).
Qed.

(** X21: the user limit counts the presence map.  A valid
    [location_update] that is not rate limited and whose username is not
    in the presence map is turned down with [USER_LIMIT_EXCEEDED], with
    nothing changed and nothing asked of the store, exactly when the
    presence map already holds 100 usernames or more; one whose username
    is in the map, or that finds fewer than 100 usernames, is taken.  An
    update of a new username that is taken makes the map one larger, and
    one of a username in the map leaves its size. *)
Theorem X21_user_limit_counts_the_presence_map
    (now : Z) (ws : nat) (data : UpdateData) (s : LocationServer) :
  validateLocationData now data = Valid →
  isRateLimited now (as_string (name data)) s = false →
  (JsMap.has (as_string (name data)) (users s) = false →
   (handleLocationUpdate_begin now ws data s
    = (s, (sendError s ws USER_LIMIT_EXCEEDED, None)) ↔
    100 ≤ JsMap.size (users s)))
  ∧ (JsMap.has (as_string (name data)) (users s) = true
     ∨ JsMap.size (users s) < 100 → takes now ws data s)
  ∧ (takes now ws data s →
     let s' := (handleLocationUpdate_begin now ws data s).1 in
     (NoDup (JsMap.keys (users s)) → NoDup (JsMap.keys (users s')))
     ∧ JsMap.size (users s') =
       JsMap.size (users s)
       + (if JsMap.has (as_string (name data)) (users s) then 0 else 1)).
Proof.
  intros Hv Hr. split_and!.
  - intros Hnew. unfold handleLocationUpdate_begin. rewrite Hv, Hr, Hnew.
    cbn [negb andb]. unfold Config.maxUsers.
    destruct (JsMap.size (users s) >=? 100) eqn:E.
    + split; [lia|done].
    + split; [done|lia].
  - intros Hroom. apply takes_verdict. unfold verdict. rewrite Hv, Hr.
    destruct Hroom as [->|Hroom]; [done|]. unfold Config.maxUsers.
    destruct (JsMap.size (users s) >=? 100) eqn:E; [lia|].
    by rewrite andb_false_r.
  - intros Hok%takes_verdict. rewrite (accepted_begin _ _ _ _ Hok). cbn [fst].
    rewrite (accepted_users _ _ _ _ Hok). split.
    + apply NoDup_keys_set.
    + destruct (JsMap.has _ (users s)) eqn:Hhas.
      * rewrite size_set_old by done. lia.
      * by rewrite size_set_new.
Qed.

End RateLimitRuns.

(** ** The further properties on the scenarios *)

Section FurtherScenarios.
Import Host Scenario.

Lemma consistent_alice_online : consistent alice_online.
Proof.
  unfold consistent. split_and!.
  - refine (bool_decide_unpack _ _). vm_compute. exact I.
  - refine (bool_decide_unpack _ _). vm_compute. exact I.
  - vm_compute. reflexivity.
  - refine (bool_decide_unpack _ _). vm_compute. exact I.
  - refine (bool_decide_unpack _ _). vm_compute. exact I.
Defined.

Lemma consistent_bob_listening : consistent (initial_bob_listening up).
Proof.
  unfold consistent. split_and!.
  - refine (bool_decide_unpack _ _). vm_compute. exact I.
  - refine (bool_decide_unpack _ _). vm_compute. exact I.
  - vm_compute. reflexivity.
  - refine (bool_decide_unpack _ _). vm_compute. exact I.
  - refine (bool_decide_unpack _ _). vm_compute. exact I.
Defined.

Lemma location_keys_are_sets_up : location_keys_are_sets up.
Proof. intros k h _. simpl. by rewrite lookup_empty. Defined.

Lemma location_keys_are_sets_alice_twice : location_keys_are_sets alice_twice.
Proof.
  change alice_twice with
    (storeUserLocation 3500 "alice" (user "alice" 38 (-122) 3500)
       (storeUserLocation 1000 "alice" (user "alice" 37 (-122) 1000) up).2).2.
  apply storeUserLocation_location_sets, storeUserLocation_location_sets,
    location_keys_are_sets_up.
Defined.

Lemma healthy_alice_twice : healthy alice_twice.
Proof. split; vm_compute; reflexivity. Defined.

(** X1 on alice, who is in the presence map, and bob, who is not. *)
Lemma X1_witness :
  JsMap.has "alice" (users alice_online) = true
  ∧ JsMap.has "bob" (users alice_online) = false
  ∧ JsMap.get "alice" (users (handleUserDisconnect "alice" alice_online)) = None
  ∧ handleUserDisconnect "bob" alice_online = alice_online.
Proof.
  assert (JsMap.has "alice" (users alice_online) = true) as Hin
    by (vm_compute; reflexivity).
  assert (JsMap.has "bob" (users alice_online) = false) as Hout
    by (vm_compute; reflexivity).
  destruct (X1_handleUserDisconnect_removes_one_user "alice" alice_online)
    as (Hgone & _).
  destruct (X1_handleUserDisconnect_removes_one_user "bob" alice_online)
    as (_ & Hnoop & _).
  split_and!; [exact Hin|exact Hout|exact (proj1 (Hgone Hin))|exact (Hnoop Hout)].
Defined.

(** X3 on alice's first update while bob listens on connection 1:
    nothing is sent at once, and when connection 3 has opened and
    registered carol before the store answers, the update goes to bob and
    to carol. *)
Lemma X3_witness :
  verdict 2000 (data "alice" 37 (-122)) (initial_bob_listening up) = None
  ∧ (handleLocationUpdate_begin 2000 2 (data "alice" 37 (-122))
                                (initial_bob_listening up)).2.1 = []
  ∧ resume (after_storeUserLocation "alice" (userData_of 2000 (data "alice" 37 (-122))))
           (run [(2050, Opened 3%nat);
                 (2100, Received 3%nat (location_update (data "carol" 10 20)))]
                (handleLocationUpdate_begin 2000 2 (data "alice" 37 (-122))
                                            (initial_bob_listening up)).1).1
    = [(1%nat, user_location (userData_of 2000 (data "alice" 37 (-122))));
       (3%nat, user_location (userData_of 2000 (data "alice" 37 (-122))))]
  ∧ (handleLocationUpdate 2000 2 (data "alice" 37 (-122)) (initial_bob_listening up)).2
    = [(1%nat, user_location (userData_of 2000 (data "alice" 37 (-122))))].
Proof.
  assert (verdict 2000 (data "alice" 37 (-122)) (initial_bob_listening up) = None)
    as Hv by (vm_compute; reflexivity).
  destruct (X3_accepted_update_is_sent_to_the_others 2000 2 _ _ Hv)
    as (Hbegin & Hresume & Halone).
  split_and!; [exact Hv|by rewrite Hbegin| |].
  - etrans; [exact (Hresume _)|]. vm_compute. reflexivity.
  - etrans; [exact Halone|]. vm_compute. reflexivity.
Defined.

(** The same run event by event: alice's handler waits for the store
    while connection 3 opens and registers carol; the store then answers
    alice's handler first, and her update goes to bob and to carol. *)
Example update_sent_after_the_store_answers :
  (occurs [Arrives 2000 (Received 2%nat (location_update (data "alice" 37 (-122))));
           Arrives 2050 (Opened 3%nat);
           Arrives 2100 (Received 3%nat (location_update (data "carol" 10 20)));
           Answered 0]
          {| server := initial_bob_listening up; waiting := [] |}).2
  = [(3%nat, connected);
     (1%nat, user_location (userData_of 2000 (data "alice" 37 (-122))));
     (3%nat, user_location (userData_of 2000 (data "alice" 37 (-122))))].
Proof. by vm_compute. Qed.

(** X9 on alice's connection: a disconnect that names alice, and one
    without a name. *)
Lemma X9_witness :
  username (socket alice_online 1) = Some "alice"
  ∧ (handleUserDisconnectRequest 1 (JStr "alice") alice_online).2 = []
  ∧ JsMap.get "alice"
      (users (handleUserDisconnectRequest 1 (JStr "alice") alice_online).1) = None
  ∧ (handleUserDisconnectRequest 1 JNull alice_online).2
    = [(1%nat, error INVALID_DISCONNECT)].
Proof.
  assert (username (socket alice_online 1) = Some "alice") as Hbound
    by (vm_compute; reflexivity).
  destruct (X9_disconnect_request_outcomes 1 (JStr "alice") alice_online)
    as (_ & Hauthorized & _).
  destruct (X9_disconnect_request_outcomes 1 JNull alice_online) as (Hinvalid & _).
  split_and!; [exact Hbound|..].
  - exact (f_equal snd (Hauthorized "alice" eq_refl eq_refl Hbound)).
  - etrans; [exact (f_equal (λ out, JsMap.get "alice" (users out.1))
                      (Hauthorized "alice" eq_refl eq_refl Hbound))|].
    vm_compute. reflexivity.
  - etrans; [exact (f_equal snd (Hinvalid eq_refl))|]. vm_compute. reflexivity.
Defined.

(** X4 on alice's session followed by a disconnect and a new user. *)
Lemma X4_witness :
  JsMap.size (users alice_online) ≤ Config.maxUsers
  ∧ JsMap.size
      (users (run [(1100, Received 1%nat (user_disconnect (JStr "alice")));
                   (1200, Opened 2%nat);
                   (1300, Received 2%nat (location_update (data "bob" 10 20)))]
                  alice_online).1)
    ≤ Config.maxUsers.
Proof.
  assert (JsMap.size (users alice_online) ≤ Config.maxUsers) as Hsize
    by (vm_compute; discriminate).
  split; [exact Hsize|].
  exact (X4_presence_map_stays_within_the_limit _ alice_online Hsize).
Defined.

(** X5 on alice, whose only update is 39 seconds old at the sweep. *)
Lemma X5_witness :
  consistent alice_online
  ∧ users (cleanup 40000 alice_online) = []
  ∧ JsMap.get "alice" (connections (cleanup 40000 alice_online)) = None
  ∧ sockets (cleanup 40000 alice_online) = sockets alice_online.
Proof.
  destruct (X5_cleanup_sweeps_the_stale_users 40000 alice_online consistent_alice_online)
    as (Husers & Hentries & Hsockets & _).
  split_and!; [exact consistent_alice_online| | |exact Hsockets].
  - etrans; [exact Husers|]. vm_compute. reflexivity.
  - etrans; [exact (proj1 (Hentries "alice"))|]. vm_compute. reflexivity.
Defined.

(** X6 on alice's update at 2000 and sweeps 18 and 38 seconds later. *)
Lemma X6_witness :
  consistent (initial_bob_listening up)
  ∧ verdict 2000 (data "alice" 37 (-122)) (initial_bob_listening up) = None
  ∧ JsMap.get "alice"
      (users (cleanup 20000
                (handleLocationUpdate 2000 2 (data "alice" 37 (-122))
                                      (initial_bob_listening up)).1))
    = Some (userData_of 2000 (data "alice" 37 (-122)))
  ∧ JsMap.get "alice"
      (users (cleanup 40000
                (handleLocationUpdate 2000 2 (data "alice" 37 (-122))
                                      (initial_bob_listening up)).1))
    = None.
Proof.
  assert (verdict 2000 (data "alice" 37 (-122)) (initial_bob_listening up) = None)
    as Hv by (vm_compute; reflexivity).
  split_and!; [exact consistent_bob_listening|exact Hv|..].
  - etrans; [exact (proj1 (X6_sweep_after_an_accepted_update 2000 20000 2 _ _
                             consistent_bob_listening Hv))|].
    vm_compute. reflexivity.
  - etrans; [exact (proj1 (X6_sweep_after_an_accepted_update 2000 40000 2 _ _
                             consistent_bob_listening Hv))|].
    vm_compute. reflexivity.
Defined.


(** X12 on an update for carol from alice's connection, with the store in
    reach and out of reach. *)
Lemma X12_witness :
  memory_only (Received 1%nat (location_update (data "carol" 1 2))) = true
  ∧ same_memory alice_online (with_redis down alice_online)
  ∧ (step_begin 1500 (Received 1%nat (location_update (data "carol" 1 2)))
                (with_redis down alice_online)).2
    = (step_begin 1500 (Received 1%nat (location_update (data "carol" 1 2)))
                  alice_online).2.
Proof.
  assert (same_memory alice_online (with_redis down alice_online)) as Hsame by done.
  split_and!; [reflexivity|exact Hsame|].
  exact (proj1 (proj2 (X12_memory_events_ignore_the_store 1500
                         (Received 1%nat (location_update (data "carol" 1 2)))
                         alice_online (with_redis down alice_online)
                         eq_refl Hsame))).
Defined.

(** X13 on the first append to an empty store. *)
Lemma X13_witness :
  location_keys_are_sets up
  ∧ location_keys_are_sets
      (storeUserLocation 1000 "alice" (user "alice" 37 (-122) 1000) up).2
  ∧ location_keys_are_sets (removeUser "alice" up).2.
Proof.
  destruct (X13_location_keys_stay_sorted_sets up location_keys_are_sets_up)
    as (Hstore & Hremove & _).
  split_and!; [exact location_keys_are_sets_up|apply Hstore|apply Hremove].
Defined.

(** X14 on alice's two records, swept two seconds after the first has
    reached the TTL. *)
Lemma X14_witness :
  healthy alice_twice
  ∧ location_keys_are_sets alice_twice
  ∧ stored (cleanupOldEntries 604802000 alice_twice) "alice"
    = [(3500, "38|-122|alice|3500")].
Proof.
  destruct (X14_cleanupOldEntries_drops_what_is_older_than_the_TTL 604802000 alice_twice
              healthy_alice_twice location_keys_are_sets_alice_twice)
    as (_ & _ & Hstored).
  split_and!; [exact healthy_alice_twice|exact location_keys_are_sets_alice_twice|].
  etrans; [exact (Hstored "alice")|]. vm_compute. reflexivity.
Defined.

(** X15 on alice's two records. *)
Lemma X15_witness :
  healthy alice_twice
  ∧ (removeUser "alice" alice_twice).1 = true
  ∧ (getLatestUserLocation "alice" (removeUser "alice" alice_twice).2).1 = None
  ∧ (userExists "alice" (removeUser "alice" alice_twice).2).1 = false.
Proof.
  destruct (X15_removeUser_forgets_the_user "alice" alice_twice healthy_alice_twice)
    as (Hanswer & _ & _ & Hlatest & _ & Hexists & _).
  split_and!; [exact healthy_alice_twice|exact Hanswer|..].
  - exact (f_equal fst Hlatest).
  - exact (f_equal fst Hexists).
Defined.

(** X16 on the first append for alice. *)
Lemma X16_witness :
  healthy up
  ∧ (storeUserLocation 1000 "alice" (user "alice" 37 (-122) 1000) up).1 = true
  ∧ (userExists "alice"
       (storeUserLocation 1000 "alice" (user "alice" 37 (-122) 1000) up).2).1 = true.
Proof.
  assert (healthy up) as Hup by done.
  assert (storeUserLocation 1000 "alice" (user "alice" 37 (-122) 1000) up
          = (true, (storeUserLocation 1000 "alice" (user "alice" 37 (-122) 1000) up).2))
    as Hdone by (vm_compute; reflexivity).
  split_and!; [exact Hup|exact (f_equal fst Hdone)|].
  exact (f_equal fst (proj1 (X16_completed_append_is_read_back 1000 "alice" _ up _
                               Hup Hdone))).
Defined.

(** X17 on alice's connection asking for the users, the store answering
    with alice and bob. *)
Lemma X17_witness :
  consistent alice_online
  ∧ resume (after_getAllUsersWithLocations 1
              [user "alice" 37 (-122) 1000; user "bob" 10 20 900])
           alice_online
    = [(1%nat, users_list [set_connected true (user "alice" 37 (-122) 1000);
                           set_connected false (user "bob" 10 20 900)])].
Proof.
  split; [exact consistent_alice_online|].
  etrans; [exact (proj1 (proj2 (X17_users_list_flags_the_presence_map 1 alice_online))
                    _ alice_online consistent_alice_online)|].
  vm_compute. reflexivity.
Defined.


(** X19 on a third update for alice, at 5000, on a server that has just
    started on alice's two records. *)
Lemma X19_witness :
  verdict 5000 (data "alice" 39 (-122)) (initial alice_twice) = None
  ∧ healthy alice_twice
  ∧ location_keys_are_sets alice_twice
  ∧ Forall (λ x : Z * string, x.1 < 5000) (stored alice_twice "alice")
  ∧ ∃ older,
      (getUserLocationHistory "alice" None None
         (redis (handleLocationUpdate 5000 1 (data "alice" 39 (-122))
                                      (initial alice_twice)).1)).1
      = user "alice" 39 (-122) 5000 :: older.
Proof.
  assert (verdict 5000 (data "alice" 39 (-122)) (initial alice_twice) = None) as Hv
    by (vm_compute; reflexivity).
  assert (Forall (λ x : Z * string, x.1 < 5000) (stored alice_twice "alice")) as Hbefore
    by (refine (bool_decide_unpack _ _); vm_compute; exact I).
  split_and!; [exact Hv|exact healthy_alice_twice
              |exact location_keys_are_sets_alice_twice|exact Hbefore|].
  destruct (X19_accepted_update_heads_the_history 5000 1 (data "alice" 39 (-122))
              (initial alice_twice) None None Hv healthy_alice_twice
              location_keys_are_sets_alice_twice Hbefore) as (_ & older & Hhistory).
  exists older. etrans; [exact Hhistory|]. vm_compute. reflexivity.
Defined.

(** X20 on a first append for bob to the store that holds alice's two
    records. *)
Lemma X20_witness :
  healthy alice_twice
  ∧ (storeUserLocation 5000 "bob" (user "bob" 10 20 5000) alice_twice).1 = true
  ∧ ∃ x, x ∈ (getAllUsersWithLocations
                (storeUserLocation 5000 "bob" (user "bob" 10 20 5000) alice_twice).2).1
         ∧ u_name x = "bob".
Proof.
  assert (storeUserLocation 5000 "bob" (user "bob" 10 20 5000) alice_twice
          = (true, (storeUserLocation 5000 "bob" (user "bob" 10 20 5000)
                                      alice_twice).2)) as Hdone
    by (vm_compute; reflexivity).
  destruct (X20_stored_user_is_listed 5000 "bob" _ alice_twice _
              healthy_alice_twice Hdone) as (_ & _ & x & _ & Hname & Hin).
  split_and!; [exact healthy_alice_twice|exact (f_equal fst Hdone)|].
  exists x. split; [exact Hin|exact Hname].
Defined.

(** C8 on a second update for alice 500 ms after the first.  In between
    a second connection opens, registers bob, the cleanup timer fires and
    the second connection closes, which removes bob and leaves alice's
    entry. *)
Lemma C8_witness :
  validateLocationData 1000 (data "alice" 37 (-122)) = Valid
  ∧ is_open (socket (open 1 (initial up)).1 1) = true
  ∧ takes 1000 1 (data "alice" 37 (-122)) (open 1 (initial up)).1
  ∧ entry_kept "alice"
      [(1100, Opened 2%nat);
       (1200, Received 2%nat (location_update (data "bob" 10 20)));
       (1300, Tick);
       (1400, Closed 2%nat)]
      (handleLocationUpdate_begin 1000 1 (data "alice" 37 (-122))
                                  (open 1 (initial up)).1).1 = true
  ∧ (handleLocationUpdate 1500 1 (data "alice" 38 (-122))
       (run [(1100, Opened 2%nat);
             (1200, Received 2%nat (location_update (data "bob" 10 20)));
             (1300, Tick);
             (1400, Closed 2%nat)]
            (handleLocationUpdate_begin 1000 1 (data "alice" 37 (-122))
                                        (open 1 (initial up)).1).1).1).2
    = [(1%nat, error RATE_LIMITED)].
Proof.
  assert (validateLocationData 1000 (data "alice" 37 (-122)) = Valid) as Hv
    by reflexivity.
  assert (is_open (socket (open 1 (initial up)).1 1) = true) as Hopen
    by (vm_compute; reflexivity).
  assert (takes 1000 1 (data "alice" 37 (-122)) (open 1 (initial up)).1) as Htakes
    by (vm_compute; reflexivity).
  assert (entry_kept "alice"
            [(1100, Opened 2%nat);
             (1200, Received 2%nat (location_update (data "bob" 10 20)));
             (1300, Tick);
             (1400, Closed 2%nat)]
            (handleLocationUpdate_begin 1000 1 (data "alice" 37 (-122))
                                        (open 1 (initial up)).1).1 = true) as Hkept
    by (vm_compute; reflexivity).
  split_and!; [exact Hv|exact Hopen|exact Htakes|exact Hkept|].
  destruct (C8_rate_limit_by_recorded_acceptance 1000 1 (data "alice" 37 (-122))
              (open 1 (initial up)).1 Hv Hopen) as (_ & _ & _ & Hrun & _).
  assert (Forall (λ te : Z * Event, 1000 ≤ te.1)
            [(1100, Opened 2%nat);
             (1200, Received 2%nat (location_update (data "bob" 10 20)));
             (1300, Tick);
             (1400, Closed 2%nat)]) as Hlater.
  { repeat constructor; simpl; lia. }
  destruct (Hrun ltac:(lia) Htakes _ 1500 1%nat (data "alice" 38 (-122))
              Hlater Hkept eq_refl) as (_ & Hturned).
  destruct (Hturned eq_refl ltac:(lia)) as (_ & Hframes).
  exact (f_equal snd (Hframes ltac:(vm_compute; reflexivity))).
Defined.

(** X21 on alice, who is in the presence map, and on bob, who is new,
    four seconds after alice's first update. *)
Lemma X21_witness :
  validateLocationData 5000 (data "alice" 38 (-122)) = Valid
  ∧ isRateLimited 5000 "alice" alice_online = false
  ∧ takes 5000 1 (data "alice" 38 (-122)) alice_online
  ∧ takes 5000 1 (data "bob" 10 20) alice_online
  ∧ JsMap.size (users (handleLocationUpdate_begin 5000 1 (data "bob" 10 20)
                                                  alice_online).1) = 2.
Proof.
  assert (isRateLimited 5000 "alice" alice_online = false) as Halice
    by (vm_compute; reflexivity).
  assert (isRateLimited 5000 "bob" alice_online = false) as Hbob
    by (vm_compute; reflexivity).
  destruct (X21_user_limit_counts_the_presence_map 5000 1 (data "alice" 38 (-122))
              alice_online eq_refl Halice) as (_ & Hknown & _).
  destruct (X21_user_limit_counts_the_presence_map 5000 1 (data "bob" 10 20)
              alice_online eq_refl Hbob) as (_ & Hroom & Hgrows).
  assert (takes 5000 1 (data "bob" 10 20) alice_online) as Htakes.
  { apply Hroom. right. vm_compute. reflexivity. }
  split_and!; [reflexivity|exact Halice| |exact Htakes|].
  - apply Hknown. left. vm_compute. reflexivity.
  - etrans; [exact (proj2 (Hgrows Htakes))|]. vm_compute. reflexivity.
Defined.

End FurtherScenarios.
